(** * LIBS spectra pipeline: label remapping, normalisation, baseline
    correction, grid reconstruction and batch generation ([src/utils.py]).

    The Python functions of [utils.py] are embedded as Rocq functions.
    Integers are [Z], contiguous class indices are [nat], finite float64
    values are rationals ([Q]): the code only compares them, takes maxima,
    and forms quotients whose algebraic value is what the statements are
    about.  A Python exception is a value [Raise e] of the [result] type. *)

From Stdlib Require Import ZArith QArith Lia Ascii.
From stdpp Require Import base option list sorting gmap strings.

Close Scope Q_scope.
Local Open Scope Z_scope.

(** ** Python exceptions as values *)

Inductive pyerr : Set :=
  | KeyError
  | IndexError
  | ValueError
  | NameError
  | StopIteration.

Inductive result (A : Type) : Type :=
  | Ok (a : A)
  | Raise (e : pyerr).
Arguments Ok {A} a.
Arguments Raise {A} e.

#[global] Instance pyerr_eq_dec : EqDecision pyerr.
Proof. solve_decision. Defined.

#[global] Instance result_eq_dec {A} `{EqDecision A} : EqDecision (result A).
Proof. solve_decision. Defined.

(** Sequencing: an exception aborts the rest of the computation.  The
    instances give [result] the notation [x ← r; k]. *)
#[global] Instance result_ret : MRet result := λ A a, Ok a.
#[global] Instance result_bind : MBind result := λ A B k r,
  match r with
  | Ok a => k a
  | Raise e => Raise e
  end.

(** A list comprehension whose body may raise: the first exception wins. *)
Fixpoint traverse {A B} (f : A → result B) (l : list A) : result (list B) :=
  match l with
  | [] => Ok []
  | x :: l' => y ← f x ; ys ← traverse f l' ; Ok (y :: ys)
  end.

(** ** Label remapping: [get_transformation_dict] and [transform_labels] *)

Module Remap.

(** [np.unique]: the sorted unique elements of an integer array. *)
Definition np_unique (labels : list Z) : list Z :=
  remove_dups (merge_sort Z.le labels).

(** [np.max] of a one-dimensional integer array; empty input raises. *)
Definition np_max (l : list Z) : result Z :=
  match l with
  | [] => Raise ValueError
  | x :: l' => Ok (foldl Z.max x l')
  end.

(** [enumerate]: pairs each element with its position. *)
Definition enumerate {A} (l : list A) : list (nat * A) :=
  imap (λ i x, (i, x)) l.

(** The dict comprehension [{unique_label : i for i, unique_label in ...}]:
    entries are inserted from left to right. *)
Definition dict_comprehension (kvs : list (nat * Z)) : gmap Z nat :=
  foldl (λ m iu, <[iu.2 := iu.1]> m) ∅ kvs.

(** The transformation info is either a Python dict or a numpy array. *)
Inductive trans_info : Type :=
  | TDict (d : gmap Z nat)
  | TArray (a : list nat).

(** [range(n)] for a Python integer [n]. *)
Definition py_range (n : Z) : list Z := seqZ 0 n.

Definition get_transformation_dict (labels : list Z) (dict_or_np : string)
  : result trans_info :=
  let trans_dict := dict_comprehension (enumerate (np_unique labels)) in
  if (String.eqb dict_or_np "np" || String.eqb dict_or_np "numpy")%bool then
    m ← np_max (np_unique labels) ;
    Ok (TArray ((λ i, match trans_dict !! i with
                      | Some v => v
                      | None => 0%nat
                      end) <$> py_range (m + 1)))
  else Ok (TDict trans_dict).

(** Subscripting [trans_dict[l]]: a dict raises [KeyError] on a missing
    key; a numpy array wraps negative indices once and raises
    [IndexError] outside of [-len, len). *)
Definition subscript (t : trans_info) (l : Z) : result nat :=
  match t with
  | TDict d =>
      match d !! l with
      | Some v => Ok v
      | None => Raise KeyError
      end
  | TArray a =>
      let n := Z.of_nat (length a) in
      if decide (0 ≤ l < n) then
        match a !! Z.to_nat l with Some v => Ok v | None => Raise IndexError end
      else if decide (- n ≤ l < 0) then
        match a !! Z.to_nat (n + l) with Some v => Ok v | None => Raise IndexError end
      else Raise IndexError
  end.

(** [label_data] is a scalar or a list / ndarray of labels. *)
Inductive label_data : Type :=
  | Scalar (l : Z)
  | Labels (ls : list Z).

Inductive transformed : Type :=
  | TScalar (i : nat)
  | TLabels (idx : list nat).

Definition transform_labels (data : label_data) (trans_dict : trans_info)
  : result transformed :=
  match data with
  | Labels ls => idx ← traverse (subscript trans_dict) ls ; Ok (TLabels idx)
  | Scalar l => i ← subscript trans_dict l ; Ok (TScalar i)
  end.

End Remap.

(** ** Finite float64 values as rationals *)

Definition Qltb (x y : Q) : bool := negb (Qle_bool y x).

Definition Qmaxb (x y : Q) : Q := if Qltb x y then y else x.

(** [np.max] of a float array, flattened; an empty array raises. *)
Definition np_max (a : list Q) : result Q :=
  match a with
  | [] => Raise ValueError
  | x :: a' => Ok (foldl Qmaxb x a')
  end.

(** ** Normalisation: [normalise_minmax] and [no_normalisation] *)

Module Normalise.

(** The outcome of a normaliser: the returned value ([None] when the
    Python function falls off its end) and the lines it printed. *)
Abbreviation outcome := (option (list Q) * list string)%type.

Definition normalise_minmax (sample : list Q) : result outcome :=
  m ← np_max sample ;
  if Qltb 0 m then
    m' ← np_max sample ;
    Ok (Some ((λ x, x / m')%Q <$> sample), [])
  else
    Ok (None, ["Sample is empty"%string]).

Definition no_normalisation (sample : list Q) : result outcome :=
  Ok (Some sample, []).

End Normalise.

(** ** Baseline correction: [baseline_als_optimized] *)

Module Baseline.

Abbreviation matrix := (list (list Q)).

Definition mk_matrix (m n : nat) (f : nat → nat → Q) : matrix :=
  (λ i, f i <$> seq 0 n) <$> seq 0 m.

(** [sparse.diags([1,-2,1],[0,-1,-2], shape=(L,L-2))]: offset [-k] puts
    its value at the entries [(j+k, j)]. *)
Definition second_difference (L : nat) : matrix :=
  mk_matrix L (L - 2) (λ i j,
    if decide (i = j) then 1%Q
    else if decide (i = S j) then (-2)%Q
    else if decide (i = S (S j)) then 1%Q
    else 0%Q).

Definition dotp (u v : list Q) : Q :=
  foldr Qplus 0%Q (zip_with Qmult u v).

(** [D.dot(D.transpose())]: entry [(i, j)] is the product of rows [i], [j]. *)
Definition dot_transpose (D : matrix) : matrix :=
  (λ ri, (λ rj, dotp ri rj) <$> D) <$> D.

Definition scale (c : Q) (M : matrix) : matrix :=
  (λ row : list Q, Qmult c <$> row) <$> M.

(** [sparse.spdiags(w, 0, L, L)] followed by [W.setdiag(w)]. *)
Definition spdiags (w : list Q) (L : nat) : matrix :=
  mk_matrix L L (λ i j, if decide (i = j) then nth i w 0%Q else 0%Q).

Definition madd (A B : matrix) : matrix :=
  zip_with (zip_with Qplus) A B.

(** [y.clip(min=0)] on one entry. *)
Definition clip0 (x : Q) : Q := if Qltb x 0 then 0%Q else x.

(** A boolean array entry used as a number. *)
Definition b2q (b : bool) : Q := if b then 1%Q else 0%Q.

(** [p * (y > z) + (1-p) * (y < z)], elementwise. *)
Definition reweight (p : Q) (y z : list Q) : list Q :=
  zip_with (λ yi zi, p * b2q (Qltb zi yi) + (1 - p) * b2q (Qltb yi zi))%Q y z.

Definition warning_text : string :=
  "LIBS shot is empty or invalid, no positive values".

Section ALS.
(** [scipy.sparse.linalg.spsolve]: solves [Z · z = b] for [z]. *)
Variable spsolve : matrix → list Q → list Q.

(** The body of [for i in range(niter)], run [n] times from weights [w]
    and last fit [z] ([None] while [z] is still unbound). *)
Fixpoint als_loop (D : matrix) (y : list Q) (p : Q) (n : nat)
    (w : list Q) (z : option (list Q)) : list Q * option (list Q) :=
  match n with
  | O => (w, z)
  | S n' =>
      let W := spdiags w (length y) in
      let Z := madd W D in
      let z' := spsolve Z (zip_with Qmult w y) in
      let w' := reweight p y z' in
      als_loop D y p n' w' (Some z')
  end.

(** [y] is the two-column sample (wavelength, intensity).  The result is
    the corrected intensity together with the warnings emitted. *)
Definition baseline_als_optimized (y : list (Q * Q)) (lam p : Q) (niter : Z)
  : result (list Q * list string) :=
  m ← np_max (mjoin ((λ r, [r.1; r.2]) <$> y)) ;
  let warnings := if Qltb m 0 then [warning_text] else [] in
  let y := clip0 <$> (snd <$> y) in
  let L := length y in
  if decide (L < 2)%nat then Raise ValueError else
  let D := second_difference L in
  let D := scale lam (dot_transpose D) in
  let w := replicate L 1%Q in
  match als_loop D y p (Z.to_nat niter) w None with
  | (_, None) => Raise NameError
  | (_, Some z) => Ok (clip0 <$> zip_with Qminus y z, warnings)
  end.
End ALS.

End Baseline.

(** ** Class weights: the weighting step of [prepare_dataset] *)

Module Weights.

(** [sorted(trans_dict.keys())] *)
Definition sorted_keys (d : gmap Z nat) : list Z :=
  merge_sort Z.le (elements (dom d)).

Definition count_occ_Z (c : Z) (y : list Z) : nat :=
  length (filter (λ x, x = c) y).

(** Modelled from the spec: the balanced weight of class [c] among the
    samples [y], weight(c) = total_samples / (num_classes × count(c)), as
    [sklearn]'s [compute_class_weight] computes it (library code outside
    the repository). *)
Definition balanced_weight (y : list Z) (c : Z) : Q :=
  let n_samples := length y in
  let n_classes := length (Remap.np_unique y) in
  (inject_Z (Z.of_nat n_samples)
   / (inject_Z (Z.of_nat n_classes) * inject_Z (Z.of_nat (count_occ_Z c y))))%Q.

(** Modelled from the spec: [sklearn.utils.class_weight.compute_class_weight]
    with mode ['balanced'], library code outside the repository.  It
    returns the balanced weight of every class in the order given, and
    rejects a label of [y] that is no class and a class without a sample
    in [y]. *)
Definition compute_class_weight_balanced (classes y : list Z)
  : result (list Q) :=
  if decide (Forall (λ x, x ∈ classes) y) then
    traverse (λ c,
      if decide (count_occ_Z c y = 0)%nat then Raise ValueError
      else Ok (balanced_weight y c))
      classes
  else Raise ValueError.

(** [{i:weight for i, weight in enumerate(class_weights)}] *)
Definition enumerate_dict (ws : list Q) : gmap nat Q :=
  foldl (λ m iw, <[iw.1 := iw.2]> m) ∅ (Remap.enumerate ws).

(** The fields of the dataset descriptor that depend on the training
    labels only; [train_labels] is what [__get_labels] read off the names
    of the training files. *)
Record label_info : Type := {
  num_classes : nat;
  trans_dict : gmap Z nat;
  classes_orig : list Z;
  class_weights : gmap nat Q;
}.

(** Lines 408-410 and 428 of [prepare_dataset].  The transformation info
    is asked for in its default form, the dict, so the array branch below
    is never taken. *)
Definition prepare_dataset (train_labels : list Z) : result label_info :=
  let num_classes := length (Remap.np_unique train_labels) in
  t ← Remap.get_transformation_dict train_labels "dict" ;
  match t with
  | Remap.TArray _ => Raise ValueError
  | Remap.TDict trans_dict =>
      class_weights ←
        compute_class_weight_balanced (sorted_keys trans_dict) train_labels ;
      Ok {| num_classes := num_classes;
            trans_dict := trans_dict;
            classes_orig := sorted_keys trans_dict;
            class_weights := enumerate_dict class_weights |}
  end.

End Weights.

(** ** Grid reconstruction: [get_64shot_transition_matrix] *)

Module Grid.

(** [s.split(c)] for a one-character separator: never empty. *)
Fixpoint split (c : ascii) (s : string) : list string :=
  match s with
  | EmptyString => [EmptyString]
  | String a s' =>
      if Ascii.eqb a c then EmptyString :: split c s'
      else match split c s' with
           | [] => [String a EmptyString]
           | t :: ts => String a t :: ts
           end
  end.

(** [l[-1]] *)
Definition item_last {A} (l : list A) : result A :=
  match last l with
  | Some x => Ok x
  | None => Raise IndexError
  end.

(** [s[:-4]]: everything but the last four characters (empty when [s] is
    shorter). *)
Definition drop_last4 (s : string) : string :=
  String.substring 0 (String.length s - 4) s.

(** The ASCII characters that Python counts as white space. *)
Definition is_space (a : ascii) : bool :=
  let n := nat_of_ascii a in
  ((9 <=? n) && (n <=? 13) || (28 <=? n) && (n <=? 32))%nat.

Fixpoint lstrip (s : string) : string :=
  match s with
  | String a s' => if is_space a then lstrip s' else s
  | EmptyString => EmptyString
  end.

Definition strip (s : string) : string :=
  String.rev (lstrip (String.rev (lstrip s))).

Definition digit_of (a : ascii) : option Z :=
  let n := nat_of_ascii a in
  if ((48 <=? n) && (n <=? 57))%nat then Some (Z.of_nat n - 48) else None.

Fixpoint digits (s : string) (acc : Z) : option Z :=
  match s with
  | EmptyString => Some acc
  | String a s' =>
      match digit_of a with
      | Some d => digits s' (10 * acc + d)
      | None => None
      end
  end.

(** [int(s)] on a string: surrounding blanks are dropped, one sign is
    allowed, the rest must be decimal digits.  (Python also accepts single
    underscores between digits; a token cut at ['_'] has none.) *)
Definition py_int (s : string) : result Z :=
  let s := strip s in
  let '(sign, body) :=
    match s with
    | String "-" r => (-1, r)
    | String "+" r => (1, r)
    | _ => (1, s)
    end in
  match body, digits body 0 with
  | String _ _, Some n => Ok (sign * n)
  | _, _ => Raise ValueError
  end.

Section Sep.
(** [os.sep], the path separator of the platform. *)
Variable sep : ascii.

(** [m_id, _, _, measure_point, _ = path.split(sep)[-1].split('_')] *)
Definition mp_key (path : string) : result (string * string) :=
  name ← item_last (split sep path) ;
  match split "_" name with
  | [m_id; _; _; measure_point; _] => Ok (m_id, measure_point)
  | _ => Raise ValueError
  end.

(** The inner [for j in range(i, len(test_filepaths))]: [rest] is
    [test_filepaths[i:]] at loop entry. *)
Fixpoint look_ahead (key : string * string) (rest : list string)
    (split : list string) (i : nat) : result (list string * nat) :=
  match rest with
  | [] => Ok (split, i)
  | fj :: rest' =>
      key_j ← mp_key fj ;
      if decide (key.1 = key_j.1 ∧ key.2 = key_j.2) then
        look_ahead key rest' (split ++ [fj]) (S i)
      else Ok (split, i)
  end.

(** The outer [while i < len(test_filepaths)]; [None] when [fuel]
    iterations did not reach the end of the loop. *)
Fixpoint group_loop (fuel : nat) (test_filepaths : list string) (i : nat)
    (measure_point_split : list (list string))
  : option (result (list (list string))) :=
  if decide (i < length test_filepaths)%nat then
    match fuel with
    | O => None
    | S fuel' =>
        match test_filepaths !! i with
        | None => Some (Raise IndexError)
        | Some fi =>
            match (key ← mp_key fi ;
                   look_ahead key (drop i test_filepaths) [] i) with
            | Raise e => Some (Raise e)
            | Ok (split, i') =>
                group_loop fuel' test_filepaths i'
                           (measure_point_split ++ [split])
            end
        end
    end
  else Some (Ok measure_point_split).
End Sep.

(** [int(sample.split('/')[-1].split('_')[-1][:-4])]: the shot number
    written in the file name, counted from 1. *)
Definition shot_number (sample : string) : result Z :=
  name ← item_last (split "/" sample) ;
  token ← item_last (split "_" name) ;
  py_int (drop_last4 token).

(** [shot_id = int(...) - 1] *)
Definition shot_index (sample : string) : result Z :=
  n ← shot_number sample ;
  Ok (n - 1).

(** [transition_matrix[i, k] = v] *)
Definition set_cell (tm : list (list Z)) (i k : nat) (v : Z)
  : result (list (list Z)) :=
  match tm !! i with
  | Some row =>
      if decide (k < length row)%nat then Ok (<[i := <[k := v]> row]> tm)
      else Raise IndexError
  | None => Raise IndexError
  end.

(** [for sample in mp] *)
Fixpoint fill_samples (mp : list string) (j : Z) (i : nat)
    (tm : list (list Z)) : result (nat * list (list Z)) :=
  match mp with
  | [] => Ok (i, tm)
  | sample :: mp' =>
      shot_id ← shot_index sample ;
      tm ← set_cell tm i 0 j ;
      tm ← set_cell tm i 1 (shot_id `div` 8) ;
      tm ← set_cell tm i 2 (shot_id `mod` 8) ;
      fill_samples mp' j (S i) tm
  end.

(** [for mp in measure_point_split] *)
Fixpoint fill_points (mps : list (list string)) (j : Z) (i : nat)
    (tm : list (list Z)) : result (list (list Z)) :=
  match mps with
  | [] => Ok tm
  | mp :: mps' =>
      it ← fill_samples mp j i tm ;
      fill_points mps' (j + 1) it.1 it.2
  end.

(** The while loop advances [i] in every iteration, so [len] iterations
    are enough: [None] would mean that they were not. *)
Definition get_64shot_transition_matrix (sep : ascii)
    (test_filepaths : list string) : option (result (list (list Z))) :=
  match group_loop sep (length test_filepaths) test_filepaths 0 [] with
  | None => None
  | Some (Raise e) => Some (Raise e)
  | Some (Ok measure_point_split) =>
      let transition_matrix := replicate (length test_filepaths) [0; 0; 0] in
      Some (fill_points measure_point_split 0 0 transition_matrix)
  end.

(** *** Runs of files, for stating what the reconstruction computes *)

(** The sequential index of the run each position belongs to, read off
    the keys alone: a position continues the run of its predecessor when
    their keys agree and opens the next run otherwise. *)
Fixpoint run_index_from {K} `{EqDecision K} (prev : K) (j : Z)
    (keys : list K) : list Z :=
  match keys with
  | [] => []
  | k :: ks =>
      let j' := if decide (k = prev) then j else j + 1 in
      j' :: run_index_from k j' ks
  end.

Definition run_indices {K} `{EqDecision K} (keys : list K) : list Z :=
  match keys with
  | [] => []
  | k :: ks => 0 :: run_index_from k 0 ks
  end.

(** A list of groups is a list of runs when every group is non-empty,
    all files of a group have the group's key, and the group that follows
    starts with another key. *)
Inductive runs (sep : ascii) : list (list string) → Prop :=
  | runs_nil : runs sep []
  | runs_cons (key : string * string) (g : list string)
      (gs : list (list string)) :
      g ≠ [] →
      Forall (λ f, mp_key sep f = Ok key) g →
      (∀ f, head (concat gs) = Some f → mp_key sep f ≠ Ok key) →
      runs sep gs →
      runs sep (g :: gs).

(** The rows written for the files of one group, and for all groups. *)
Definition group_rows (j : Z) (g : list string) : list (list Z) :=
  (λ f, match shot_index f with
        | Ok s => [j; s `div` 8; s `mod` 8]
        | Raise _ => [j; 0; 0]
        end) <$> g.

Fixpoint all_rows (j : Z) (gs : list (list string)) : list (list Z) :=
  match gs with
  | [] => []
  | g :: gs' => group_rows j g ++ all_rows (j + 1) gs'
  end.

Fixpoint group_ids (j : Z) (gs : list (list string)) : list Z :=
  match gs with
  | [] => []
  | g :: gs' => replicate (length g) j ++ group_ids (j + 1) gs'
  end.

End Grid.

(** ** Batch generation: [__data_generator] *)

Module Generator.

(** The effects of the generator on the outside world, in order: a call
    of [shuffle] and the reading of one sample file. *)
Inductive event (F : Type) : Type :=
  | EvShuffle
  | EvLoad (f : F).
Arguments EvShuffle {F}.
Arguments EvLoad {F} f.

Section Gen.
Context {F Sample Label Rng : Type}.

(** One row of [np.zeros((batch_size, 7810))] and of the zero label
    array. *)
Variable zero_sample : Sample.
Variable zero_label : Label.

(** The block under [with np.load(files[i]) as npz_file]: it reads the
    file, remaps and encodes its label and normalises its intensity
    column; any exception of these steps leaves the generator. *)
Variable load_row : F → result (Label * Sample).

(** [sklearn.utils.shuffle] draws from the random state it is given and
    returns a reordered copy. *)
Variable shuffle : Rng → list F → list F * Rng.

(** A negative [batch_size] makes [np.zeros] raise before any file is
    read; the batch sizes here are the natural numbers. *)
Variable batch_size : nat.
Variable shuffle_and_repeat : bool.

Record world : Type := { rng : Rng; trace : list (event F) }.

(** The local variables that survive a [yield]. *)
Record frame : Type := { i : nat; run : bool; files : list F }.

Record batch : Type := { samples : list Sample; labels : list Label }.

(** [files = shuffle(files)] *)
Definition reshuffle (fs : list F) (w : world) : list F * world :=
  let '(fs', g) := shuffle (rng w) fs in
  (fs', {| rng := g; trace := trace w ++ [EvShuffle] |}).

(** Lines 348-354: load [files[i]] into row [j], then [i += 1]. *)
Definition load_into (j : nat) (fr : frame) (b : batch) (w : world)
  : result (frame * batch) * world :=
  match files fr !! i fr with
  | None => (Raise IndexError, w)
  | Some f =>
      let w := {| rng := rng w; trace := trace w ++ [EvLoad f] |} in
      match load_row f with
      | Raise e => (Raise e, w)
      | Ok row =>
          (Ok ({| i := S (i fr); run := run fr; files := files fr |},
               {| samples := <[j := row.2]> (samples b);
                  labels := <[j := row.1]> (labels b) |}), w)
      end
  end.

(** [for j in range(batch_size)], over the remaining values [js] of [j]. *)
Fixpoint for_j (js : list nat) (fr : frame) (b : batch) (w : world)
  : result (frame * batch) * world :=
  match js with
  | [] => (Ok (fr, b), w)
  | j :: js' =>
      if bool_decide (length (files fr) ≤ i fr)%nat then
        if shuffle_and_repeat then
          let '(fs, w) := reshuffle (files fr) w in
          match load_into j {| i := 0; run := run fr; files := fs |} b w with
          | (Ok (fr, b), w) => for_j js' fr b w
          | (Raise e, w) => (Raise e, w)
          end
        else
          (Ok ({| i := i fr; run := false; files := files fr |},
               {| samples := take j (samples b);
                  labels := take j (labels b) |}), w)
      else
        match load_into j fr b w with
        | (Ok (fr, b), w) => for_j js' fr b w
        | (Raise e, w) => (Raise e, w)
        end
  end.

(** A generator object: not yet started, suspended at its [yield], or
    finished (returned or raised). *)
Inductive gen_state : Type :=
  | Created (files0 : list F)
  | Suspended (fr : frame)
  | Finished.

(** From the test [while run] up to the next [yield]. *)
Definition while_run (fr : frame) (w : world)
  : result batch * gen_state * world :=
  if run fr then
    let b := {| samples := replicate batch_size zero_sample;
                labels := replicate batch_size zero_label |} in
    match for_j (seq 0 batch_size) fr b w with
    | (Ok (fr, b), w) => (Ok b, Suspended fr, w)
    | (Raise e, w) => (Raise e, Finished, w)
    end
  else (Raise StopIteration, Finished, w).

(** Calling the generator function runs nothing. *)
Definition __data_generator (files : list F) : gen_state := Created files.

(** [next(gen)] *)
Definition next (st : gen_state) (w : world)
  : result batch * gen_state * world :=
  match st with
  | Created files0 =>
      let '(fs, w) :=
        if shuffle_and_repeat then reshuffle files0 w else (files0, w) in
      while_run {| i := 0; run := true; files := fs |} w
  | Suspended fr => while_run fr w
  | Finished => (Raise StopIteration, Finished, w)
  end.

(** The outcomes of [k] successive calls of [next]. *)
Fixpoint next_n (k : nat) (st : gen_state) (w : world)
  : list (result batch) * gen_state * world :=
  match k with
  | O => ([], st, w)
  | S k' =>
      let '(r, st, w) := next st w in
      let '(rs, st, w) := next_n k' st w in
      (r :: rs, st, w)
  end.

Definition rows (b : batch) : nat := length (samples b).
End Gen.

(** *** Vocabulary for the statements *)

(** The batch whose rows were loaded from the files [l], in order. *)
Definition batch_of {F Sample Label} (row : F → Label * Sample) (l : list F)
  : @batch Sample Label :=
  {| samples := (λ f, (row f).2) <$> l; labels := (λ f, (row f).1) <$> l |}.

(** The consecutive slices of [b] elements of [l] from position [i] on:
    [r] of them and then one more that takes what is left. *)
Definition chunks {A} (b i r : nat) (l : list A) : list (list A) :=
  (λ t, take b (drop (i + t * b) l)) <$> seq 0 (S r).

(** The row counts of the batches among the outcomes of [next]. *)
Definition yielded_rows {Sample Label} (rs : list (result (@batch Sample Label)))
  : list nat :=
  omap (λ r, match r with Ok b => Some (rows b) | Raise _ => None end) rs.

(** The events of one pass over a shuffled list [p]. *)
Definition pass {F} (p : list F) : list (event F) :=
  EvShuffle :: (EvLoad <$> p).

(** Since the trace [t0], the generator has run complete passes over
    reorderings of [fs], each opened by a shuffle, and is at position [i]
    of the current one. *)
Definition pass_trace {F Rng} (fs : list F) (t0 : list (event F))
    (fr : @frame F) (w : @world F Rng) : Prop :=
  run fr = true
  ∧ files fr ≡ₚ fs
  ∧ (i fr ≤ length (files fr))%nat
  ∧ ∃ ps : list (list F),
      Forall (λ p, p ≡ₚ fs) ps
      ∧ trace w = t0 ++ concat (pass <$> ps) ++ pass (take (i fr) (files fr)).

(** The file list and the random state after [n] successive calls of
    [shuffle], each one on the list that the call before it returned,
    starting from the list [l] and the state [g]. *)
Fixpoint shuffled {F Rng} (shuffle : Rng → list F → list F * Rng)
    (n : nat) (g : Rng) (l : list F) : list F * Rng :=
  match n with
  | O => (l, g)
  | S n' =>
      shuffle (shuffled shuffle n' g l).2 (shuffled shuffle n' g l).1
  end.

(** The orders of the first [m] passes: what the first [m] calls of
    [shuffle] returned. *)
Definition passes_read {F Rng} (shuffle : Rng → list F → list F * Rng)
    (g : Rng) (fs : list F) (m : nat) : list (list F) :=
  (λ t, (shuffled shuffle (S t) g fs).1) <$> seq 0 m.

(** The files read so far, in the order of reading: [m] complete passes
    and the first [i] files of the current one. *)
Definition reads {F Rng} (shuffle : Rng → list F → list F * Rng)
    (g : Rng) (fs : list F) (m : nat) (fr : @frame F) : list F :=
  concat (passes_read shuffle g fs m) ++ take (i fr) (files fr).

(** Since the trace [t0] and the random state [g0], the generator has
    run [m] complete passes and is at position [i] of the next one; the
    order of every pass is the list that [shuffle] returned for it, and
    the random state is the one that the last shuffle left. *)
Definition chain_trace {F Rng} (shuffle : Rng → list F → list F * Rng)
    (fs : list F) (g0 : Rng) (t0 : list (event F)) (m : nat)
    (fr : @frame F) (w : @world F Rng) : Prop :=
  run fr = true
  ∧ (i fr ≤ length (files fr))%nat
  ∧ files fr = (shuffled shuffle (S m) g0 fs).1
  ∧ rng w = (shuffled shuffle (S m) g0 fs).2
  ∧ trace w = t0 ++ concat (pass <$> passes_read shuffle g0 fs m)
                ++ pass (take (i fr) (files fr)).

(** The batch sizes that the description of the single-pass mode
    promises: full batches, then a short one when the file count is not a
    multiple of the batch size, then nothing. *)
Definition spec_single_pass_sizes (n b : nat) : list nat :=
  replicate (n / b) b ++ (if decide (n mod b = 0)%nat then [] else [(n mod b)%nat]).

(** A small instance to run the generator on: files are numbers, the
    row of a file is its number, and shuffling rotates the list by the
    seed. *)
Definition demo_load (f : nat) : result (nat * nat) := Ok (f, f).

Definition demo_shuffle (g : nat) (l : list nat) : list nat * nat :=
  (rotate g l, S g).

Definition demo_world : @world nat nat := {| rng := 1%nat; trace := [] |}.

Definition demo_next_n (batch_size : nat) (shuffle_and_repeat : bool)
    (k : nat) (files : list nat) :=
  next_n 0%nat 0%nat demo_load demo_shuffle batch_size shuffle_and_repeat k
         (__data_generator files) demo_world.

End Generator.

(** ** The label and step fields of the dataset descriptor:
    [prepare_dataset] *)

Module Assembler.
Import Remap.

(** The exceptions that can leave [prepare_dataset]: those of the label
    pipeline, and the division by a batch size of zero. *)
Inductive exn : Set :=
  | Py (e : pyerr)
  | ZeroDivisionError.

Inductive attempt (A : Type) : Type :=
  | Return (a : A)
  | Throw (e : exn).
Arguments Return {A} a.
Arguments Throw {A} e.

#[global] Instance attempt_ret : MRet attempt := λ A a, Return a.
#[global] Instance attempt_bind : MBind attempt := λ A B k r,
  match r with
  | Return a => k a
  | Throw e => Throw e
  end.

Definition lift {A} (r : result A) : attempt A :=
  match r with
  | Ok a => Return a
  | Raise e => Throw (Py e)
  end.

(** [ceil(len(labels) / batch_size)]: the quotient of the two ints,
    rounded up.  (The quotient is a float in Python; its ceiling is the
    exact one as long as the length is below 2^52.) *)
Definition ceil_quotient (len : nat) (batch_size : Z) : attempt Z :=
  if decide (batch_size = 0) then Throw ZeroDivisionError
  else Return (- ((- Z.of_nat len) `div` batch_size)).

(** The entries of the returned dict that are computed from the labels
    and the batch size. *)
Record descriptor : Type := {
  train_labels : transformed;
  test_labels : transformed;
  batch_size : Z;
  num_classes : nat;
  classes_orig : list Z;
  classes_trans : list nat;
  train_steps : Z;
  test_steps : Z;
  class_weights : gmap nat Q;
}.

Section Assemble.
(** [class_weight.compute_class_weight('balanced', classes, y)] of
    [sklearn]. *)
Variable compute_class_weight : list Z → list Z → result (list Q).

(** Lines 408-428 of [prepare_dataset]; the two label lists are what
    [__get_labels] read off the names of the training and test files.
    The entries of the dict display are evaluated from top to bottom.
    The transformation info is asked for in its default form, the dict,
    so the array branch below is never taken. *)
Definition prepare_dataset (train_labels test_labels : list Z)
    (batch_size : Z) : attempt descriptor :=
  let num_classes := length (np_unique train_labels) in
  t ← lift (get_transformation_dict train_labels "dict") ;
  match t with
  | TArray _ => Throw (Py ValueError)
  | TDict trans_dict =>
      class_weights ←
        lift (compute_class_weight (Weights.sorted_keys trans_dict)
                                   train_labels) ;
      train_labels' ← lift (transform_labels (Labels train_labels) t) ;
      test_labels' ← lift (transform_labels (Labels test_labels) t) ;
      let classes_orig := Weights.sorted_keys trans_dict in
      let classes_trans := merge_sort Nat.le (map_to_list trans_dict).*2 in
      train_steps ← ceil_quotient (length train_labels) batch_size ;
      test_steps ← ceil_quotient (length test_labels) batch_size ;
      Return {| train_labels := train_labels';
                test_labels := test_labels';
                batch_size := batch_size;
                num_classes := num_classes;
                classes_orig := classes_orig;
                classes_trans := classes_trans;
                train_steps := train_steps;
                test_steps := test_steps;
                class_weights := Weights.enumerate_dict class_weights |}
  end.
End Assemble.

End Assembler.

(** ** Copper content: [has_sufficient_copper] *)

Module Copper.

Section Lines.
(** The positions of the copper lines in a spectrum,
    [int(round(cpl - 180, 1) * 10)] for the nine wavelengths of the
    table.  They are computed with float rounding, once, from constants;
    none of them is negative. *)
Variable copper_lines_indices : list nat.

(** The quotient [low_copper_sum / len(copper_lines_indices)] of two
    ints, a float. *)
Variable true_div : nat → nat → Q.

(** [for cli in copper_lines_indices], over the remaining indices. *)
Fixpoint lines_loop (spectrum : list Q) (amount_t drop_t : Q)
    (clis : list nat) (low_copper_sum : nat) : result bool :=
  match clis with
  | [] => Ok true
  | cli :: clis' =>
      match spectrum !! cli with
      | None => Raise IndexError
      | Some v =>
          let low_copper_sum :=
            if Qltb v drop_t then S low_copper_sum else low_copper_sum in
          if Qltb amount_t
                  (true_div low_copper_sum (length copper_lines_indices))
          then Ok false
          else lines_loop spectrum amount_t drop_t clis' low_copper_sum
      end
  end.

Definition has_sufficient_copper (spectrum : list Q) (amount_t drop_t : Q)
  : result bool :=
  lines_loop spectrum amount_t drop_t copper_lines_indices 0.

(** The number of copper lines whose intensity is below [drop_t]. *)
Definition is_low (spectrum : list Q) (drop_t : Q) (cli : nat) : bool :=
  match spectrum !! cli with
  | Some v => Qltb v drop_t
  | None => false
  end.

Definition low_lines (spectrum : list Q) (drop_t : Q) (clis : list nat)
  : nat :=
  length (filter (λ cli, is_low spectrum drop_t cli = true) clis).
End Lines.

(** The exact quotient, to run the function on an example. *)
Definition exact_div (a n : nat) : Q :=
  (inject_Z (Z.of_nat a) / inject_Z (Z.of_nat n))%Q.

End Copper.

(** ** Accuracy heatmaps: the array built by [compute_accuracy_heatmaps] *)

Module Heatmap.

(** A stack of grids, [acc_heatmap]. *)
Abbreviation grids := (list (list (list Q))).

(** [l[i]] for a position [i] that is not negative. *)
Definition item {A} (l : list A) (i : nat) : result A :=
  match l !! i with
  | Some x => Ok x
  | None => Raise IndexError
  end.

(** An index into an axis of [n] entries: numpy wraps a negative index
    once and raises outside of [-n, n). *)
Definition np_index (n : nat) (a : Z) : result nat :=
  if decide (0 ≤ a < Z.of_nat n) then Ok (Z.to_nat a)
  else if decide (- Z.of_nat n ≤ a < 0) then Ok (Z.to_nat (Z.of_nat n + a))
  else Raise IndexError.

(** [np.max(heatmap_tm, axis=0)[0]]: the maximum of the first column; an
    array without rows has no maximum. *)
Definition max_first_column (heatmap_tm : list (list Z)) : result Z :=
  column ← traverse (λ row, item row 0) heatmap_tm ;
  Remap.np_max column.

(** [np.zeros((n, 8, 8))] *)
Definition zeros (n : Z) : result grids :=
  if decide (n < 0) then Raise ValueError
  else Ok (replicate (Z.to_nat n) (replicate 8 (replicate 8 0%Q))).

(** [acc_heatmap[a, b, c] = v] *)
Definition set_grid_cell (acc_heatmap : grids) (a b c : Z) (v : Q)
  : result grids :=
  ia ← np_index (length acc_heatmap) a ;
  ib ← np_index 8 b ;
  ic ← np_index 8 c ;
  Ok (alter (alter (<[ic := v]>) ib) ia acc_heatmap).

(** [for i, single_pred in enumerate(target_preds)], from position [i]. *)
Fixpoint scatter (heatmap_tm : list (list Z)) (i : nat)
    (target_preds : list Q) (acc_heatmap : grids) : result grids :=
  match target_preds with
  | [] => Ok acc_heatmap
  | single_pred :: rest =>
      row ← item heatmap_tm i ;
      a ← item row 0 ;
      b ← item row 1 ;
      c ← item row 2 ;
      acc_heatmap ← set_grid_cell acc_heatmap a b c single_pred ;
      scatter heatmap_tm (S i) rest acc_heatmap
  end.

(** Lines 278-283: the array [acc_heatmap] that the function goes on to
    plot and to save. *)
Definition compute_accuracy_heatmaps (heatmap_tm : list (list Z))
    (target_preds : list Q) : result grids :=
  m ← max_first_column heatmap_tm ;
  acc_heatmap ← zeros (m + 1) ;
  scatter heatmap_tm 0 target_preds acc_heatmap.

(** The entry [acc_heatmap[a, b, c]], for stating what the array holds. *)
Definition cell (acc_heatmap : grids) (a b c : nat) : option Q :=
  g ← acc_heatmap !! a ; r ← g !! b ; r !! c.

End Heatmap.

(** ** Mixing synthetic data into the handheld training set:
    [prepare_mixture_dataset] *)

Module Mixture.
Import Remap.

(** The items of the dict made of [np.unique(labels, return_counts=True)]:
    every distinct label with the number of its occurrences, in
    ascending order of the labels. *)
Definition unique_counts (labels : list Z) : list (Z * nat) :=
  (λ l, (l, Weights.count_occ_Z l labels)) <$> np_unique labels.

(** [np.where(labels == hhl)[0]]: the positions, from [i] on, at which
    the label is [hhl]. *)
Fixpoint where_from (i : nat) (labels : list Z) (hhl : Z) : list nat :=
  match labels with
  | [] => []
  | l :: labels' =>
      if decide (l = hhl) then i :: where_from (S i) labels' hhl
      else where_from (S i) labels' hhl
  end.

Definition where_eq (labels : list Z) (hhl : Z) : list nat :=
  where_from 0 labels hhl.

(** [a[indices]] for an array of indices that are not negative. *)
Definition take_indices {A} (a : list A) (indices : list nat)
  : result (list A) :=
  traverse (λ i, match a !! i with
                 | Some x => Ok x
                 | None => Raise IndexError
                 end) indices.

(** [v[:n]]: the first [n] entries, or all but the last [-n] when [n] is
    negative. *)
Definition py_take {A} (n : Z) (v : list A) : list A :=
  if decide (0 ≤ n) then take (Z.to_nat n) v
  else take (length v - Z.to_nat (- n)) v.

Section Mix.
Context {F : Type}.

(** [int(hhc * mixture_pct)]: the float product, truncated, as a
    function of the count [hhc]. *)
Variable amount : nat → Z.

(** The synthetic training files and their labels. *)
Variable train_data_syn : list F.
Variable train_labels_syn : list Z.

(** The loop of lines 498-507 over the zipped items; [printed] collects
    the arguments [(n, hhl, sync)] of the warnings. *)
Fixpoint mix_loop (items : list ((Z * nat) * (Z * nat)))
    (train_data_hh : list F) (train_labels_hh : list Z)
    (printed : list (Z * Z * nat))
  : result (list F * list Z * list (Z * Z * nat)) :=
  match items with
  | [] => Ok (train_data_hh, train_labels_hh, printed)
  | ((hhl, hhc), (_, sync)) :: items' =>
      let n := amount hhc in
      let printed :=
        if decide (Z.of_nat sync < n) then printed ++ [(n, hhl, sync)]
        else printed in
      let indices := where_eq train_labels_syn hhl in
      extra_data ← take_indices train_data_syn indices ;
      extra_labels ← take_indices train_labels_syn indices ;
      mix_loop items' (train_data_hh ++ py_take n extra_data)
               (train_labels_hh ++ py_take n extra_labels) printed
  end.

(** Lines 494-507: the training files and labels that the rest of the
    function works with, and the warnings printed on the way. *)
Definition prepare_mixture_dataset (train_data_hh : list F)
    (train_labels_hh : list Z)
  : result (list F * list Z * list (Z * Z * nat)) :=
  let hh_counts := unique_counts train_labels_hh in
  let syn_counts := unique_counts train_labels_syn in
  mix_loop (zip hh_counts syn_counts) train_data_hh train_labels_hh [].
End Mix.

End Mixture.

(** ** Splitting the synthetic spectra: [prepare_all_synthetic.py] *)

Module Synthetic.

(** [v[sl1:sl2]] for bounds that are not negative. *)
Definition slice {A} (sl1 sl2 : Z) (v : list A) : list A :=
  take (Z.to_nat (sl2 - sl1)) (drop (Z.to_nat sl1) v).

Section Split.
Context {F : Type}.

(** [sorted(data[k].values())]: the file lists of one mineral, put in
    order. *)
Variable sorted_values : list (list F) → list (list F).

(** The loops of lines 45-48 for one entry [(sl1, sl2, lst, name)] of
    [slices]; [data] holds, for every mineral in the order of the dict,
    its file lists. *)
Definition collect (data : list (list (list F))) (sl1 sl2 : Z) : list F :=
  concat ((λ vs, concat (slice sl1 sl2 <$> sorted_values vs)) <$> data).

(** All the files that lines 35-39 sorted into [data]. *)
Definition found (data : list (list (list F))) : list F :=
  concat ((λ vs, concat vs) <$> data).

Definition test (data : list (list (list F))) : list F := collect data 0 870.
Definition eva (data : list (list (list F))) : list F := collect data 870 1740.
Definition train (data : list (list (list F))) : list F :=
  collect data 1740 5800.
End Split.

End Synthetic.

(** ** Labels: [set_classification_targets], [__get_labels] and the
    labels stored by [bundle_numpy/csvtonumpy.py] *)

Module Labels.

Definition set_classification_targets (cls_choice : Z)
  : result (Z * string) :=
  if decide (cls_choice = 0) then Ok (cls_choice, "mineral classes")
  else if decide (cls_choice = 1) then Ok (cls_choice, "mineral subgroups")
  else if decide (cls_choice = 2) then Ok (cls_choice, "minerals")
  else Raise ValueError.

(** [l[i]] on a Python list: a negative index counts from the end. *)
Definition list_item {A} (l : list A) (i : Z) : result A :=
  let n := Z.of_nat (length l) in
  let j := if decide (0 ≤ i) then i else n + i in
  if decide (0 ≤ j < n) then
    match l !! Z.to_nat j with
    | Some x => Ok x
    | None => Raise IndexError
    end
  else Raise IndexError.

Section Basename.
(** [ntpath.basename] *)
Variable basename : string → string.

Definition __get_labels (files : list string) (targets : Z)
  : result (list Z) :=
  let target_indices := [1; 2; 0] in
  traverse (λ f,
    let tokens := Grid.split "_" (basename f) in
    idx ← list_item target_indices targets ;
    token ← list_item tokens idx ;
    Grid.py_int token) files.
End Basename.

(** [s[-a:-b]] for [a ≥ b > 0]: both bounds count from the end and stop
    at the start of the string. *)
Definition slice_from_end (s : string) (a b : nat) : string :=
  let n := String.length s in
  String.substring (n - a) ((n - b) - (n - a)) s.

(** Lines 21-24 of [convert_to_numpy]: the label array stored with the
    data of the csv file [f], (class, subgroup, mineral id) read off
    fixed positions of the path.  [astype(int)] is taken to read a
    string as [int] does. *)
Definition convert_to_numpy_labels (f : string) : result (list Z) :=
  let mineral_class := slice_from_end f 21 18 in
  let mineral_subgroup := slice_from_end f 17 14 in
  let mineral_id := slice_from_end f 26 22 in
  traverse Grid.py_int [mineral_class; mineral_subgroup; mineral_id].

(** Whether the character [c] occurs in [s]. *)
Fixpoint has_char (c : ascii) (s : string) : bool :=
  match s with
  | EmptyString => false
  | String a s' => Ascii.eqb a c || has_char c s'
  end.

End Labels.

(** * Properties *)

(** ** Exceptions and comprehensions *)

Lemma traverse_ok {A B} (f : A → result B) (g : A → B) (l : list A) :
  (∀ x, x ∈ l → f x = Ok (g x)) → traverse f l = Ok (g <$> l).
Proof.
  induction l as [|x l IH]; intros H; [done|].
  simpl. rewrite (H x) by left. simpl.
  rewrite IH; [done|]. intros y Hy. apply H. by right.
Qed.

(** ** Label remapping *)

Module RemapFacts.
Import Remap.

Lemma remove_dups_StronglySorted {A} `{EqDecision A} (R : relation A)
    (l : list A) :
  StronglySorted R l → StronglySorted R (remove_dups l).
Proof.
  induction 1 as [|x l Hs IH Hx]; simpl; [constructor|].
  destruct (decide_rel _ x l); [done|]. constructor; [done|].
  apply Forall_forall. intros y Hy. rewrite elem_of_remove_dups in Hy.
  rewrite Forall_forall in Hx. auto.
Qed.

Lemma StronglySorted_le_lt (l : list Z) :
  StronglySorted Z.le l → NoDup l → StronglySorted Z.lt l.
Proof.
  induction 1 as [|x l Hs IH Hx]; intros Hnd; [constructor|].
  apply NoDup_cons in Hnd as [Hnin Hnd]. constructor; [auto|].
  apply Forall_forall. intros y Hy.
  assert (x ≤ y) by (rewrite Forall_forall in Hx; auto).
  assert (x ≠ y) by (intros ->; done). lia.
Qed.

Lemma np_unique_sorted (labels : list Z) :
  StronglySorted Z.lt (np_unique labels).
Proof.
  apply StronglySorted_le_lt; [|apply NoDup_remove_dups].
  apply remove_dups_StronglySorted, StronglySorted_merge_sort; apply _.
Qed.

Lemma np_unique_NoDup (labels : list Z) : NoDup (np_unique labels).
Proof. apply NoDup_remove_dups. Qed.

Lemma elem_of_np_unique (labels : list Z) (x : Z) :
  x ∈ np_unique labels ↔ x ∈ labels.
Proof.
  unfold np_unique. by rewrite elem_of_remove_dups, merge_sort_Permutation.
Qed.

Lemma dict_comprehension_snoc (l : list Z) (x : Z) :
  dict_comprehension (enumerate (l ++ [x]))
  = <[x := length l]> (dict_comprehension (enumerate l)).
Proof.
  unfold dict_comprehension, enumerate.
  rewrite imap_app, foldl_app. simpl. by rewrite Nat.add_0_r.
Qed.

(** On a duplicate-free list the comprehension sends each element to its
    position and has no other key. *)
Lemma dict_comprehension_lookup (l : list Z) (x : Z) (i : nat) :
  NoDup l →
  dict_comprehension (enumerate l) !! x = Some i ↔ l !! i = Some x.
Proof.
  revert x i. induction l as [|y l IH] using rev_ind; intros x i Hnd.
  - unfold dict_comprehension. simpl. rewrite lookup_empty. naive_solver.
  - apply NoDup_app in Hnd as (Hnd & Hdisj & _).
    rewrite dict_comprehension_snoc.
    destruct (decide (y = x)) as [->|Hne].
    + rewrite lookup_insert_eq. split.
      * intros [= <-]. by rewrite list_lookup_middle.
      * intros Hi. destruct (decide (i < length l)%nat) as [Hlt|Hge].
        -- rewrite lookup_app_l in Hi by done.
           exfalso. eapply Hdisj; [by eapply list_elem_of_lookup_2|]. left.
        -- apply lookup_lt_Some in Hi. rewrite length_app in Hi. simpl in Hi.
           f_equal. lia.
    + rewrite lookup_insert_ne by done. rewrite IH by done. split.
      * intros Hi. by rewrite lookup_app_l by by eapply lookup_lt_Some.
      * intros Hi. destruct (decide (i < length l)%nat) as [Hlt|Hge].
        -- by rewrite lookup_app_l in Hi.
        -- rewrite lookup_app_r in Hi by lia.
           destruct (i - length l)%nat; simpl in Hi; [congruence|done].
Qed.

Lemma trans_dict_lookup (labels : list Z) (x : Z) (i : nat) :
  dict_comprehension (enumerate (np_unique labels)) !! x = Some i
  ↔ np_unique labels !! i = Some x.
Proof. apply dict_comprehension_lookup, np_unique_NoDup. Qed.

Lemma trans_dict_lookup_None (labels : list Z) (x : Z) :
  x ∉ labels → dict_comprehension (enumerate (np_unique labels)) !! x = None.
Proof.
  intros Hx. apply eq_None_not_Some. intros [i Hi].
  apply trans_dict_lookup in Hi. apply Hx, elem_of_np_unique.
  by eapply list_elem_of_lookup_2.
Qed.

Lemma trans_dict_lookup_elem (labels : list Z) (x : Z) :
  x ∈ labels →
  ∃ i, dict_comprehension (enumerate (np_unique labels)) !! x = Some i
       ∧ np_unique labels !! i = Some x.
Proof.
  intros Hx. apply elem_of_np_unique, list_elem_of_lookup in Hx as [i Hi].
  exists i. split; [|done]. by apply trans_dict_lookup.
Qed.

Lemma foldl_max_spec (l : list Z) (x : Z) :
  foldl Z.max x l ∈ x :: l ∧ ∀ y, y ∈ x :: l → y ≤ foldl Z.max x l.
Proof.
  revert x. induction l as [|z l IH]; intros x; simpl.
  - split; [left|]. intros y Hy. apply list_elem_of_singleton in Hy. lia.
  - destruct (IH (x `max` z)) as [Hin Hle]. split.
    + apply elem_of_cons in Hin as [Heq|Hin].
      * rewrite Heq. destruct (Z.max_spec x z) as [[_ ->]|[_ ->]];
          [right; left | left].
      * by do 2 right.
    + intros y Hy. apply elem_of_cons in Hy as [->|Hy].
      * transitivity (x `max` z); [lia|apply Hle; left].
      * apply elem_of_cons in Hy as [->|Hy].
        -- transitivity (x `max` z); [lia|apply Hle; left].
        -- apply Hle. by right.
Qed.

Lemma np_max_int_spec (l : list Z) :
  l ≠ [] → ∃ m, np_max l = Ok m ∧ m ∈ l ∧ ∀ y, y ∈ l → y ≤ m.
Proof.
  destruct l as [|x l]; [done|]. intros _. eexists. split; [done|].
  apply foldl_max_spec.
Qed.

End RemapFacts.

Module RemapSpec.
Import Remap RemapFacts.

(** C4. The dict-form Transformation Mapping built from any label list
    enumerates the unique IDs in strictly ascending order and sends the
    ID at position [i] of that enumeration to index [i], with no other
    key; applying it to a label of the list and looking the index up
    again in the enumeration gives the label back, for a single label and
    for the whole list.  On [[11; 28; 73; 98]] the mapping is
    11→0, 28→1, 73→2, 98→3. *)
Theorem transformation_dict_enumerates (labels : list Z) :
  let u := np_unique labels in
  ∃ d : gmap Z nat,
    get_transformation_dict labels "dict" = Ok (TDict d)
    ∧ StronglySorted Z.lt u
    ∧ (∀ x, x ∈ u ↔ x ∈ labels)
    ∧ (∀ x i, d !! x = Some i ↔ u !! i = Some x)
    ∧ (∀ x, x ∈ labels →
         ∃ i, transform_labels (Scalar x) (TDict d) = Ok (TScalar i)
              ∧ u !! i = Some x)
    ∧ (∃ idx, transform_labels (Labels labels) (TDict d) = Ok (TLabels idx)
              ∧ (λ i, u !! i) <$> idx = Some <$> labels)
    ∧ get_transformation_dict [11; 28; 73; 98] "dict"
      = Ok (TDict (<[98 := 3%nat]> (<[73 := 2%nat]> (<[28 := 1%nat]>
                  (<[11 := 0%nat]> ∅))))).
Proof.
  intros u. exists (dict_comprehension (enumerate u)).
  split; [done|]. split; [apply np_unique_sorted|].
  split; [apply elem_of_np_unique|].
  split; [intros x i; apply trans_dict_lookup|].
  split; [|split; [|done]].
  - intros x Hx. destruct (trans_dict_lookup_elem labels x Hx) as (i & Hd & Hu).
    exists i. split; [|done]. simpl. unfold u. by rewrite Hd.
  - set (d := dict_comprehension (enumerate u)).
    exists ((λ x, default 0%nat (d !! x)) <$> labels). split.
    + simpl. erewrite traverse_ok; [done|]. intros x Hx. simpl.
      destruct (trans_dict_lookup_elem labels x Hx) as (i & Hd & _).
      unfold d, u. by rewrite Hd.
    + rewrite <- list_fmap_compose. apply list_fmap_ext.
      intros k x Hk. simpl.
      destruct (trans_dict_lookup_elem labels x) as (i & Hd & Hu);
        [by eapply list_elem_of_lookup_2|].
      unfold d, u. by rewrite Hd.
Qed.

(** C5, as stated, fails: 99 is absent from the mapping built from
    [[11; 28]], yet the array form does not resolve it to index 0; the
    array has 29 slots and the lookup raises an index error. *)
Lemma array_lookup_beyond_max_raises :
  (99 ∉ [11; 28])
  ∧ get_transformation_dict [11; 28] "np" ≫= transform_labels (Scalar 99)
    = Raise IndexError
  ∧ get_transformation_dict [11; 28] "np" ≫= transform_labels (Scalar 99)
    ≠ Ok (TScalar 0).
Proof.
  split; [|split; [|intros [=]]]; [|reflexivity].
  intros H. repeat (apply elem_of_cons in H as [[=]|H]). by apply elem_of_nil in H.
Qed.

(** A negative ID is absent as well; numpy counts it from the end of the
    array, so [-1] reads the slot of the largest ID. *)
Example array_lookup_negative_wraps :
  get_transformation_dict [11; 28] "np" ≫= transform_labels (Scalar (-1))
  = Ok (TScalar 1).
Proof. reflexivity. Qed.

Lemma subscript_array_in_range (a : list nat) (l : Z) (v : nat) :
  0 ≤ l → a !! Z.to_nat l = Some v → subscript (TArray a) l = Ok v.
Proof.
  intros Hl Hv. unfold subscript. apply lookup_lt_Some in Hv as Hlt.
  rewrite decide_True by lia. by rewrite Hv.
Qed.

Lemma subscript_array_beyond (a : list nat) (l : Z) :
  Z.of_nat (length a) ≤ l ∨ l < - Z.of_nat (length a) →
  subscript (TArray a) l = Raise IndexError.
Proof.
  intros Hl. unfold subscript.
  rewrite decide_False by lia. by rewrite decide_False by lia.
Qed.

(** C5, amended.  For a label ID absent from a non-empty training label
    list: the dict form raises a lookup error; the array form has
    max(ID)+1 slots, resolves the ID to index 0 when it lies in
    0..max(ID), and raises an index error when it is greater than
    max(ID).  ['numpy'] selects the same array form as ['np']. *)
Theorem unmapped_label_lookup (labels : list Z) (l : Z) :
  labels ≠ [] → l ∉ labels →
  ∃ (d : gmap Z nat) (a : list nat) (m : Z),
    get_transformation_dict labels "dict" = Ok (TDict d)
    ∧ transform_labels (Scalar l) (TDict d) = Raise KeyError
    ∧ m ∈ labels ∧ (∀ x, x ∈ labels → x ≤ m)
    ∧ get_transformation_dict labels "np" = Ok (TArray a)
    ∧ get_transformation_dict labels "numpy" = Ok (TArray a)
    ∧ Z.of_nat (length a) = Z.max 0 (m + 1)
    ∧ (0 ≤ l ≤ m → transform_labels (Scalar l) (TArray a) = Ok (TScalar 0))
    ∧ (m < l → transform_labels (Scalar l) (TArray a) = Raise IndexError).
Proof.
  intros Hne Hl.
  destruct (np_max_int_spec (np_unique labels)) as (m & Hm & Hin & Hmax).
  { intros Hnil. destruct labels as [|x ?]; [done|].
    assert (x ∈ np_unique (x :: labels)) as Hx by (apply elem_of_np_unique; left).
    rewrite Hnil in Hx. by apply elem_of_nil in Hx. }
  set (d := dict_comprehension (enumerate (np_unique labels))).
  exists d, ((λ i, match d !! i with Some v => v | None => 0%nat end)
               <$> py_range (m + 1)), m.
  assert (d !! l = None) as Hd by by apply trans_dict_lookup_None.
  assert (Hlen : Z.of_nat (length ((λ i, match d !! i with Some v => v | None => 0%nat end)
               <$> py_range (m + 1))) = Z.max 0 (m + 1)).
  { unfold py_range. rewrite length_fmap, length_seqZ. lia. }
  split; [done|]. split; [simpl; by rewrite Hd|].
  split; [by apply elem_of_np_unique|].
  split; [intros x Hx; by apply Hmax, elem_of_np_unique|].
  split; [unfold get_transformation_dict; simpl; by rewrite Hm|].
  split; [unfold get_transformation_dict; simpl; by rewrite Hm|].
  split; [done|]. split.
  - intros [H0 Hle]. unfold transform_labels.
    erewrite subscript_array_in_range; [done|done|].
    rewrite list_lookup_fmap. unfold py_range.
    rewrite lookup_seqZ_lt by lia. simpl.
    replace (0 + Z.of_nat (Z.to_nat l)) with l by lia. by rewrite Hd.
  - intros Hlt. unfold transform_labels.
    rewrite subscript_array_beyond; [done|]. rewrite Hlen. lia.
Qed.

Lemma unmapped_label_lookup_witness :
  ∃ (d : gmap Z nat) (a : list nat) (m : Z),
    get_transformation_dict [11; 28] "dict" = Ok (TDict d)
    ∧ transform_labels (Scalar 12) (TDict d) = Raise KeyError
    ∧ m ∈ [11; 28] ∧ (∀ x, x ∈ [11; 28] → x ≤ m)
    ∧ get_transformation_dict [11; 28] "np" = Ok (TArray a)
    ∧ get_transformation_dict [11; 28] "numpy" = Ok (TArray a)
    ∧ Z.of_nat (length a) = Z.max 0 (m + 1)
    ∧ (0 ≤ 12 ≤ m → transform_labels (Scalar 12) (TArray a) = Ok (TScalar 0))
    ∧ (m < 12 → transform_labels (Scalar 12) (TArray a) = Raise IndexError).
Proof.
  apply (unmapped_label_lookup [11; 28] 12); [done|].
  intros H. repeat (apply elem_of_cons in H as [[=]|H]). by apply elem_of_nil in H.
Defined.

End RemapSpec.

(** ** Comparisons and maxima on rationals *)

Lemma Qltb_lt (x y : Q) : Qltb x y = true ↔ (x < y)%Q.
Proof.
  unfold Qltb. rewrite negb_true_iff. split.
  - intros H. apply Qnot_le_lt. intros Hle.
    apply Qle_bool_iff in Hle. congruence.
  - intros H. apply not_true_is_false. intros Hle.
    apply Qle_bool_iff in Hle. by apply Qlt_not_le in H.
Qed.

Lemma Qltb_ge (x y : Q) : Qltb x y = false ↔ (y <= x)%Q.
Proof.
  unfold Qltb. rewrite negb_false_iff. apply Qle_bool_iff.
Qed.

Lemma Qmaxb_cases (x y : Q) :
  ((x < y)%Q ∧ Qmaxb x y = y) ∨ ((y <= x)%Q ∧ Qmaxb x y = x).
Proof.
  unfold Qmaxb. destruct (Qltb x y) eqn:E.
  - left. by apply Qltb_lt in E.
  - right. by apply Qltb_ge in E.
Qed.

Lemma foldl_Qmaxb_spec (l : list Q) (x : Q) :
  foldl Qmaxb x l ∈ x :: l ∧ ∀ y, y ∈ x :: l → (y <= foldl Qmaxb x l)%Q.
Proof.
  revert x. induction l as [|z l IH]; intros x; simpl.
  - split; [left|]. intros y Hy. apply list_elem_of_singleton in Hy.
    subst. apply Qle_refl.
  - destruct (IH (Qmaxb x z)) as [Hin Hle].
    assert (x <= Qmaxb x z ∧ z <= Qmaxb x z)%Q as [Hx Hz].
    { destruct (Qmaxb_cases x z) as [[H ->]|[H ->]];
        auto using Qle_refl, Qlt_le_weak. }
    split.
    + apply elem_of_cons in Hin as [Heq|Hin]; [|by do 2 right].
      rewrite Heq. destruct (Qmaxb_cases x z) as [[_ ->]|[_ ->]];
        [right; left | left].
    + intros y Hy. apply elem_of_cons in Hy as [->|Hy].
      * eapply Qle_trans; [exact Hx|apply Hle; left].
      * apply elem_of_cons in Hy as [->|Hy].
        -- eapply Qle_trans; [exact Hz|apply Hle; left].
        -- apply Hle. by right.
Qed.

(** [np.max] returns an element of the array that bounds all of them. *)
Lemma np_max_spec (a : list Q) (m : Q) :
  np_max a = Ok m → m ∈ a ∧ ∀ y, y ∈ a → (y <= m)%Q.
Proof.
  destruct a as [|x a]; [done|]. intros [= <-]. apply foldl_Qmaxb_spec.
Qed.

(** A map that preserves the strict order commutes with [np.max]. *)
Lemma np_max_fmap (f : Q → Q) (a : list Q) (m : Q) :
  (∀ x y, Qltb (f x) (f y) = Qltb x y) →
  np_max a = Ok m → np_max (f <$> a) = Ok (f m).
Proof.
  intros Hf. destruct a as [|x a]; [done|]. intros [= <-]. simpl. f_equal.
  revert x. induction a as [|z a IH]; intros x; simpl; [done|].
  rewrite <- IH. f_equal. unfold Qmaxb. rewrite Hf. by destruct (Qltb x z).
Qed.

Lemma Qltb_div_pos (m x y : Q) :
  (0 < m)%Q → Qltb (x / m) (y / m) = Qltb x y.
Proof.
  intros Hm. unfold Qltb, Qdiv. f_equal.
  apply Qinv_lt_0_compat in Hm.
  destruct (Qle_bool y x) eqn:E.
  - apply Qle_bool_iff. apply Qmult_le_r; [done|]. by apply Qle_bool_iff.
  - apply not_true_is_false. intros H. apply Qle_bool_iff in H.
    apply Qmult_le_r in H; [|done]. apply Qle_bool_iff in H. congruence.
Qed.

(** ** Normalisation *)

Module NormaliseSpec.
Import Normalise.

(** C8. For a vector whose maximum [m] is strictly positive, min-max
    normalisation returns the vector divided entrywise by [m], prints
    nothing, and the maximum of the output is 1; for a vector whose
    maximum is at most 0 (the all-zero vector among them) it prints
    'Sample is empty' and returns nothing, without dividing and without
    raising. *)
Theorem normalise_minmax_spec (sample : list Q) (m : Q) :
  np_max sample = Ok m →
  (m ∈ sample ∧ ∀ x, x ∈ sample → (x <= m)%Q)
  ∧ ((0 < m)%Q →
       normalise_minmax sample = Ok (Some ((λ x, x / m)%Q <$> sample), [])
       ∧ ∃ m', np_max ((λ x, x / m)%Q <$> sample) = Ok m' ∧ (m' == 1)%Q)
  ∧ ((m <= 0)%Q →
       normalise_minmax sample = Ok (None, ["Sample is empty"%string]))
  ∧ normalise_minmax [0; 0; 0]%Q = Ok (None, ["Sample is empty"%string]).
Proof.
  intros Hm. split; [by apply np_max_spec|].
  unfold normalise_minmax. rewrite Hm. simpl.
  split; [|split; [|done]].
  - intros Hpos. apply Qltb_lt in Hpos as Hb. rewrite Hb. split; [done|].
    exists (m / m)%Q. split.
    + apply (np_max_fmap (λ x, x / m)%Q); [|done].
      intros x y. by apply Qltb_div_pos.
    + apply Qmult_inv_r. intros H0. rewrite H0 in Hpos.
      by apply Qlt_irrefl in Hpos.
  - intros Hle. apply Qltb_ge in Hle. by rewrite Hle.
Qed.

Lemma normalise_minmax_spec_witness :
  (4%Q ∈ [1; 4; 2]%Q ∧ ∀ x, x ∈ [1; 4; 2]%Q → (x <= 4)%Q)
  ∧ ((0 < 4)%Q →
       normalise_minmax [1; 4; 2]%Q
       = Ok (Some ((λ x, x / 4)%Q <$> [1; 4; 2]%Q), [])
       ∧ ∃ m', np_max ((λ x, x / 4)%Q <$> [1; 4; 2]%Q) = Ok m' ∧ (m' == 1)%Q)
  ∧ ((4 <= 0)%Q →
       normalise_minmax [1; 4; 2]%Q = Ok (None, ["Sample is empty"%string]))
  ∧ normalise_minmax [0; 0; 0]%Q = Ok (None, ["Sample is empty"%string]).
Proof. apply (normalise_minmax_spec [1; 4; 2]%Q 4%Q). reflexivity. Defined.

End NormaliseSpec.

(** ** Baseline correction *)

Module BaselineSpec.
Import Baseline.

Lemma weight_cases (p yi zi : Q) :
  let wi := (p * b2q (Qltb zi yi) + (1 - p) * b2q (Qltb yi zi))%Q in
  ((zi < yi)%Q → (wi == p)%Q)
  ∧ ((yi < zi)%Q → (wi == 1 - p)%Q)
  ∧ ((yi == zi)%Q → (wi == 0)%Q).
Proof.
  simpl. split; [|split].
  - intros H. rewrite (proj2 (Qltb_lt zi yi) H).
    rewrite (proj2 (Qltb_ge yi zi) (Qlt_le_weak _ _ H)). simpl. ring.
  - intros H. rewrite (proj2 (Qltb_lt yi zi) H).
    rewrite (proj2 (Qltb_ge zi yi) (Qlt_le_weak _ _ H)). simpl. ring.
  - intros H.
    assert (Qltb zi yi = false) as ->.
    { apply Qltb_ge. rewrite H. apply Qle_refl. }
    assert (Qltb yi zi = false) as ->.
    { apply Qltb_ge. rewrite H. apply Qle_refl. }
    simpl. ring.
Qed.

Lemma weight_in_set (p yi zi : Q) :
  let wi := (p * b2q (Qltb zi yi) + (1 - p) * b2q (Qltb yi zi))%Q in
  (wi == 0)%Q ∨ (wi == p)%Q ∨ (wi == 1 - p)%Q.
Proof.
  destruct (weight_cases p yi zi) as (Habove & Hbelow & Heq).
  destruct (Q_dec yi zi) as [[Hlt|Hgt]|He]; auto.
Qed.

Lemma reweight_lookup (p : Q) (y z : list Q) (i : nat) (yi zi : Q) :
  y !! i = Some yi → z !! i = Some zi →
  reweight p y z !! i
  = Some (p * b2q (Qltb zi yi) + (1 - p) * b2q (Qltb yi zi))%Q.
Proof.
  intros Hy Hz. unfold reweight. rewrite lookup_zip_with, Hy. simpl.
  by rewrite Hz.
Qed.

Lemma reweight_Forall (p : Q) (y z : list Q) :
  Forall (λ wi, (wi == 0)%Q ∨ (wi == p)%Q ∨ (wi == 1 - p)%Q) (reweight p y z).
Proof.
  apply Forall_lookup. intros i wi Hi. unfold reweight in Hi.
  apply lookup_zip_with_Some in Hi as (yi & zi & -> & _ & _).
  apply weight_in_set.
Qed.

Section ALS.
Variable spsolve : matrix → list Q → list Q.

(** The last iteration of the loop fits a baseline and derives the
    weights from it. *)
Lemma als_loop_last (D : matrix) (y : list Q) (p : Q) (k : nat)
    (w0 : list Q) (z0 : option (list Q)) :
  ∃ z, (als_loop spsolve D y p (S k) w0 z0).2 = Some z
       ∧ (als_loop spsolve D y p (S k) w0 z0).1 = reweight p y z.
Proof.
  revert w0 z0. induction k as [|k IH]; intros w0 z0.
  - simpl. eauto.
  - change (als_loop spsolve D y p (S (S k)) w0 z0)
      with (als_loop spsolve D y p (S k)
              (reweight p y (spsolve (madd (spdiags w0 (length y)) D)
                                     (zip_with Qmult w0 y)))
              (Some (spsolve (madd (spdiags w0 (length y)) D)
                             (zip_with Qmult w0 y)))).
    apply IH.
Qed.

(** One more round of the loop is one more fit, from the weights of the
    rounds before it, and one more reweighting. *)
Lemma als_loop_snoc (D : matrix) (y : list Q) (p : Q) (k : nat)
    (w0 : list Q) (z0 : option (list Q)) :
  als_loop spsolve D y p (S k) w0 z0
  = let wk := (als_loop spsolve D y p k w0 z0).1 in
    let z := spsolve (madd (spdiags wk (length y)) D) (zip_with Qmult wk y) in
    (reweight p y z, Some z).
Proof.
  revert w0 z0. induction k as [|k IH]; intros w0 z0; [done|].
  change (als_loop spsolve D y p (S (S k)) w0 z0)
    with (als_loop spsolve D y p (S k)
            (reweight p y (spsolve (madd (spdiags w0 (length y)) D)
                                   (zip_with Qmult w0 y)))
            (Some (spsolve (madd (spdiags w0 (length y)) D)
                           (zip_with Qmult w0 y)))).
  by rewrite IH.
Qed.

(** With a solver that returns one value per equation, the weights keep
    the length of the signal. *)
Lemma als_loop_length (D : matrix) (y : list Q) (p : Q) (k : nat)
    (w0 : list Q) (z0 : option (list Q)) :
  (∀ M b, length (spsolve M b) = length b) →
  length w0 = length y →
  length (als_loop spsolve D y p k w0 z0).1 = length y.
Proof.
  intros Hsolve. revert w0 z0. induction k as [|k IH]; intros w0 z0 Hw0.
  - done.
  - cbn [als_loop]. apply IH. unfold reweight.
    rewrite length_zip_with, Hsolve, length_zip_with. lia.
Qed.

(** C10. After every reweighting iteration (after [k+1] rounds of the
    loop, from starting weights that have one entry per signal point,
    with a solver that returns one value per equation): the baseline [z]
    is the one fitted in that round from the weights of the round
    before, it has one value per signal point, and so have the weights;
    at every signal point the weight is [p] if the signal lies strictly
    above [z], [1-p] if strictly below, and [0] if equal, so every weight
    is one of [0], [p], [1-p]. *)
Theorem reweight_trichotomy (D : matrix) (y : list Q) (p : Q) (k : nat)
    (w0 : list Q) (z0 : option (list Q)) :
  (∀ M b, length (spsolve M b) = length b) →
  length w0 = length y →
  ∃ z w,
    als_loop spsolve D y p (S k) w0 z0 = (w, Some z)
    ∧ z = (let wk := (als_loop spsolve D y p k w0 z0).1 in
           spsolve (madd (spdiags wk (length y)) D) (zip_with Qmult wk y))
    ∧ length z = length y
    ∧ length w = length y
    ∧ (∀ i yi, y !! i = Some yi →
         ∃ zi wi, z !! i = Some zi ∧ w !! i = Some wi
                  ∧ ((zi < yi)%Q → (wi == p)%Q)
                  ∧ ((yi < zi)%Q → (wi == 1 - p)%Q)
                  ∧ ((yi == zi)%Q → (wi == 0)%Q))
    ∧ (∀ i yi zi, y !! i = Some yi ∧ z !! i = Some zi →
         ∃ wi, w !! i = Some wi
               ∧ ((zi < yi)%Q → (wi == p)%Q)
               ∧ ((yi < zi)%Q → (wi == 1 - p)%Q)
               ∧ ((yi == zi)%Q → (wi == 0)%Q))
    ∧ Forall (λ wi, (wi == 0)%Q ∨ (wi == p)%Q ∨ (wi == 1 - p)%Q) w.
Proof.
  intros Hsolve Hw0. rewrite als_loop_snoc. cbn zeta.
  pose proof (als_loop_length D y p k w0 z0 Hsolve Hw0) as Hwk.
  set (wk := (als_loop spsolve D y p k w0 z0).1) in *.
  set (z := spsolve (madd (spdiags wk (length y)) D) (zip_with Qmult wk y)).
  assert (length z = length y) as Hz.
  { unfold z. rewrite Hsolve, length_zip_with. lia. }
  exists z, (reweight p y z). split_and!; try done.
  - unfold reweight. rewrite length_zip_with. lia.
  - intros i yi Hy.
    destruct (lookup_lt_is_Some_2 z i) as [zi Hzi].
    { rewrite Hz. by eapply lookup_lt_Some. }
    eexists zi, _. split; [done|]. split; [by apply reweight_lookup|].
    apply weight_cases.
  - intros i yi zi [Hy Hzi]. eexists. split; [by apply reweight_lookup|].
    apply weight_cases.
  - apply reweight_Forall.
Qed.

(** With at least two points and at least one iteration the function
    returns, and it warns exactly when the maximum over both columns of
    the input is negative. *)
Lemma baseline_als_optimized_returns (y : list (Q * Q)) (lam p : Q)
    (niter : Z) (m : Q) :
  np_max (mjoin ((λ r, [r.1; r.2]) <$> y)) = Ok m →
  (2 ≤ length y)%nat → 0 < niter →
  ∃ out, baseline_als_optimized spsolve y lam p niter
         = Ok (out, if Qltb m 0 then [warning_text] else []).
Proof.
  intros Hm Hlen Hn. unfold baseline_als_optimized. rewrite Hm. simpl.
  rewrite decide_False by (rewrite !length_fmap; lia).
  destruct (Z.to_nat niter) as [|k] eqn:Ek; [lia|].
  match goal with
  | |- context [als_loop spsolve ?D ?y ?p (S k) ?w ?z] =>
      destruct (als_loop_last D y p k w z) as (zz & Hz & _);
      destruct (als_loop spsolve D y p (S k) w z) as [w' z']
  end.
  simpl in Hz. subst z'. eauto.
Qed.

(** C3 at an all-zero intensity signal: no intensity is positive, yet the
    function returns without any warning.  The guard takes the maximum
    over the wavelength column as well and asks for it to be strictly
    negative. *)
Lemma all_zero_signal_no_warning :
  let y := [(180, 0); (1801 # 10, 0); (1802 # 10, 0)]%Q in
  Forall (λ r, ¬ (0 < r.2)%Q) y
  ∧ ∃ out, baseline_als_optimized spsolve y 102 (1 # 10) 10 = Ok (out, []).
Proof.
  split.
  - repeat constructor; by intros ?.
  - apply (baseline_als_optimized_returns _ _ _ _ (1802 # 10)%Q);
      [done | simpl; lia | done].
Qed.

(** Even without the wavelength column in the way, an all-zero array has
    maximum 0, which is not below 0. *)
Lemma all_zero_array_no_warning :
  ∃ out, baseline_als_optimized spsolve [(0, 0); (0, 0); (0, 0)]%Q
           102 (1 # 10) 10 = Ok (out, []).
Proof.
  apply (baseline_als_optimized_returns _ _ _ _ 0%Q);
    [done | simpl; lia | done].
Qed.
End ALS.

Lemma reweight_trichotomy_witness :
  ∃ z w,
    als_loop (λ _ b, b) [] [1; 2]%Q (1 # 10) 1 [1; 1]%Q None = (w, Some z)
    ∧ length z = 2%nat
    ∧ length w = 2%nat
    ∧ Forall (λ wi, (wi == 0)%Q ∨ (wi == 1 # 10)%Q ∨ (wi == 1 - (1 # 10))%Q) w.
Proof.
  destruct (reweight_trichotomy (λ _ b, b) [] [1; 2]%Q (1 # 10) 0
              [1; 1]%Q None)
    as (z & w & Hrun & _ & Hz & Hw & _ & _ & Hset); [done|done|].
  by exists z, w.
Defined.

End BaselineSpec.

(** ** Class weights *)

Module WeightsSpec.
Import Remap RemapFacts Weights.

Lemma StronglySorted_lt_le (l : list Z) :
  StronglySorted Z.lt l → StronglySorted Z.le l.
Proof.
  induction 1 as [|x l Hs IH Hx]; constructor; [done|].
  eapply Forall_impl; [exact Hx|]. intros y Hy. simpl in Hy. lia.
Qed.

Lemma sorted_keys_trans_dict (labels : list Z) :
  sorted_keys (dict_comprehension (enumerate (np_unique labels)))
  = np_unique labels.
Proof.
  unfold sorted_keys.
  apply (Sorted_unique Z.le).
  - apply Sorted_merge_sort; apply _.
  - apply StronglySorted_Sorted, StronglySorted_lt_le, np_unique_sorted.
  - rewrite merge_sort_Permutation. apply NoDup_Permutation.
    + apply NoDup_elements.
    + apply np_unique_NoDup.
    + intros x. rewrite elem_of_elements, elem_of_dom. split.
      * intros [i Hi]. apply trans_dict_lookup in Hi.
        by eapply list_elem_of_lookup_2.
      * intros Hx. apply list_elem_of_lookup in Hx as [i Hi].
        exists i. by apply trans_dict_lookup.
Qed.

Lemma enumerate_dict_lookup (ws : list Q) (i : nat) :
  enumerate_dict ws !! i = ws !! i.
Proof.
  revert i. induction ws as [|w ws IH] using rev_ind; intros i.
  - unfold enumerate_dict. simpl. by rewrite lookup_empty.
  - unfold enumerate_dict, enumerate in *.
    rewrite imap_app, foldl_app. simpl. rewrite Nat.add_0_r.
    destruct (decide (i = length ws)) as [->|Hne].
    + rewrite lookup_insert_eq. by rewrite list_lookup_middle.
    + rewrite lookup_insert_ne by done. rewrite IH.
      destruct (decide (i < length ws)%nat).
      * by rewrite lookup_app_l.
      * rewrite !lookup_ge_None_2; [done| |lia].
        rewrite length_app. simpl. lia.
Qed.

Lemma count_occ_Z_pos (c : Z) (y : list Z) :
  c ∈ y → count_occ_Z c y ≠ 0%nat.
Proof.
  intros Hc. unfold count_occ_Z.
  assert (c ∈ filter (λ x, x = c) y) as Hin by by apply list_elem_of_filter.
  destruct (filter (λ x, x = c) y); [by apply elem_of_nil in Hin|done].
Qed.

Lemma compute_class_weight_balanced_unique (y : list Z) :
  compute_class_weight_balanced (np_unique y) y
  = Ok (balanced_weight y <$> np_unique y).
Proof.
  unfold compute_class_weight_balanced. rewrite decide_True.
  - apply traverse_ok. intros c Hc. simpl.
    rewrite decide_False; [done|].
    by apply count_occ_Z_pos, elem_of_np_unique.
  - apply Forall_forall. intros x Hx. by apply elem_of_np_unique.
Qed.

(** C7. For every list of training labels (every class of which has at
    least one sample, the classes being the labels that occur), the
    weights are keyed by exactly the contiguous indices 0..N-1, and the
    weight at index [i] is total_samples / (num_classes × count(c)) for
    the [i]-th smallest class [c], whose count is positive.  For
    [[0;0;0;1;1;1;1]] the weights are 7/6 and 7/8. *)
Theorem class_weights_balanced (train_labels : list Z) :
  let u := np_unique train_labels in
  ∃ info,
    prepare_dataset train_labels = Ok info
    ∧ num_classes info = length u
    ∧ classes_orig info = u
    ∧ (∀ i, is_Some (class_weights info !! i) ↔ (i < num_classes info)%nat)
    ∧ (∀ i c, u !! i = Some c →
         (0 < count_occ_Z c train_labels)%nat
         ∧ class_weights info !! i
           = Some (inject_Z (Z.of_nat (length train_labels))
                   / (inject_Z (Z.of_nat (num_classes info))
                      * inject_Z (Z.of_nat (count_occ_Z c train_labels))))%Q)
    ∧ (∃ info', prepare_dataset [0; 0; 0; 1; 1; 1; 1] = Ok info'
                ∧ class_weights info' !! 0%nat = Some (7 # 6)%Q
                ∧ class_weights info' !! 1%nat = Some (7 # 8)%Q).
Proof.
  intros u. unfold prepare_dataset. simpl.
  rewrite sorted_keys_trans_dict, compute_class_weight_balanced_unique.
  simpl. eexists. split; [done|]. simpl.
  split; [done|]. split; [done|]. split; [|split].
  - intros i. rewrite enumerate_dict_lookup, lookup_lt_is_Some.
    by rewrite length_fmap.
  - intros i c Hi. split.
    + assert (count_occ_Z c train_labels ≠ 0%nat); [|lia].
      apply count_occ_Z_pos, elem_of_np_unique.
      by eapply list_elem_of_lookup_2.
    + rewrite enumerate_dict_lookup, list_lookup_fmap. fold u.
      by rewrite Hi.
  - eexists. split; [reflexivity|]. split; reflexivity.
Qed.

End WeightsSpec.

(** ** Grid reconstruction *)

Module GridSpec.
Import Grid.

Section Sep.
Variable sep : ascii.

(** The look-ahead takes the longest prefix of [rest] whose keys are
    [key], and advances [i] by its length. *)
Lemma look_ahead_spec (key : string * string) (rest split : list string)
    (i : nat) :
  (∀ f, f ∈ rest → ∃ k, mp_key sep f = Ok k) →
  ∃ pre post,
    rest = pre ++ post
    ∧ look_ahead sep key rest split i = Ok (split ++ pre, (i + length pre)%nat)
    ∧ Forall (λ f, mp_key sep f = Ok key) pre
    ∧ (∀ f, head post = Some f → mp_key sep f ≠ Ok key).
Proof.
  revert split i. induction rest as [|fj rest IH]; intros split i Hok.
  - exists [], []. simpl. rewrite app_nil_r, Nat.add_0_r.
    repeat split; [constructor|done].
  - destruct (Hok fj) as [kj Hkj]; [left|].
    simpl. rewrite Hkj. simpl. case_decide as Hd.
    + destruct (IH (split ++ [fj]) (S i)) as (pre & post & -> & Hla & Hpre & Hpost).
      { intros f Hf. apply Hok. by right. }
      exists (fj :: pre), post. split; [done|]. split.
      * rewrite Hla. f_equal. f_equal; [by rewrite <- app_assoc|simpl; lia].
      * split; [|done]. constructor; [|done]. rewrite Hkj. f_equal.
        destruct key, kj. simpl in Hd. destruct Hd. by subst.
    + exists [], (fj :: rest). simpl. rewrite app_nil_r, Nat.add_0_r.
      repeat split; [constructor|].
      intros f [= <-]. rewrite Hkj. intros [= <-]. by apply Hd.
Qed.

(** With enough fuel the while loop returns the runs of the files from
    position [i] on, appended to the groups it started with. *)
Lemma group_loop_spec (files : list string) (fuel i : nat)
    (mps : list (list string)) :
  (∀ f, f ∈ files → ∃ k, mp_key sep f = Ok k) →
  (length files - i ≤ fuel)%nat →
  ∃ gs, group_loop sep fuel files i mps = Some (Ok (mps ++ gs))
        ∧ concat gs = drop i files
        ∧ runs sep gs.
Proof.
  intros Hok. revert i mps.
  induction fuel as [|fuel IH]; intros i mps Hfuel.
  - exists []. simpl. rewrite decide_False by lia. rewrite app_nil_r.
    split; [done|]. split; [|constructor].
    by rewrite drop_ge by lia.
  - simpl. case_decide as Hi.
    2:{ exists []. rewrite app_nil_r. split; [done|].
        split; [|constructor]. by rewrite drop_ge by lia. }
    destruct (lookup_lt_is_Some_2 files i Hi) as [fi Hfi]. rewrite Hfi.
    destruct (Hok fi) as [key Hkey]; [by eapply list_elem_of_lookup_2|].
    rewrite Hkey. simpl.
    destruct (look_ahead_spec key (drop i files) [] i)
      as (pre & post & Hsplit & Hla & Hpre & Hpost).
    { intros f Hf. apply Hok. by eapply subseteq_drop. }
    rewrite Hla. simpl.
    (* the first file of the look-ahead is [files[i]] itself *)
    assert (pre ≠ []) as Hne.
    { intros ->. simpl in Hsplit.
      assert (head post = Some fi) as Hh.
      { rewrite <- Hsplit. by rewrite head_lookup, lookup_drop, Nat.add_0_r. }
      by apply Hpost in Hh. }
    assert (drop (i + length pre) files = post) as Hdrop.
    { rewrite <- drop_drop, Hsplit.
      by rewrite drop_app_length. }
    assert (i + length pre ≤ length files)%nat as Hle.
    { assert (length (drop i files) = length (pre ++ post)) as Hl
        by by rewrite Hsplit.
      rewrite length_drop, length_app in Hl. lia. }
    destruct (IH (i + length pre)%nat (mps ++ [pre])) as (gs & Hgl & Hcat & Hruns).
    { destruct pre; [done|]. simpl. lia. }
    exists (pre :: gs). split; [by rewrite Hgl, <- app_assoc|].
    split; [simpl; by rewrite Hcat, Hdrop|].
    econstructor; [done|exact Hpre| |done].
    intros f. rewrite Hcat, Hdrop. apply Hpost.
Qed.
End Sep.


(** Writing the three cells of row [i] replaces the row. *)
Lemma set_cells_row (pre post : list (list Z)) (row : list Z) (a b c : Z) :
  length row = 3%nat →
  (tm ← set_cell (pre ++ row :: post) (length pre) 0 a ;
   tm ← set_cell tm (length pre) 1 b ;
   set_cell tm (length pre) 2 c)
  = Ok (pre ++ [a; b; c] :: post).
Proof.
  intros Hrow. destruct row as [|x [|y [|z [|? ?]]]]; try done.
  unfold set_cell. rewrite list_lookup_middle by done. simpl.
  rewrite list_lookup_insert_eq by (rewrite length_app; simpl; lia). simpl.
  rewrite list_lookup_insert_eq
    by (rewrite length_insert, length_app; simpl; lia). simpl.
  rewrite !list_insert_insert_eq.
  replace (length pre) with (length pre + 0)%nat at 1 by lia.
  by rewrite insert_app_r.
Qed.

Lemma fill_samples_spec (g : list string) (j : Z)
    (pre mid post : list (list Z)) :
  (∀ f, f ∈ g → ∃ s, shot_index f = Ok s) →
  length mid = length g →
  Forall (λ row, length row = 3%nat) mid →
  fill_samples g j (length pre) (pre ++ mid ++ post)
  = Ok ((length pre + length g)%nat, pre ++ group_rows j g ++ post).
Proof.
  revert pre mid. induction g as [|f g IH]; intros pre mid Hok Hlen Hmid.
  - destruct mid; [|done]. simpl. by rewrite Nat.add_0_r.
  - destruct mid as [|row mid]; [done|].
    apply Forall_cons in Hmid as [Hrow Hmid].
    destruct (Hok f) as [s Hs]; [left|].
    cbn [fill_samples]. rewrite Hs.
    change (Ok s ≫= _) with
      (tm ← set_cell (pre ++ row :: mid ++ post) (length pre) 0 j ;
       tm ← set_cell tm (length pre) 1 (s `div` 8) ;
       tm ← set_cell tm (length pre) 2 (s `mod` 8) ;
       fill_samples g j (S (length pre)) tm).
    pose proof (set_cells_row pre (mid ++ post) row j (s `div` 8) (s `mod` 8) Hrow)
      as Hset.
    destruct (set_cell (pre ++ row :: mid ++ post) (length pre) 0 j)
      as [tm1|] eqn:E1; [|done]. simpl in *.
    destruct (set_cell tm1 (length pre) 1 (s `div` 8))
      as [tm2|] eqn:E2; [|done]. simpl in *.
    rewrite Hset.
    replace (S (length pre)) with (length (pre ++ [[j; s `div` 8; s `mod` 8]]))
      by (rewrite length_app; simpl; lia).
    replace (pre ++ [j; s `div` 8; s `mod` 8] :: mid ++ post)
      with ((pre ++ [[j; s `div` 8; s `mod` 8]]) ++ mid ++ post)
      by by rewrite <- app_assoc.
    unfold mbind, result_bind.
    rewrite IH; [| |by simplify_eq/=|done].
    + rewrite length_app. simpl. rewrite Hs.
      f_equal. f_equal; [lia|by rewrite <- app_assoc].
    + intros f' Hf'. apply Hok. by right.
Qed.

Lemma fill_points_spec (gs : list (list string)) (j : Z)
    (pre mid post : list (list Z)) :
  (∀ f, f ∈ concat gs → ∃ s, shot_index f = Ok s) →
  length mid = length (concat gs) →
  Forall (λ row, length row = 3%nat) mid →
  fill_points gs j (length pre) (pre ++ mid ++ post)
  = Ok (pre ++ all_rows j gs ++ post).
Proof.
  revert j pre mid. induction gs as [|g gs IH]; intros j pre mid Hok Hlen Hmid.
  - destruct mid; [|done]. done.
  - simpl in *. rewrite length_app in Hlen.
    rewrite <- (take_drop (length g) mid), <- app_assoc.
    rewrite <- (take_drop (length g) mid) in Hmid.
    apply Forall_app in Hmid as [Hmid1 Hmid2].
    rewrite fill_samples_spec; [| |rewrite length_take; lia|done].
    2:{ intros f Hf. apply Hok. apply elem_of_app. by left. }
    simpl.
    replace (length pre + length g)%nat with (length (pre ++ group_rows j g))
      by (unfold group_rows; by rewrite length_app, length_fmap).
    rewrite (app_assoc pre), IH; [by rewrite <- !app_assoc| | |done].
    + intros f Hf. apply Hok. apply elem_of_app. by right.
    + rewrite length_drop. lia.
Qed.


(** The row written for file [f] of the run with index [mp]. *)
Lemma all_rows_zip (gs : list (list string)) (j : Z) :
  all_rows j gs
  = zip_with (λ mp f, match shot_index f with
                      | Ok s => [mp; s `div` 8; s `mod` 8]
                      | Raise _ => [mp; 0; 0]
                      end) (group_ids j gs) (concat gs).
Proof.
  revert j. induction gs as [|g gs IH]; intros j; [done|].
  simpl. rewrite zip_with_app by by rewrite length_replicate.
  rewrite IH. f_equal. unfold group_rows.
  by rewrite zip_with_replicate_l.
Qed.

Lemma length_group_ids (gs : list (list string)) (j : Z) :
  length (group_ids j gs) = length (concat gs).
Proof.
  revert j. induction gs as [|g gs IH]; intros j; [done|].
  simpl. by rewrite !length_app, length_replicate, IH.
Qed.

Section Runs.
Variable sep : ascii.

Lemma run_index_from_same (key : string * string) (j : Z)
    (g : list string) (ks : list (result (string * string))) :
  Forall (λ f, mp_key sep f = Ok key) g →
  run_index_from (Ok key) j ((mp_key sep <$> g) ++ ks)
  = replicate (length g) j ++ run_index_from (Ok key) j ks.
Proof.
  induction 1 as [|f g Hf Hg IH]; [done|].
  csimpl. rewrite Hf, decide_True by done. by rewrite IH.
Qed.

Lemma run_index_from_runs (gs : list (list string))
    (prev : result (string * string)) (j : Z) :
  runs sep gs →
  (∀ f, head (concat gs) = Some f → mp_key sep f ≠ prev) →
  run_index_from prev j (mp_key sep <$> concat gs) = group_ids (j + 1) gs.
Proof.
  intros Hruns. revert prev j.
  induction Hruns as [|key g gs Hne Hkey Hnext Hruns IH]; intros prev j Hprev;
    [done|].
  destruct g as [|f g]; [done|]. apply Forall_cons in Hkey as [Hf Hg].
  csimpl. rewrite fmap_app, Hf. rewrite decide_False.
  2:{ rewrite <- Hf. by apply Hprev. }
  rewrite run_index_from_same by done. by rewrite IH.
Qed.

Lemma group_ids_run_indices (gs : list (list string)) :
  runs sep gs → group_ids 0 gs = run_indices (mp_key sep <$> concat gs).
Proof.
  destruct 1 as [|key g gs Hne Hkey Hnext Hruns]; [done|].
  destruct g as [|f g]; [done|]. apply Forall_cons in Hkey as [Hf Hg].
  csimpl. rewrite fmap_app, Hf, run_index_from_same by done.
  by rewrite run_index_from_runs.
Qed.
End Runs.



Lemma length_run_indices {K} `{EqDecision K} (keys : list K) :
  length (run_indices keys) = length keys.
Proof.
  destruct keys as [|k0 keys]; [done|]. simpl. f_equal.
  generalize k0 0. induction keys as [|k keys IH]; intros prev j; [done|].
  simpl. f_equal. apply IH.
Qed.

Lemma run_indices_first {K} `{EqDecision K} (keys : list K) (a : Z) :
  run_indices keys !! 0%nat = Some a → a = 0.
Proof. destruct keys; [done|]. by intros [= <-]. Qed.

End GridSpec.

Module GridTheorem.
Import Grid GridSpec.

Lemma transition_matrix_eq (sep : ascii) (files : list string) :
  (∀ f, f ∈ files → ∃ key s,
      mp_key sep f = Ok key ∧ shot_number f = Ok s) →
  get_64shot_transition_matrix sep files
  = Some (Ok (zip_with (λ mp f, match shot_index f with
                                | Ok s => [mp; s `div` 8; s `mod` 8]
                                | Raise _ => [mp; 0; 0]
                                end)
                       (run_indices (mp_key sep <$> files)) files)).
Proof.
  intros Hok. unfold get_64shot_transition_matrix.
  destruct (group_loop_spec sep files (length files) 0 [])
    as (gs & Hgl & Hcat & Hruns); [|lia|].
  { intros f Hf. destruct (Hok f Hf) as (k & _ & Hk & _). eauto. }
  rewrite Hgl. simpl in Hcat. simpl. f_equal.
  pose proof (fill_points_spec gs 0 [] (replicate (length files) [0; 0; 0]) [])
    as Hfill.
  rewrite app_nil_r in Hfill. simpl in Hfill. rewrite Hfill.
  - rewrite app_nil_r, all_rows_zip, (group_ids_run_indices sep) by done.
    by rewrite Hcat.
  - intros f Hf. rewrite Hcat in Hf.
    destruct (Hok f Hf) as (_ & s & _ & Hs).
    exists (s - 1). unfold shot_index. by rewrite Hs.
  - by rewrite length_replicate, Hcat.
  - by apply Forall_replicate.
Qed.



End GridTheorem.

(** ** Batch generation *)

Module GeneratorFacts.
Import Generator.

Lemma next_n_add {F Sample Label Rng : Type} (zs : Sample) (zl : Label)
    (load_row : F → result (Label * Sample))
    (shuffle : Rng → list F → list F * Rng) (batch_size : nat) (sr : bool)
    (a b : nat) (st : gen_state) (w : world) :
  next_n zs zl load_row shuffle batch_size sr (a + b) st w
  = let '(rs, st', w') := next_n zs zl load_row shuffle batch_size sr a st w in
    let '(rs', st'', w'') :=
      next_n zs zl load_row shuffle batch_size sr b st' w' in
    (rs ++ rs', st'', w'').
Proof.
  revert st w. induction a as [|a IH]; intros st w; simpl.
  - by destruct (next_n _ _ _ _ _ _ b st w) as [[??]?].
  - destruct (next _ _ _ _ _ _ st w) as [[r st1] w1]. rewrite IH.
    destruct (next_n _ _ _ _ _ _ a st1 w1) as [[rs st2] w2].
    by destruct (next_n _ _ _ _ _ _ b st2 w2) as [[??]?].
Qed.

Lemma insert_fill {A} (l : list A) (n m : nat) (z x : A) :
  length l = n →
  <[n := x]> (l ++ replicate (S m) z) = (l ++ [x]) ++ replicate m z.
Proof.
  intros <-. rewrite insert_app_r_alt, Nat.sub_diag by done. simpl.
  by rewrite <- app_assoc.
Qed.

Lemma next_n_S {F Sample Label Rng : Type} (zs : Sample) (zl : Label)
    (load_row : F → result (Label * Sample))
    (shuffle : Rng → list F → list F * Rng) (batch_size : nat) (sr : bool)
    (k : nat) (st : gen_state) (w : world) :
  next_n zs zl load_row shuffle batch_size sr (S k) st w
  = let '(r, st', w') := next zs zl load_row shuffle batch_size sr st w in
    let '(rs, st'', w'') :=
      next_n zs zl load_row shuffle batch_size sr k st' w' in
    (r :: rs, st'', w'').
Proof. done. Qed.

Section Gen.
Context {F Sample Label Rng : Type}.
Variable zero_sample : Sample.
Variable zero_label : Label.
Variable load_row : F → result (Label * Sample).
Variable shuffle : Rng → list F → list F * Rng.
Variable batch_size : nat.

(** The rows that the files load into. *)
Variable row : F → Label * Sample.
Variable fs : list F.
Hypothesis load_ok : ∀ f, f ∈ fs → load_row f = Ok (row f).

Local Abbreviation smp := (λ f, (row f).2).
Local Abbreviation lab := (λ f, (row f).1).

Lemma load_into_ok (cur : list F) (j i : nat) (r : bool) (f : F)
    (b : batch) (w : @world F Rng) :
  cur !! i = Some f → f ∈ fs →
  load_into load_row j {| i := i; run := r; files := cur |} b w
  = (Ok ({| i := S i; run := r; files := cur |},
         {| samples := <[j := smp f]> (samples b);
            labels := <[j := lab f]> (labels b) |}),
     {| rng := rng w; trace := trace w ++ [EvLoad f] |}).
Proof.
  intros Hf Hin. unfold load_into. simpl. by rewrite Hf, (load_ok f Hin).
Qed.

(** *** Single-pass mode *)

(** One run of the [for] loop in single-pass mode, over the last [m]
    rows of a batch whose first rows are filled: it loads up to [m]
    files from the cursor on, and cuts the batch short when the files
    run out first. *)
Lemma for_j_single (m j0 i : nat) (ss : list Sample) (ls : list Label)
    (w : @world F Rng) :
  length ss = j0 → length ls = j0 → (i ≤ length fs)%nat →
  for_j load_row shuffle false (seq j0 m)
    {| i := i; run := true; files := fs |}
    {| samples := ss ++ replicate m zero_sample;
       labels := ls ++ replicate m zero_label |} w
  = (Ok ({| i := i + length (take m (drop i fs));
            run := bool_decide (m ≤ length fs - i)%nat; files := fs |},
         {| samples := ss ++ (smp <$> take m (drop i fs));
            labels := ls ++ (lab <$> take m (drop i fs)) |}),
     {| rng := rng w;
        trace := trace w ++ (EvLoad <$> take m (drop i fs)) |}).
Proof.
  revert j0 i ss ls w.
  induction m as [|m IH]; intros j0 i ss ls [g t] Hss Hls Hi.
  - simpl. rewrite !app_nil_r, Nat.add_0_r. done.
  - cbn [seq for_j files Generator.i]. case_bool_decide as Hex.
    + (* the files are exhausted: [run = False] and the batch is cut *)
      rewrite drop_ge by done. simpl.
      rewrite !take_app_length' by done.
      rewrite !app_nil_r, Nat.add_0_r.
      rewrite bool_decide_eq_false_2 by lia. done.
    + destruct (lookup_lt_is_Some_2 fs i) as [f Hf]; [lia|].
      assert (f ∈ fs) as Hin by by eapply list_elem_of_lookup_2.
      rewrite (load_into_ok fs j0 i true f _ _ Hf Hin).
      cbn [samples labels rng trace].
      rewrite (insert_fill ss j0), (insert_fill ls j0) by done.
      rewrite IH by (rewrite ?length_app; simpl; lia).
      rewrite (drop_S fs f i Hf). cbn [take fmap list_fmap length].
      rewrite <- !app_assoc. cbn [app rng trace].
      rewrite <- (app_assoc t). do 3 f_equal.
      f_equal; [lia | apply bool_decide_ext; lia].
Qed.

Lemma while_run_single (i : nat) (w : @world F Rng) :
  (i ≤ length fs)%nat →
  while_run zero_sample zero_label load_row shuffle batch_size false
    {| i := i; run := true; files := fs |} w
  = (Ok (batch_of row (take batch_size (drop i fs))),
     Suspended {| i := i + length (take batch_size (drop i fs));
                  run := bool_decide (batch_size ≤ length fs - i)%nat;
                  files := fs |},
     {| rng := rng w;
        trace := trace w ++ (EvLoad <$> take batch_size (drop i fs)) |}).
Proof.
  intros Hi. unfold while_run. cbn [run].
  pose proof (for_j_single batch_size 0 i [] [] w eq_refl eq_refl Hi) as Hfor.
  simpl in Hfor. simpl. by rewrite Hfor.
Qed.

Lemma chunks_S {A} (b i r : nat) (l : list A) :
  chunks b i (S r) l = take b (drop i l) :: chunks b (i + b) r l.
Proof.
  unfold chunks. rewrite <- cons_seq, fmap_cons.
  rewrite Nat.mul_0_l, Nat.add_0_r. f_equal.
  rewrite <- (fmap_S_seq 0), <- list_fmap_compose.
  apply list_fmap_ext. intros _ t _. simpl. do 2 f_equal. lia.
Qed.

Lemma concat_chunks (r i : nat) :
  (i + r * batch_size ≤ length fs)%nat →
  (length fs - (i + r * batch_size) < batch_size)%nat →
  concat (chunks batch_size i r fs) = drop i fs.
Proof.
  revert i. induction r as [|r IH]; intros i Hle Hlt.
  - unfold chunks. simpl. rewrite app_nil_r, Nat.add_0_r.
    apply take_ge. rewrite length_drop. lia.
  - rewrite chunks_S. cbn [concat].
    rewrite (IH (i + batch_size)%nat) by lia.
    rewrite <- drop_drop. apply take_drop.
Qed.

(** From a suspended single-pass generator with [r] full batches left
    and less than a batch after them, [r+1] calls yield these batches
    and leave the generator with [run = False]. *)
Lemma next_n_single (r i : nat) (w : @world F Rng) :
  (i + r * batch_size ≤ length fs)%nat →
  (length fs - (i + r * batch_size) < batch_size)%nat →
  next_n zero_sample zero_label load_row shuffle batch_size false (S r)
    (Suspended {| i := i; run := true; files := fs |}) w
  = ((λ l, Ok (batch_of row l)) <$> chunks batch_size i r fs,
     Suspended {| i := length fs; run := false; files := fs |},
     {| rng := rng w; trace := trace w ++ (EvLoad <$> drop i fs) |}).
Proof.
  revert i w. induction r as [|r IH]; intros i [g t] Hle Hlt.
  - cbn [next_n next]. rewrite while_run_single by lia.
    unfold chunks. cbn [seq fmap list_fmap rng trace].
    rewrite Nat.add_0_r.
    rewrite (take_ge (drop i fs)) by (rewrite length_drop; lia).
    rewrite length_drop, bool_decide_eq_false_2 by lia.
    replace (i + (length fs - i))%nat with (length fs) by lia. done.
  - rewrite (next_n_S _ _ _ _ _ _ (S r)). cbn [next].
    rewrite while_run_single by lia.
    rewrite length_take_le by (rewrite length_drop; simpl in Hle; lia).
    rewrite bool_decide_eq_true_2 by (simpl in Hle; lia).
    rewrite IH by (simpl in *; lia).
    cbn [rng trace]. f_equal; [f_equal|].
    + by rewrite chunks_S, fmap_cons.
    + f_equal. rewrite <- app_assoc, <- fmap_app. do 2 f_equal.
      rewrite <- drop_drop. apply take_drop.
Qed.

Lemma chunks_last {A} (b i r : nat) (l : list A) :
  chunks b i r l
  = ((λ t, take b (drop (i + t * b) l)) <$> seq 0 r)
    ++ [take b (drop (i + r * b) l)].
Proof. unfold chunks. by rewrite seq_S, fmap_app. Qed.

Lemma length_chunks (r i : nat) :
  (i + r * batch_size ≤ length fs)%nat →
  length <$> chunks batch_size i r fs
  = replicate r batch_size
    ++ [(length fs - (i + r * batch_size)) `min` batch_size]%nat.
Proof.
  revert i. induction r as [|r IH]; intros i Hle.
  - unfold chunks. simpl. rewrite length_take, length_drop.
    rewrite Nat.add_0_r. f_equal. lia.
  - rewrite chunks_S, fmap_cons, IH by (simpl in Hle; lia). simpl.
    rewrite length_take, length_drop. f_equal; [simpl in Hle; lia|].
    do 3 f_equal. lia.
Qed.

Lemma rows_batch_of (ls : list (list F)) :
  rows <$> (batch_of row <$> ls) = length <$> ls.
Proof.
  rewrite <- list_fmap_compose. apply list_fmap_ext. intros _ l _.
  unfold rows. simpl. by rewrite length_fmap.
Qed.

Lemma samples_batch_of (ls : list (list F)) :
  concat (samples <$> (batch_of row <$> ls)) = smp <$> concat ls.
Proof.
  induction ls as [|l ls IH]; [done|]. csimpl. by rewrite IH, fmap_app.
Qed.

Lemma labels_batch_of (ls : list (list F)) :
  concat (labels <$> (batch_of row <$> ls)) = lab <$> concat ls.
Proof.
  induction ls as [|l ls IH]; [done|]. csimpl. by rewrite IH, fmap_app.
Qed.

(** Once [run] is false, or the generator has finished, every call
    raises [StopIteration] and changes nothing. *)
Lemma next_n_finished (sr : bool) (k : nat) (w : @world F Rng) :
  next_n zero_sample zero_label load_row shuffle batch_size sr k Finished w
  = (replicate k (Raise StopIteration), Finished, w).
Proof. induction k as [|k IH]; [done|]. rewrite next_n_S. simpl. by rewrite IH. Qed.

Lemma next_n_stopped (sr : bool) (k i : nat) (cur : list F)
    (w : @world F Rng) :
  next_n zero_sample zero_label load_row shuffle batch_size sr (S k)
    (Suspended {| i := i; run := false; files := cur |}) w
  = (replicate (S k) (Raise StopIteration), Finished, w).
Proof. rewrite next_n_S. simpl. by rewrite next_n_finished. Qed.

(** The whole single-pass run: [q+1] batches, then [StopIteration]. *)
Lemma next_n_single_pass (q k : nat) (w : @world F Rng) :
  (q * batch_size ≤ length fs)%nat →
  (length fs - q * batch_size < batch_size)%nat →
  next_n zero_sample zero_label load_row shuffle batch_size false
    (S q + S k) (__data_generator fs) w
  = (((λ l, Ok (batch_of row l)) <$> chunks batch_size 0 q fs)
       ++ replicate (S k) (Raise StopIteration),
     Finished,
     {| rng := rng w; trace := trace w ++ (EvLoad <$> fs) |}).
Proof.
  intros Hle Hlt. rewrite next_n_add.
  assert (next_n zero_sample zero_label load_row shuffle batch_size false
            (S q) (__data_generator fs) w
          = next_n zero_sample zero_label load_row shuffle batch_size false
            (S q) (Suspended {| i := 0; run := true; files := fs |}) w)
    as -> by done.
  rewrite next_n_single by (simpl; lia).
  by rewrite next_n_stopped.
Qed.

Lemma div_mod_bounds (n : nat) :
  (0 < batch_size)%nat →
  (n `div` batch_size * batch_size ≤ n)%nat
  ∧ (n - n `div` batch_size * batch_size = n `mod` batch_size)%nat
  ∧ (n `mod` batch_size < batch_size)%nat.
Proof.
  intros Hb. pose proof (Nat.div_mod_eq n batch_size) as Hdm.
  pose proof (Nat.mod_upper_bound n batch_size) as Hub. lia.
Qed.

(** C1, amended.  In single-pass mode, with a batch size of at least 1
    and files that all load, the generator reads every file once, in the
    given order; it yields [n // b] batches of [b] rows and then exactly
    one final batch of [n mod b] rows (a short batch when [n] is not a
    multiple of [b], a batch of no rows when it is); every later call
    raises [StopIteration].  For 10 files and batches of 4 the sizes are
    4, 4, 2. *)
Theorem single_pass_batches (k : nat) (w : @world F Rng) :
  (0 < batch_size)%nat →
  let n := length fs in
  ∃ batches : list batch,
    next_n zero_sample zero_label load_row shuffle batch_size false
      (S (n `div` batch_size) + S k) (__data_generator fs) w
    = ((Ok <$> batches) ++ replicate (S k) (Raise StopIteration),
       Finished,
       {| rng := rng w; trace := trace w ++ (EvLoad <$> fs) |})
    ∧ rows <$> batches
      = replicate (n `div` batch_size) batch_size ++ [(n `mod` batch_size)%nat]
    ∧ concat (samples <$> batches) = smp <$> fs
    ∧ concat (labels <$> batches) = lab <$> fs
    ∧ (n = 10%nat → batch_size = 4%nat → rows <$> batches = [4; 4; 2]%nat).
Proof.
  intros Hb n. destruct (div_mod_bounds n Hb) as (Hle & Hmod & Hlt).
  exists (batch_of row <$> chunks batch_size 0 (n `div` batch_size) fs).
  assert (rows <$> (batch_of row <$> chunks batch_size 0 (n `div` batch_size) fs)
          = replicate (n `div` batch_size) batch_size
            ++ [(n `mod` batch_size)%nat]) as Hrows.
  { rewrite rows_batch_of, length_chunks by (simpl; fold n; lia).
    simpl. fold n. do 3 f_equal. lia. }
  split; [|split; [done|split; [|split]]].
  - rewrite next_n_single_pass by (fold n; lia).
    by rewrite <- list_fmap_compose.
  - rewrite samples_batch_of, concat_chunks by (simpl; fold n; lia).
    by rewrite drop_0.
  - rewrite labels_batch_of, concat_chunks by (simpl; fold n; lia).
    by rewrite drop_0.
  - intros Hn H4. by rewrite Hrows, Hn, H4.
Qed.

(** C9.  In single-pass mode, when the number of files is a positive
    exact multiple [m · b] of the batch size, the generator yields the
    [m] full batches and then one more batch that has no rows (no
    sample row, no label row), before it terminates. *)
Theorem single_pass_exact_multiple (m k : nat) (w : @world F Rng) :
  (0 < batch_size)%nat → (0 < m)%nat →
  length fs = (m * batch_size)%nat →
  ∃ full : list batch,
    next_n zero_sample zero_label load_row shuffle batch_size false
      (S m + S k) (__data_generator fs) w
    = ((Ok <$> full) ++ [Ok {| samples := []; labels := [] |}]
         ++ replicate (S k) (Raise StopIteration),
       Finished,
       {| rng := rng w; trace := trace w ++ (EvLoad <$> fs) |})
    ∧ length full = m
    ∧ Forall (λ b, rows b = batch_size ∧ length (labels b) = batch_size) full
    ∧ concat (samples <$> full) = smp <$> fs
    ∧ concat (labels <$> full) = lab <$> fs.
Proof.
  intros Hb Hm Hn.
  set (cs := (λ t, take batch_size (drop (0 + t * batch_size) fs)) <$> seq 0 m).
  assert (chunks batch_size 0 m fs = cs ++ [[]]) as Hcs.
  { rewrite chunks_last. fold cs. do 2 f_equal.
    rewrite drop_ge by (simpl; lia). apply take_nil. }
  assert (concat cs = fs) as Hcat.
  { pose proof (concat_chunks m 0) as Hc. rewrite Hcs, concat_app in Hc.
    simpl in Hc. rewrite app_nil_r, drop_0 in Hc. apply Hc; lia. }
  exists (batch_of row <$> cs). split; [|split; [|split; [|split]]].
  - rewrite next_n_single_pass by lia. rewrite Hcs, fmap_app.
    rewrite <- list_fmap_compose, <- !app_assoc. done.
  - unfold cs. by rewrite !length_fmap, length_seq.
  - apply Forall_fmap, Forall_fmap, Forall_forall. intros t Ht.
    apply elem_of_seq in Ht. unfold rows. simpl.
    rewrite !length_fmap, length_take, length_drop.
    assert (S t * batch_size ≤ m * batch_size)%nat
      by (apply Nat.mul_le_mono_r; lia).
    simpl in *. lia.
  - by rewrite samples_batch_of, Hcat.
  - by rewrite labels_batch_of, Hcat.
Qed.
End Gen.

End GeneratorFacts.

Module GeneratorRepeat.
Import Generator GeneratorFacts.

Lemma insert_middle {A} (l k : list A) (n : nat) (z x : A) :
  length l = n → <[n := x]> (l ++ z :: k) = (l ++ [x]) ++ k.
Proof.
  intros <-. rewrite insert_app_r_alt, Nat.sub_diag by done. simpl.
  by rewrite <- app_assoc.
Qed.

Lemma demo_shuffle_perm (g : nat) (l : list nat) : (demo_shuffle g l).1 ≡ₚ l.
Proof.
  unfold demo_shuffle, rotate. simpl.
  rewrite Permutation_app_comm. by rewrite take_drop.
Qed.

Section Gen.
Context {F Sample Label Rng : Type}.
Variable zero_sample : Sample.
Variable zero_label : Label.
Variable load_row : F → result (Label * Sample).
Variable shuffle : Rng → list F → list F * Rng.
Variable batch_size : nat.
Variable row : F → Label * Sample.
Variable fs : list F.
Hypothesis load_ok : ∀ f, f ∈ fs → load_row f = Ok (row f).
Hypothesis shuffle_perm : ∀ g l, (shuffle g l).1 ≡ₚ l.

Local Abbreviation smp := (λ f, (row f).2).
Local Abbreviation lab := (λ f, (row f).1).

(** While files are left, one round of the loop loads [files[i]] into
    row [j], whatever the mode. *)
Lemma for_j_cons_load (sr : bool) (j : nat) (js : list nat) (i : nat)
    (r : bool) (cur : list F) (f : F) (b : batch) (w : @world F Rng) :
  cur !! i = Some f → f ∈ fs →
  for_j load_row shuffle sr (j :: js)
    {| i := i; run := r; files := cur |} b w
  = for_j load_row shuffle sr js
      {| i := S i; run := r; files := cur |}
      {| samples := <[j := smp f]> (samples b);
         labels := <[j := lab f]> (labels b) |}
      {| rng := rng w; trace := trace w ++ [EvLoad f] |}.
Proof.
  intros Hf Hin. cbn [for_j files Generator.i].
  rewrite bool_decide_eq_false_2 by (apply lookup_lt_Some in Hf; lia).
  by rewrite (load_into_ok load_row row fs load_ok cur j i r f b w Hf Hin).
Qed.

(** In repeating mode, a round that finds the files exhausted shuffles
    them and goes on from the start of the new order. *)
Lemma for_j_reshuffle (j : nat) (js : list nat) (i : nat) (r : bool)
    (cur : list F) (b : batch) (w : @world F Rng) :
  (length cur ≤ i)%nat → cur ≠ [] →
  for_j load_row shuffle true (j :: js)
    {| i := i; run := r; files := cur |} b w
  = for_j load_row shuffle true (j :: js)
      {| i := 0; run := r; files := (shuffle (rng w) cur).1 |} b
      {| rng := (shuffle (rng w) cur).2; trace := trace w ++ [EvShuffle] |}.
Proof.
  intros Hex Hne. cbn [for_j files Generator.i].
  rewrite bool_decide_eq_true_2 by done. unfold reshuffle.
  pose proof (shuffle_perm (rng w) cur) as Hperm.
  destruct (shuffle (rng w) cur) as [cur' g']. simpl in *.
  rewrite bool_decide_eq_false_2; [done|].
  apply Permutation_length in Hperm. destruct cur; [done|].
  simpl in Hperm. lia.
Qed.

(** A stretch of [m] rounds that does not run out of files. *)
Lemma for_j_chunk (sr : bool) (m j0 i : nat) (r : bool) (cur : list F)
    (ss zs ts : list Sample) (ls zl tl : list Label) (w : @world F Rng) :
  (∀ f, f ∈ cur → f ∈ fs) →
  length ss = j0 → length ls = j0 → length zs = m → length zl = m →
  (i + m ≤ length cur)%nat →
  for_j load_row shuffle sr (seq j0 m)
    {| i := i; run := r; files := cur |}
    {| samples := ss ++ zs ++ ts; labels := ls ++ zl ++ tl |} w
  = (Ok ({| i := i + m; run := r; files := cur |},
         {| samples := ss ++ (smp <$> take m (drop i cur)) ++ ts;
            labels := ls ++ (lab <$> take m (drop i cur)) ++ tl |}),
     {| rng := rng w;
        trace := trace w ++ (EvLoad <$> take m (drop i cur)) |}).
Proof.
  intros Hsub. revert j0 i ss ls zs zl w.
  induction m as [|m IH]; intros j0 i ss ls zs zl [g t] Hss Hls Hzs Hzl Hi.
  - destruct zs, zl; try done. simpl. by rewrite Nat.add_0_r, app_nil_r.
  - destruct zs as [|z zs], zl as [|z' zl]; try done.
    destruct (lookup_lt_is_Some_2 cur i) as [f Hf]; [lia|].
    assert (f ∈ fs) as Hin by by eapply Hsub, list_elem_of_lookup_2.
    cbn [seq]. rewrite (for_j_cons_load sr j0 _ i r cur f _ _ Hf Hin).
    cbn [samples labels rng trace app].
    rewrite (insert_middle ss), (insert_middle ls) by done.
    rewrite IH by (rewrite ?length_app; simpl in *; lia).
    rewrite (drop_S cur f i Hf). cbn [take fmap list_fmap].
    rewrite <- !app_assoc. cbn [app rng trace].
    rewrite <- (app_assoc t). simpl.
    by replace (S (i + m)) with (i + S m)%nat by lia.
Qed.

Lemma for_j_app_repeat (js1 js2 : list nat) (fr : frame) (b : batch)
    (w : @world F Rng) :
  for_j load_row shuffle true (js1 ++ js2) fr b w
  = match for_j load_row shuffle true js1 fr b w with
    | (Ok (fr', b'), w') => for_j load_row shuffle true js2 fr' b' w'
    | (Raise e, w') => (Raise e, w')
    end.
Proof.
  revert fr b w. induction js1 as [|j js1 IH]; intros fr b w; [done|].
  cbn [app for_j]. case_bool_decide.
  - destruct (reshuffle shuffle (files fr) w) as [cur' w1].
    destruct (load_into _ _ _ _ _) as [[[fr' b']|e] w']; [apply IH|done].
  - destruct (load_into _ _ _ _ _) as [[[fr' b']|e] w']; [apply IH|done].
Qed.

Hypothesis files_ne : fs ≠ [].

Lemma perm_ne (cur : list F) : cur ≡ₚ fs → cur ≠ [].
Proof. intros Hp ->. by apply Permutation_nil_l in Hp. Qed.

Lemma pass_trace_load (t0 : list (event F)) (i : nat) (cur : list F)
    (f : F) (w : @world F Rng) :
  pass_trace fs t0 {| i := i; run := true; files := cur |} w →
  cur !! i = Some f →
  pass_trace fs t0 {| i := S i; run := true; files := cur |}
    {| rng := rng w; trace := trace w ++ [EvLoad f] |}.
Proof.
  intros (_ & Hperm & Hi & ps & Hps & Htr) Hf. simpl in *.
  split; [done|]. split; [done|]. split.
  { apply lookup_lt_Some in Hf. simpl. lia. }
  exists ps. split; [done|]. simpl. rewrite Htr, (take_S_r cur i f Hf).
  unfold pass. rewrite fmap_app. simpl. by rewrite <- !app_assoc.
Qed.

Lemma pass_trace_reshuffle (t0 : list (event F)) (i : nat) (cur : list F)
    (w : @world F Rng) :
  pass_trace fs t0 {| i := i; run := true; files := cur |} w →
  (length cur ≤ i)%nat →
  pass_trace fs t0
    {| i := 0; run := true; files := (shuffle (rng w) cur).1 |}
    {| rng := (shuffle (rng w) cur).2; trace := trace w ++ [EvShuffle] |}.
Proof.
  intros (_ & Hperm & Hi & ps & Hps & Htr) Hex. simpl in *.
  split; [done|].
  split; [simpl; etransitivity; [apply shuffle_perm|exact Hperm]|].
  split; [simpl; lia|].
  exists (ps ++ [cur]). split.
  { apply Forall_app. split; [done|]. by constructor. }
  simpl. rewrite Htr, take_ge by done.
  rewrite fmap_app, concat_app. simpl.
  by rewrite app_nil_r, <- !app_assoc.
Qed.

(** In repeating mode every run of the loop fills all its rows and
    keeps the pass structure of the trace. *)
Lemma for_j_repeat_inv (t0 : list (event F)) (js : list nat) (fr : frame)
    (b : batch) (w : @world F Rng) :
  pass_trace fs t0 fr w →
  ∃ fr' b' w',
    for_j load_row shuffle true js fr b w = (Ok (fr', b'), w')
    ∧ pass_trace fs t0 fr' w'
    ∧ length (samples b') = length (samples b)
    ∧ length (labels b') = length (labels b).
Proof.
  revert fr b w. induction js as [|j js IH]; intros [i r cur] b w Hinv.
  { by exists {| i := i; run := r; files := cur |}, b, w. }
  assert (r = true) as -> by apply Hinv.
  assert (∀ i' cur' f (w' : @world F Rng),
    pass_trace fs t0 {| i := i'; run := true; files := cur' |} w' →
    cur' !! i' = Some f →
    ∃ fr' b' w'',
      for_j load_row shuffle true (j :: js)
        {| i := i'; run := true; files := cur' |} b w' = (Ok (fr', b'), w'')
      ∧ pass_trace fs t0 fr' w''
      ∧ length (samples b') = length (samples b)
      ∧ length (labels b') = length (labels b)) as Hload.
  { intros i' cur' f w' Hinv' Hf.
    assert (f ∈ fs) as Hin.
    { destruct Hinv' as (_ & Hperm & _). simpl in Hperm.
      rewrite <- Hperm. by eapply list_elem_of_lookup_2. }
    rewrite (for_j_cons_load true j js i' true cur' f b w' Hf Hin).
    edestruct IH as (fr' & b' & w'' & Hfor & Hinv'' & Hs & Hl);
      [by eapply pass_trace_load|].
    exists fr', b', w''. split; [exact Hfor|]. split; [done|].
    simpl in Hs, Hl. by rewrite Hs, Hl, !length_insert. }
  destruct (decide (length cur ≤ i)%nat) as [Hex|Hin].
  - assert (cur ≠ []) as Hne by (apply perm_ne, Hinv).
    rewrite for_j_reshuffle by done.
    pose proof (pass_trace_reshuffle t0 i cur w Hinv Hex) as Hinv'.
    destruct (lookup_lt_is_Some_2 (shuffle (rng w) cur).1 0) as [f Hf].
    { pose proof (shuffle_perm (rng w) cur) as Hp.
      apply Permutation_length in Hp. destruct cur; [done|].
      simpl in Hp. lia. }
    by eapply Hload.
  - destruct (lookup_lt_is_Some_2 cur i) as [f Hf]; [lia|].
    by eapply Hload.
Qed.

Lemma while_run_repeat (t0 : list (event F)) (fr : frame)
    (w : @world F Rng) :
  pass_trace fs t0 fr w →
  ∃ b fr' w',
    while_run zero_sample zero_label load_row shuffle batch_size true fr w
    = (Ok b, Suspended fr', w')
    ∧ pass_trace fs t0 fr' w'
    ∧ rows b = batch_size ∧ length (labels b) = batch_size.
Proof.
  intros Hinv. unfold while_run.
  assert (run fr = true) as -> by apply Hinv.
  edestruct (for_j_repeat_inv t0 (seq 0 batch_size) fr) as
    (fr' & b' & w' & Hfor & Hinv' & Hs & Hl); [done|].
  rewrite Hfor. exists b', fr', w'. split; [done|]. split; [done|].
  unfold rows. simpl in Hs, Hl. by rewrite Hs, Hl, !length_replicate.
Qed.

Lemma next_n_repeat (t0 : list (event F)) (k : nat) (fr : frame)
    (w : @world F Rng) :
  pass_trace fs t0 fr w →
  ∃ batches fr' w',
    next_n zero_sample zero_label load_row shuffle batch_size true k
      (Suspended fr) w
    = (Ok <$> batches, Suspended fr', w')
    ∧ length batches = k
    ∧ Forall (λ b, rows b = batch_size ∧ length (labels b) = batch_size)
             batches
    ∧ pass_trace fs t0 fr' w'.
Proof.
  revert fr w. induction k as [|k IH]; intros fr w Hinv.
  { exists [], fr, w. split; [done|]. split; [done|].
    split; [constructor|done]. }
  rewrite next_n_S. cbn [next].
  destruct (while_run_repeat t0 fr w Hinv) as (b & fr1 & w1 & -> & Hinv1 & Hb).
  destruct (IH fr1 w1 Hinv1) as (bs & fr2 & w2 & -> & Hlen & Hall & Hinv2).
  exists (b :: bs), fr2, w2. split; [done|]. split; [simpl; lia|].
  split; [by constructor|done].
Qed.

(** When the list is no longer than a batch, and a batch no longer
    than two lists, the first batch holds one full pass over the first
    shuffled order and then the start of the second one. *)
Lemma first_batch_two_passes (w : @world F Rng) :
  (length fs ≤ batch_size)%nat →
  (batch_size - length fs ≤ length fs)%nat →
  let p1 := (shuffle (rng w) fs).1 in
  let p2 := (shuffle (shuffle (rng w) fs).2 p1).1 in
  ∃ st w',
    next zero_sample zero_label load_row shuffle batch_size true
      (__data_generator fs) w
    = (Ok (batch_of row (p1 ++ take (batch_size - length fs) p2)), st, w').
Proof.
  intros Hle Hd. cbn zeta.
  unfold __data_generator. cbn [next]. unfold reshuffle.
  pose proof (shuffle_perm (rng w) fs) as Hp1.
  destruct (shuffle (rng w) fs) as [p1 g1]. cbn [fst snd] in *.
  pose proof (Permutation_length Hp1) as Hlen1.
  unfold while_run. cbn [run].
  remember (batch_size - length fs)%nat as d eqn:Hdeq.
  assert (batch_size = length p1 + d)%nat as -> by lia.
  rewrite seq_app, !replicate_add, for_j_app_repeat.
  rewrite (for_j_chunk true (length p1) 0 0 true p1 []
             (replicate (length p1) zero_sample) (replicate d zero_sample) []
             (replicate (length p1) zero_label) (replicate d zero_label));
    [|by intros f Hf; rewrite <- Hp1|done|done|
     by rewrite length_replicate|by rewrite length_replicate|simpl; lia].
  rewrite drop_0, firstn_all. cbn [app rng trace Nat.add].
  destruct d as [|d].
  - simpl. rewrite !app_nil_r. eauto.
  - change (seq (length p1) (S d))
      with (length p1 :: seq (S (length p1)) d).
    rewrite for_j_reshuffle by (done || by apply perm_ne).
    cbn [rng trace].
    pose proof (shuffle_perm g1 p1) as Hp2.
    destruct (shuffle g1 p1) as [p2 g2]. cbn [fst snd] in *.
    pose proof (Permutation_length Hp2) as Hlen2.
    change (length p1 :: seq (S (length p1)) d)
      with (seq (length p1) (S d)).
    rewrite <- (app_nil_r (replicate (S d) zero_sample)).
    rewrite <- (app_nil_r (replicate (S d) zero_label)).
    rewrite (for_j_chunk true (S d) (length p1) 0 true p2);
      [|intros f Hf; by rewrite <- Hp1, <- Hp2
       |by rewrite length_fmap|by rewrite length_fmap
       |by rewrite length_replicate|by rewrite length_replicate
       |simpl; lia].
    rewrite drop_0, !app_nil_r. unfold batch_of.
    rewrite !fmap_app. eauto.
Qed.

(** *** The passes are the lists that [shuffle] returned *)

Lemma shuffled_perm (n : nat) (g : Rng) : (shuffled shuffle n g fs).1 ≡ₚ fs.
Proof.
  induction n as [|n IH]; [done|]. cbn [shuffled].
  etransitivity; [apply shuffle_perm|exact IH].
Qed.

Lemma passes_read_S (g : Rng) (m : nat) :
  passes_read shuffle g fs (S m)
  = passes_read shuffle g fs m ++ [(shuffled shuffle (S m) g fs).1].
Proof. unfold passes_read. by rewrite seq_S, fmap_app. Qed.

Lemma passes_read_perm (g : Rng) (m : nat) :
  Forall (λ p, p ≡ₚ fs) (passes_read shuffle g fs m).
Proof.
  unfold passes_read. apply Forall_fmap, Forall_forall. intros t _.
  apply shuffled_perm.
Qed.

(** One round of the loop reads one file, the next one of the order
    that the last shuffle returned, after a new shuffle when that order
    is used up. *)
Lemma chain_step (g0 : Rng) (t0 : list (event F)) (m j : nat)
    (js : list nat) (fr : frame) (b : batch) (w : @world F Rng) :
  chain_trace shuffle fs g0 t0 m fr w →
  ∃ f m' fr' w',
    for_j load_row shuffle true (j :: js) fr b w
    = for_j load_row shuffle true js fr'
        {| samples := <[j := smp f]> (samples b);
           labels := <[j := lab f]> (labels b) |} w'
    ∧ chain_trace shuffle fs g0 t0 m' fr' w'
    ∧ reads shuffle g0 fs m' fr' = reads shuffle g0 fs m fr ++ [f].
Proof.
  destruct fr as [i r cur]. intros (Hrun & Hi & Hcur & Hrng & Htr).
  cbn [Generator.run Generator.i Generator.files] in Hrun, Hi, Hcur, Hrng, Htr.
  subst r.
  assert (cur ≡ₚ fs) as Hperm by (rewrite Hcur; apply shuffled_perm).
  destruct (decide (i < length cur)%nat) as [Hlt|Hge].
  - destruct (lookup_lt_is_Some_2 cur i Hlt) as [f Hf].
    assert (f ∈ fs) as Hin
      by (rewrite <- Hperm; by eapply list_elem_of_lookup_2).
    exists f, m, {| i := S i; run := true; files := cur |},
           {| rng := rng w; trace := trace w ++ [EvLoad f] |}.
    split; [by apply for_j_cons_load|]. split.
    + split_and!; simpl; [done|lia|done|done|].
      rewrite Htr, (take_S_r cur i f Hf). unfold pass.
      rewrite fmap_app. simpl. by rewrite <- !app_assoc.
    + unfold reads. simpl. by rewrite (take_S_r cur i f Hf), app_assoc.
  - rewrite for_j_reshuffle by (lia || by apply perm_ne).
    set (cur' := (shuffle (rng w) cur).1).
    set (g' := (shuffle (rng w) cur).2).
    assert (cur' = (shuffled shuffle (S (S m)) g0 fs).1) as Hcur'.
    { unfold cur'. rewrite Hcur, Hrng. done. }
    assert (g' = (shuffled shuffle (S (S m)) g0 fs).2) as Hg'.
    { unfold g'. rewrite Hcur, Hrng. done. }
    assert (cur' ≡ₚ fs) as Hperm'.
    { unfold cur'. etransitivity; [apply shuffle_perm|done]. }
    destruct cur' as [|f rest] eqn:Ecur'.
    { by apply perm_ne in Hperm'. }
    assert (f ∈ fs) as Hin by (rewrite <- Hperm'; left).
    exists f, (S m), {| i := 1; run := true; files := f :: rest |},
           {| rng := g'; trace := (trace w ++ [EvShuffle]) ++ [EvLoad f] |}.
    split.
    { by rewrite (for_j_cons_load true j js 0 true (f :: rest) f b
                    {| rng := g'; trace := trace w ++ [EvShuffle] |}). }
    split.
    + split_and!;
        cbn [Generator.run Generator.i Generator.files rng trace];
        [done|simpl; lia|done|done|].
      rewrite Htr, passes_read_S, take_ge by lia.
      rewrite fmap_app, concat_app, <- Hcur.
      cbn [fmap list_fmap concat take]. unfold pass at 4.
      cbn [fmap list_fmap]. by rewrite app_nil_r, <- !app_assoc.
    + unfold reads. cbn [Generator.i Generator.files].
      rewrite passes_read_S, concat_app, <- Hcur.
      change (concat [cur]) with (cur ++ []).
      change (take 1 (f :: rest)) with [f].
      by rewrite app_nil_r, (take_ge cur i) by lia.
Qed.

(** A run of the loop over [n] rows reads [n] files and writes their
    rows, in the order of reading. *)
Lemma for_j_chain (g0 : Rng) (t0 : list (event F)) (n : nat) :
  ∀ (m j0 : nat) (ss zs : list Sample) (ls zl : list Label) (fr : frame)
    (w : @world F Rng),
  chain_trace shuffle fs g0 t0 m fr w →
  length ss = j0 → length ls = j0 → length zs = n → length zl = n →
  ∃ Δ m' fr' w',
    for_j load_row shuffle true (seq j0 n) fr
      {| samples := ss ++ zs; labels := ls ++ zl |} w
    = (Ok (fr', {| samples := ss ++ (smp <$> Δ);
                   labels := ls ++ (lab <$> Δ) |}), w')
    ∧ chain_trace shuffle fs g0 t0 m' fr' w'
    ∧ length Δ = n
    ∧ reads shuffle g0 fs m' fr' = reads shuffle g0 fs m fr ++ Δ.
Proof.
  induction n as [|n IH]; intros m j0 ss zs ls zl fr w Hinv Hss Hls Hzs Hzl.
  - destruct zs, zl; try done. exists [], m, fr, w.
    split_and!; [done|done|done|by rewrite app_nil_r].
  - destruct zs as [|z zs], zl as [|z' zl]; try done.
    destruct (chain_step g0 t0 m j0 (seq (S j0) n) fr
                {| samples := ss ++ z :: zs; labels := ls ++ z' :: zl |}
                w Hinv)
      as (f & m1 & fr1 & w1 & Hstep & Hinv1 & Hreads1).
    cbn [samples labels] in Hstep.
    rewrite (insert_middle ss), (insert_middle ls) in Hstep by done.
    destruct (IH m1 (S j0) (ss ++ [smp f]) zs (ls ++ [lab f]) zl fr1 w1)
      as (Δ & m' & fr' & w' & Hrest & Hinv' & Hlen & Hreads');
      [done|rewrite length_app; simpl; lia|rewrite length_app; simpl; lia
      |by simplify_eq/=|by simplify_eq/=|].
    exists (f :: Δ), m', fr', w'. split_and!.
    + cbn [seq]. rewrite Hstep, Hrest. csimpl.
      by rewrite <- !app_assoc.
    + done.
    + simpl. lia.
    + rewrite Hreads', Hreads1. by rewrite <- app_assoc.
Qed.

Lemma while_run_chain (g0 : Rng) (t0 : list (event F)) (m : nat)
    (fr : frame) (w : @world F Rng) :
  chain_trace shuffle fs g0 t0 m fr w →
  ∃ Δ m' fr' w',
    while_run zero_sample zero_label load_row shuffle batch_size true fr w
    = (Ok (batch_of row Δ), Suspended fr', w')
    ∧ chain_trace shuffle fs g0 t0 m' fr' w'
    ∧ length Δ = batch_size
    ∧ reads shuffle g0 fs m' fr' = reads shuffle g0 fs m fr ++ Δ.
Proof.
  intros Hinv. unfold while_run.
  assert (run fr = true) as -> by apply Hinv.
  destruct (for_j_chain g0 t0 batch_size m 0 []
              (replicate batch_size zero_sample) []
              (replicate batch_size zero_label) fr w Hinv)
    as (Δ & m' & fr' & w' & Hfor & Hinv' & Hlen & Hreads);
    [done|done|by rewrite length_replicate|by rewrite length_replicate|].
  simpl in Hfor. rewrite Hfor. by exists Δ, m', fr', w'.
Qed.

Lemma next_n_chain (g0 : Rng) (t0 : list (event F)) (k : nat) :
  ∀ (m : nat) (fr : frame) (w : @world F Rng),
  chain_trace shuffle fs g0 t0 m fr w →
  ∃ Δs m' fr' w',
    next_n zero_sample zero_label load_row shuffle batch_size true k
      (Suspended fr) w
    = ((λ Δ, Ok (batch_of row Δ)) <$> Δs, Suspended fr', w')
    ∧ length Δs = k
    ∧ Forall (λ Δ, length Δ = batch_size) Δs
    ∧ chain_trace shuffle fs g0 t0 m' fr' w'
    ∧ reads shuffle g0 fs m' fr' = reads shuffle g0 fs m fr ++ concat Δs.
Proof.
  induction k as [|k IH]; intros m fr w Hinv.
  - exists [], m, fr, w. split_and!; try done. by rewrite app_nil_r.
  - rewrite next_n_S. cbn [next].
    destruct (while_run_chain g0 t0 m fr w Hinv)
      as (Δ & m1 & fr1 & w1 & -> & Hinv1 & Hlen1 & Hreads1).
    destruct (IH m1 fr1 w1 Hinv1)
      as (Δs & m' & fr' & w' & -> & Hlen & Hall & Hinv' & Hreads').
    exists (Δ :: Δs), m', fr', w'. split_and!.
    + done.
    + simpl. lia.
    + by constructor.
    + done.
    + rewrite Hreads', Hreads1. simpl. by rewrite <- app_assoc.
Qed.

(** C2.  In repeating mode over a non-empty list of files that all
    load, with a shuffle that only reorders: every call of [next] yields
    a batch with all its [batch_size] rows, and the generator stays
    suspended with [run] true, so it never terminates.  The list is
    shuffled once at the start and again each time it is used up: the
    order of every pass is the list that [shuffle] returned, for the
    list of the pass before it and the random state that the shuffle
    before it left; the trace of effects is the sequence of these passes,
    each opened by its shuffle and followed by reading every file of its
    order once, the last pass being the one in progress; and the batches,
    one after the other, hold the rows of the files in exactly this
    order of reading.  For 3 files and batches of 5, the first batch
    consists of one full pass over the first shuffled order and the
    first 2 files of the second one. *)
Theorem repeating_passes (k : nat) (w : @world F Rng) :
  ∃ batches fr w',
    next_n zero_sample zero_label load_row shuffle batch_size true (S k)
      (__data_generator fs) w
    = (Ok <$> batches, Suspended fr, w')
    ∧ length batches = S k
    ∧ Forall (λ b, rows b = batch_size ∧ length (labels b) = batch_size)
             batches
    ∧ run fr = true
    ∧ files fr ≡ₚ fs
    ∧ (∃ m : nat,
         let ps := passes_read shuffle (rng w) fs m in
         files fr = (shuffled shuffle (S m) (rng w) fs).1
         ∧ rng w' = (shuffled shuffle (S m) (rng w) fs).2
         ∧ (i fr ≤ length (files fr))%nat
         ∧ Forall (λ p, p ≡ₚ fs) ps
         ∧ trace w'
           = trace w ++ concat (pass <$> ps)
               ++ pass (take (i fr) (files fr))
         ∧ concat (samples <$> batches)
           = smp <$> (concat ps ++ take (i fr) (files fr))
         ∧ concat (labels <$> batches)
           = lab <$> (concat ps ++ take (i fr) (files fr)))
    ∧ (length fs = 3%nat → batch_size = 5%nat →
       let p1 := (shuffle (rng w) fs).1 in
       let p2 := (shuffle (shuffle (rng w) fs).2 p1).1 in
       p1 ≡ₚ fs ∧ p2 ≡ₚ fs
       ∧ head batches = Some (batch_of row (p1 ++ take 2 p2))).
Proof.
  (* the first call starts the generator: one shuffle, then the loop *)
  set (fr0 := {| i := 0; run := true; files := (shuffle (rng w) fs).1 |}).
  set (w0 := {| rng := (shuffle (rng w) fs).2;
                trace := trace w ++ [EvShuffle] |}).
  assert (chain_trace shuffle fs (rng w) (trace w) 0 fr0 w0) as Hinv0.
  { split_and!; simpl; [done|lia|done|done|done]. }
  assert (next_n zero_sample zero_label load_row shuffle batch_size true
            (S k) (__data_generator fs) w
          = next_n zero_sample zero_label load_row shuffle batch_size true
              (S k) (Suspended fr0) w0) as Hstart.
  { rewrite !next_n_S. unfold __data_generator. cbn [next].
    unfold reshuffle, fr0, w0. by destruct (shuffle (rng w) fs). }
  destruct (next_n_chain (rng w) (trace w) (S k) 0 fr0 w0 Hinv0)
    as (Δs & m & fr & w' & Hrun & Hlen & Hall & Hinv & Hreads).
  destruct Hinv as (Hrn & Hi & Hfiles & Hrng & Htr).
  unfold reads in Hreads. simpl in Hreads.
  exists (batch_of row <$> Δs), fr, w'. split_and!.
  - rewrite Hstart, Hrun. by rewrite <- list_fmap_compose.
  - by rewrite length_fmap.
  - apply Forall_fmap. eapply Forall_impl; [exact Hall|].
    intros Δ HΔ. unfold rows. simpl. by rewrite !length_fmap.
  - done.
  - rewrite Hfiles. apply shuffled_perm.
  - exists m. cbn zeta. split_and!; try done.
    + apply passes_read_perm.
    + by rewrite (samples_batch_of row), Hreads.
    + by rewrite (labels_batch_of row), Hreads.
  - intros Hn H5. cbn zeta.
    destruct (first_batch_two_passes w) as (st & w1 & Heq); [lia|lia|].
    split_and!.
    + apply shuffle_perm.
    + etransitivity; [apply shuffle_perm|apply shuffle_perm].
    + rewrite Hrun, next_n_S, Heq in Hstart.
      destruct (next_n _ _ _ _ _ _ k st w1) as [[rs1 st1] w2].
      destruct Δs as [|Δ Δs]; [done|].
      apply (f_equal (λ x, head x.1.1)) in Hstart. simpl in Hstart.
      assert (∀ a c : @batch Sample Label,
                Some (Ok a) = Some (Ok c) → a = c) as Hinj
        by (by intros a c [= ->]).
      apply Hinj in Hstart. simpl. rewrite <- Hstart.
      do 4 f_equal. lia.
Qed.
End Gen.

End GeneratorRepeat.

Module GeneratorExamples.
Import Generator GeneratorFacts GeneratorRepeat.

(** C1, as stated, fails when the batch size divides the number of files:
    8 files in batches of 4 give batches of 4, 4 and 0 rows, one batch
    more than the two full batches the description promises. *)
Lemma single_pass_extra_empty_batch :
  yielded_rows (demo_next_n 4 false 5 (seq 0 8)).1.1 = [4; 4; 0]%nat
  ∧ (demo_next_n 4 false 5 (seq 0 8)).1.1 !! 2%nat
    = Some (Ok {| samples := []; labels := [] |})
  ∧ yielded_rows (demo_next_n 4 false 5 (seq 0 8)).1.1
    ≠ spec_single_pass_sizes 8 4.
Proof. split; [|split]; [by vm_compute|by vm_compute|]. by vm_compute. Qed.

Lemma single_pass_batches_witness :
  ∃ batches : list batch,
    demo_next_n 4 false (S (10 `div` 4) + 1) (seq 0 10)
    = ((Ok <$> batches) ++ replicate 1 (Raise StopIteration),
       Finished,
       {| rng := rng demo_world;
          trace := trace demo_world ++ (EvLoad <$> seq 0 10) |})
    ∧ rows <$> batches = replicate (10 `div` 4) 4%nat ++ [(10 `mod` 4)%nat]
    ∧ concat (samples <$> batches) = (λ f, ((f, f).2 : nat)) <$> seq 0 10
    ∧ concat (labels <$> batches) = (λ f, ((f, f).1 : nat)) <$> seq 0 10
    ∧ (10 = 10 → 4 = 4 → rows <$> batches = [4; 4; 2])%nat.
Proof.
  apply (single_pass_batches 0%nat 0%nat demo_load demo_shuffle 4
           (λ f, (f, f)) (seq 0 10)).
  - intros f _. reflexivity.
  - lia.
Defined.

Lemma single_pass_exact_multiple_witness :
  ∃ full : list batch,
    demo_next_n 4 false (3 + 1) (seq 0 8)
    = ((Ok <$> full) ++ [Ok {| samples := []; labels := [] |}]
         ++ replicate 1 (Raise StopIteration),
       Finished,
       {| rng := rng demo_world;
          trace := trace demo_world ++ (EvLoad <$> seq 0 8) |})
    ∧ length full = 2%nat
    ∧ Forall (λ b, rows b = 4%nat ∧ length (labels b) = 4%nat) full
    ∧ concat (samples <$> full) = (λ f, ((f, f).2 : nat)) <$> seq 0 8
    ∧ concat (labels <$> full) = (λ f, ((f, f).1 : nat)) <$> seq 0 8.
Proof.
  apply (single_pass_exact_multiple 0%nat 0%nat demo_load demo_shuffle 4
           (λ f, (f, f)) (seq 0 8)).
  - intros f _. reflexivity.
  - lia.
  - lia.
  - reflexivity.
Defined.

Lemma repeating_passes_witness :
  ∃ batches fr w',
    demo_next_n 5 true 2 [0; 1; 2]%nat = (Ok <$> batches, Suspended fr, w')
    ∧ length batches = 2%nat
    ∧ Forall (λ b, rows b = 5%nat ∧ length (labels b) = 5%nat) batches
    ∧ run fr = true
    ∧ files fr ≡ₚ [0; 1; 2]%nat
    ∧ (∃ m : nat,
         let ps := passes_read demo_shuffle (rng demo_world) [0; 1; 2]%nat m in
         files fr
         = (shuffled demo_shuffle (S m) (rng demo_world) [0; 1; 2]%nat).1
         ∧ rng w'
           = (shuffled demo_shuffle (S m) (rng demo_world) [0; 1; 2]%nat).2
         ∧ (i fr ≤ length (files fr))%nat
         ∧ Forall (λ p, p ≡ₚ [0; 1; 2]%nat) ps
         ∧ trace w'
           = trace demo_world ++ concat (pass <$> ps)
               ++ pass (take (i fr) (files fr))
         ∧ concat (samples <$> batches)
           = (λ f, ((f, f).2 : nat)) <$> (concat ps ++ take (i fr) (files fr))
         ∧ concat (labels <$> batches)
           = (λ f, ((f, f).1 : nat)) <$> (concat ps ++ take (i fr) (files fr)))
    ∧ (length [0; 1; 2]%nat = 3%nat → 5%nat = 5%nat →
       let p1 := (demo_shuffle (rng demo_world) [0; 1; 2]%nat).1 in
       let p2 := (demo_shuffle
                    (demo_shuffle (rng demo_world) [0; 1; 2]%nat).2 p1).1 in
       p1 ≡ₚ [0; 1; 2]%nat ∧ p2 ≡ₚ [0; 1; 2]%nat
       ∧ head batches = Some (batch_of (λ f, (f, f)) (p1 ++ take 2 p2))).
Proof.
  apply (repeating_passes 0%nat 0%nat demo_load demo_shuffle 5
           (λ f, (f, f)) [0; 1; 2]%nat).
  - intros f _. reflexivity.
  - apply demo_shuffle_perm.
  - discriminate.
Defined.

End GeneratorExamples.

(** ** Label remapping: the two forms of the mapping, and its order *)

Module RemapOrder.
Import Remap RemapFacts.

Lemma StronglySorted_lookup_lt {A} (R : relation A) (l : list A)
    (i j : nat) (x y : A) :
  StronglySorted R l → l !! i = Some x → l !! j = Some y → (i < j)%nat →
  R x y.
Proof.
  intros Hs. revert i j. induction Hs as [|a l Hs IH Hall]; intros i j Hi Hj Hij.
  - by rewrite lookup_nil in Hi.
  - destruct j as [|j]; [lia|]. simpl in Hj.
    destruct i as [|i]; simpl in Hi.
    + injection Hi as ->. rewrite Forall_forall in Hall.
      apply Hall. by eapply list_elem_of_lookup_2.
    + eapply IH; eauto. lia.
Qed.

Lemma lookup_array_form (d : gmap Z nat) (m l : Z) :
  0 ≤ l → l ≤ m →
  ((λ i, match d !! i with Some v => v | None => 0%nat end)
     <$> py_range (m + 1)) !! Z.to_nat l
  = Some (match d !! l with Some v => v | None => 0%nat end).
Proof.
  intros H0 Hm. unfold py_range. rewrite list_lookup_fmap.
  rewrite (lookup_seqZ_lt 0 (m + 1) (Z.to_nat l)) by lia.
  by rewrite Z.add_0_l, Z2Nat.id by lia.
Qed.

(** X1. On training labels that are all non-negative, the array form of
    the Transformation Mapping and its dict form translate every label of
    the list to the same index, so that translating the whole list gives
    the same result with either form. *)
Theorem array_form_agrees_with_dict (labels : list Z) :
  labels ≠ [] → Forall (λ l, 0 ≤ l) labels →
  ∃ (d : gmap Z nat) (a : list nat) (idx : list nat),
    get_transformation_dict labels "dict" = Ok (TDict d)
    ∧ get_transformation_dict labels "np" = Ok (TArray a)
    ∧ (∀ l, l ∈ labels → subscript (TArray a) l = subscript (TDict d) l)
    ∧ transform_labels (Labels labels) (TDict d) = Ok (TLabels idx)
    ∧ transform_labels (Labels labels) (TArray a) = Ok (TLabels idx).
Proof.
  intros Hne Hpos.
  assert (Hu : np_unique labels ≠ []).
  { destruct labels as [|x l]; [done|].
    intros Hnil. assert (Hx : x ∈ np_unique (x :: l))
      by (apply elem_of_np_unique; left).
    rewrite Hnil in Hx. by apply elem_of_nil in Hx. }
  destruct (np_max_int_spec _ Hu) as (m & Hmax & Hm & Hle).
  set (d := dict_comprehension (enumerate (np_unique labels))).
  set (a := (λ i, match d !! i with Some v => v | None => 0%nat end)
              <$> py_range (m + 1)).
  assert (Hsub : ∀ l, l ∈ labels →
            ∃ i, subscript (TDict d) l = Ok i ∧ subscript (TArray a) l = Ok i).
  { intros l Hl.
    destruct (trans_dict_lookup_elem labels l Hl) as (i & Hd & _).
    fold d in Hd. exists i. split; [by simpl; rewrite Hd|].
    rewrite Forall_forall in Hpos.
    apply RemapSpec.subscript_array_in_range; [by apply Hpos|].
    unfold a. rewrite lookup_array_form.
    - by rewrite Hd.
    - by apply Hpos.
    - apply Hle. by apply elem_of_np_unique. }
  assert (Hf : ∃ f : Z → nat, ∀ l, l ∈ labels →
            subscript (TDict d) l = Ok (f l)
            ∧ subscript (TArray a) l = Ok (f l)).
  { exists (λ l, match d !! l with Some v => v | None => 0%nat end).
    intros l Hl. destruct (Hsub l Hl) as (i & H1 & H2).
    assert (d !! l = Some i) as ->; [|done].
    simpl in H1. destruct (d !! l); by inversion H1. }
  destruct Hf as (f & Hf).
  exists d, a, (f <$> labels). split_and!.
  - done.
  - unfold get_transformation_dict. simpl. by rewrite Hmax.
  - intros l Hl. destruct (Hf l Hl) as [-> ->]. done.
  - unfold transform_labels.
    rewrite (traverse_ok _ f); [done|]. intros l Hl. by apply Hf.
  - unfold transform_labels.
    rewrite (traverse_ok _ f); [done|]. intros l Hl. by apply Hf.
Qed.

Lemma array_form_agrees_with_dict_witness :
  ∃ (d : gmap Z nat) (a : list nat) (idx : list nat),
    get_transformation_dict [28; 11; 28; 73] "dict" = Ok (TDict d)
    ∧ get_transformation_dict [28; 11; 28; 73] "np" = Ok (TArray a)
    ∧ (∀ l, l ∈ [28; 11; 28; 73] →
         subscript (TArray a) l = subscript (TDict d) l)
    ∧ transform_labels (Labels [28; 11; 28; 73]) (TDict d) = Ok (TLabels idx)
    ∧ transform_labels (Labels [28; 11; 28; 73]) (TArray a)
      = Ok (TLabels idx).
Proof.
  apply (array_form_agrees_with_dict [28; 11; 28; 73]).
  - done.
  - repeat constructor; lia.
Defined.

(** X2. The Transformation Mapping preserves the order of the raw labels:
    of two labels that it translates, the smaller raw ID gets the smaller
    index, distinct IDs get distinct indices, and every index lies below
    the number of distinct labels. *)
Theorem transformation_preserves_order (labels : list Z) (t : trans_info)
    (l1 l2 : Z) (i1 i2 : nat) :
  get_transformation_dict labels "dict" = Ok t →
  subscript t l1 = Ok i1 → subscript t l2 = Ok i2 →
  (l1 < l2 ↔ (i1 < i2)%nat)
  ∧ (l1 = l2 ↔ i1 = i2)
  ∧ (i1 < length (np_unique labels))%nat.
Proof.
  unfold get_transformation_dict. simpl. intros [= <-] H1 H2. simpl in H1, H2.
  destruct (_ !! l1) as [j1|] eqn:E1; [|done]. injection H1 as ->.
  destruct (_ !! l2) as [j2|] eqn:E2; [|done]. injection H2 as ->.
  apply trans_dict_lookup in E1, E2.
  pose proof (np_unique_sorted labels) as Hs.
  assert (Hlt : ∀ a b x y, np_unique labels !! a = Some x →
            np_unique labels !! b = Some y → (a < b)%nat → x < y).
  { intros a b x y Ha Hb Hab.
    exact (StronglySorted_lookup_lt Z.lt _ a b x y Hs Ha Hb Hab). }
  split_and!.
  - split; intros H.
    + destruct (decide (i1 < i2)%nat) as [|Hn]; [done|].
      destruct (decide (i1 = i2)) as [->|Hne].
      * rewrite E1 in E2. injection E2 as ->. lia.
      * pose proof (Hlt i2 i1 l2 l1 E2 E1 ltac:(lia)). lia.
    + eauto.
  - split; intros H.
    + subst l2. destruct (decide (i1 = i2)) as [|Hne]; [done|].
      destruct (decide (i1 < i2)%nat).
      * pose proof (Hlt i1 i2 l1 l1 E1 E2 ltac:(lia)). lia.
      * pose proof (Hlt i2 i1 l1 l1 E2 E1 ltac:(lia)). lia.
    + subst i2. rewrite E1 in E2. by injection E2.
  - by eapply lookup_lt_Some.
Qed.

Lemma transformation_preserves_order_witness :
  (11 < 73 ↔ (0 < 2)%nat) ∧ (11 = 73 ↔ 0%nat = 2%nat)
  ∧ (0 < length (np_unique [28; 11; 28; 73]%Z))%nat.
Proof.
  by apply (transformation_preserves_order [28; 11; 28; 73]
              (TDict (<[73 := 2%nat]> (<[28 := 1%nat]>
                        (<[11 := 0%nat]> ∅)))) 11 73 0 2).
Defined.

End RemapOrder.

(** ** The dataset descriptor *)

Lemma traverse_raise {A B} (f : A → result B) (e : pyerr) (l : list A) :
  (∀ x, x ∈ l → f x = Raise e ∨ ∃ y, f x = Ok y) →
  Exists (λ x, f x = Raise e) l →
  traverse f l = Raise e.
Proof.
  induction l as [|x l IH]; intros Hall Hex; [by inversion Hex|].
  simpl. destruct (Hall x) as [->|[y Hy]]; [left|done|].
  rewrite Hy. simpl. rewrite IH; [done| |].
  - intros z Hz. apply Hall. by right.
  - inversion Hex as [? ? Hx|]; subst; [|done]. congruence.
Qed.

Module AssemblerSpec.
Import Remap RemapFacts Assembler.

Lemma trans_dict_values (labels : list Z) :
  merge_sort Nat.le
    (map_to_list (dict_comprehension (enumerate (np_unique labels)))).*2
  = seq 0 (length (np_unique labels)).
Proof.
  apply (Sorted_unique Nat.le).
  - apply Sorted_merge_sort; apply _.
  - apply StronglySorted_Sorted, Sorted_StronglySorted; [apply _|].
    generalize 0%nat. induction (length _) as [|n IH]; intros s; simpl.
    + constructor.
    + constructor; [apply IH|]. destruct n; simpl; constructor. lia.
  - rewrite merge_sort_Permutation. apply NoDup_Permutation.
    + apply NoDup_fmap_2_strong; [|apply NoDup_map_to_list].
      intros [k1 i1] [k2 i2] H1 H2 Heq. simpl in Heq. subst i2.
      apply elem_of_map_to_list, trans_dict_lookup in H1, H2.
      rewrite H1 in H2. by injection H2 as ->.
    + apply NoDup_seq.
    + intros i. rewrite elem_of_seq, list_elem_of_fmap. split.
      * intros ([k j] & -> & Hk). simpl.
        apply elem_of_map_to_list, trans_dict_lookup, lookup_lt_Some in Hk.
        lia.
      * intros [_ Hi]. simpl in Hi.
        destruct (lookup_lt_is_Some_2 (np_unique labels) i Hi) as [k Hk].
        exists (k, i). split; [done|].
        by apply elem_of_map_to_list, trans_dict_lookup.
Qed.

Lemma ceil_quotient_bounds (len : nat) (b s : Z) :
  0 < b → ceil_quotient len b = Return s →
  (s - 1) * b < Z.of_nat len ≤ s * b.
Proof.
  unfold ceil_quotient. intros Hb. rewrite decide_False by lia.
  intros [= <-].
  pose proof (Z.div_mod (- Z.of_nat len) b ltac:(lia)) as Hdm.
  pose proof (Z.mod_pos_bound (- Z.of_nat len) b Hb) as Hmod.
  nia.
Qed.

Lemma transform_seen (train ls : list Z) :
  Forall (λ l, l ∈ train) ls →
  traverse (subscript (TDict (dict_comprehension (enumerate (np_unique train)))))
           ls
  = Ok ((λ l, default 0%nat
                (dict_comprehension (enumerate (np_unique train)) !! l))
          <$> ls).
Proof.
  intros Hall. apply traverse_ok. intros x Hx.
  rewrite Forall_forall in Hall.
  destruct (trans_dict_lookup_elem train x (Hall x Hx)) as (i & Hi & _).
  simpl. by rewrite Hi.
Qed.

Lemma transform_unseen (train ls : list Z) :
  Exists (λ l, l ∉ train) ls →
  traverse (subscript (TDict (dict_comprehension (enumerate (np_unique train)))))
           ls
  = Raise KeyError.
Proof.
  intros Hex. apply traverse_raise.
  - intros x _. simpl. destruct (_ !! x); eauto.
  - eapply Exists_impl; [exact Hex|]. intros x Hx. simpl.
    by rewrite trans_dict_lookup_None.
Qed.

Section Assemble.
Variable compute_class_weight : list Z → list Z → result (list Q).

(** X3. When the class-weight routine returns, every test label occurs
    among the training labels and the batch size is not 0,
    [prepare_dataset] returns a descriptor in which both label lists are
    translated position by position to indices that lead back to the raw
    label through [classes_orig], the translated class list is
    [0, ..., num_classes - 1], every class index occurs among the
    translated training labels, and, for a positive batch size, each step
    count is the least number of batches that holds all the labels. *)
Theorem prepare_dataset_returns (train test : list Z) (b : Z) (ws : list Q) :
  compute_class_weight (np_unique train) train = Ok ws →
  Forall (λ l, l ∈ train) test →
  b ≠ 0 →
  ∃ d tr te,
    prepare_dataset compute_class_weight train test b = Return d
    ∧ train_labels d = TLabels tr ∧ test_labels d = TLabels te
    ∧ length tr = length train ∧ length te = length test
    ∧ (∀ k l, train !! k = Some l →
         ∃ i, tr !! k = Some i ∧ classes_orig d !! i = Some l)
    ∧ (∀ k l, test !! k = Some l →
         ∃ i, te !! k = Some i ∧ classes_orig d !! i = Some l)
    ∧ length (classes_orig d) = num_classes d
    ∧ classes_trans d = seq 0 (num_classes d)
    ∧ (∀ i, (i < num_classes d)%nat ↔ i ∈ tr)
    ∧ (0 < b →
       (train_steps d - 1) * b < Z.of_nat (length train) ≤ train_steps d * b
       ∧ (test_steps d - 1) * b < Z.of_nat (length test) ≤ test_steps d * b).
Proof.
  intros Hcw Hseen Hb.
  set (dict := dict_comprehension (enumerate (np_unique train))).
  set (f := λ l, default 0%nat (dict !! l)).
  assert (Htrain : Forall (λ l, l ∈ train) train)
    by by apply Forall_forall.
  destruct (ceil_quotient (length train) b) as [s1|e1] eqn:E1.
  2:{ unfold ceil_quotient in E1. by rewrite decide_False in E1. }
  destruct (ceil_quotient (length test) b) as [s2|e2] eqn:E2.
  2:{ unfold ceil_quotient in E2. by rewrite decide_False in E2. }
  assert (Hback : ∀ ls k l, Forall (λ l, l ∈ train) ls → ls !! k = Some l →
            ∃ i, (f <$> ls) !! k = Some i ∧ np_unique train !! i = Some l).
  { intros ls k l Hls Hk. rewrite Forall_forall in Hls.
    destruct (trans_dict_lookup_elem train l) as (i & Hi & Hu).
    { apply Hls. by eapply list_elem_of_lookup_2. }
    exists i. rewrite list_lookup_fmap, Hk. simpl. unfold f, dict.
    by rewrite Hi. }
  exists {| train_labels := TLabels (f <$> train);
            test_labels := TLabels (f <$> test);
            batch_size := b;
            num_classes := length (np_unique train);
            classes_orig := np_unique train;
            classes_trans := seq 0 (length (np_unique train));
            train_steps := s1;
            test_steps := s2;
            class_weights := Weights.enumerate_dict ws |},
         (f <$> train), (f <$> test).
  split_and!; simpl; try done.
  - pose proof (WeightsSpec.sorted_keys_trans_dict train) as Hk.
    pose proof (trans_dict_values train) as Hv.
    pose proof (transform_seen train train Htrain) as Ht1.
    pose proof (transform_seen train test Hseen) as Ht2.
    fold dict in Hk, Hv, Ht1, Ht2. fold f in Ht1, Ht2.
    unfold prepare_dataset. simpl. fold dict.
    rewrite !Hk, Hcw. simpl. rewrite Ht1. simpl. rewrite Ht2. simpl.
    rewrite E1, E2. simpl. by rewrite Hv.
  - by rewrite length_fmap.
  - by rewrite length_fmap.
  - intros k l Hk. by apply Hback.
  - intros k l Hk. by apply Hback.
  - intros i. split.
    + intros Hi.
      destruct (lookup_lt_is_Some_2 (np_unique train) i Hi) as [l Hl].
      apply list_elem_of_fmap. exists l. split.
      * unfold f, dict. by rewrite (proj2 (trans_dict_lookup train l i) Hl).
      * apply elem_of_np_unique. by eapply list_elem_of_lookup_2.
    + intros Hi. apply list_elem_of_fmap in Hi as (l & -> & Hl).
      destruct (trans_dict_lookup_elem train l Hl) as (i & Hi & Hu).
      unfold f, dict. rewrite Hi. simpl. by eapply lookup_lt_Some.
  - intros Hpos. split; by apply ceil_quotient_bounds.
Qed.

(** X4. When the class-weight routine returns, a test label that does not
    occur among the training labels makes [prepare_dataset] fail with
    [KeyError], whatever the batch size; with all test labels seen, a
    batch size of 0 makes it fail with [ZeroDivisionError]. *)
Theorem prepare_dataset_raises (train test : list Z) (b : Z) (ws : list Q) :
  compute_class_weight (np_unique train) train = Ok ws →
  (Exists (λ l, l ∉ train) test →
   prepare_dataset compute_class_weight train test b = Throw (Py KeyError))
  ∧ (Forall (λ l, l ∈ train) test → b = 0 →
     prepare_dataset compute_class_weight train test b
     = Throw ZeroDivisionError).
Proof.
  intros Hcw.
  assert (Htrain : Forall (λ l, l ∈ train) train)
    by by apply Forall_forall.
  split.
  - intros Hex. unfold prepare_dataset. simpl.
    rewrite WeightsSpec.sorted_keys_trans_dict, Hcw. simpl.
    rewrite (transform_seen train train Htrain). simpl.
    by rewrite transform_unseen.
  - intros Hall ->. unfold prepare_dataset. simpl.
    rewrite WeightsSpec.sorted_keys_trans_dict, Hcw. simpl.
    rewrite (transform_seen train train Htrain). simpl.
    by rewrite (transform_seen train test Hall).
Qed.

End Assemble.

Lemma prepare_dataset_returns_witness :
  ∃ d tr te,
    prepare_dataset Weights.compute_class_weight_balanced
      [28; 11; 28; 73; 11] [73; 11] 2 = Return d
    ∧ train_labels d = TLabels tr ∧ test_labels d = TLabels te
    ∧ length tr = 5%nat ∧ length te = 2%nat
    ∧ classes_trans d = [0; 1; 2]%nat
    ∧ train_steps d = 3 ∧ test_steps d = 1.
Proof.
  destruct (prepare_dataset_returns Weights.compute_class_weight_balanced
              [28; 11; 28; 73; 11] [73; 11] 2
              (Weights.balanced_weight [28; 11; 28; 73; 11]
                 <$> np_unique [28; 11; 28; 73; 11]))
    as (d & tr & te & Hd & Htr & Hte & Hl1 & Hl2 & _ & _ & _ & Hct & _ & Hs).
  - apply WeightsSpec.compute_class_weight_balanced_unique.
  - repeat constructor; set_solver.
  - done.
  - destruct (Hs ltac:(lia)) as [[H1 H2] [H3 H4]].
    exists d, tr, te. split_and!; try done.
    + rewrite Hct. assert (num_classes d = 3%nat) as ->; [|done].
      vm_compute in Hd. by inversion Hd.
    + simpl in H1, H2. lia.
    + simpl in H3, H4. lia.
Defined.

Lemma prepare_dataset_raises_witness :
  prepare_dataset Weights.compute_class_weight_balanced [28; 11] [11; 99] 0
  = Throw (Py KeyError)
  ∧ prepare_dataset Weights.compute_class_weight_balanced [28; 11] [11] 0
    = Throw ZeroDivisionError.
Proof.
  split.
  - apply (prepare_dataset_raises Weights.compute_class_weight_balanced
             [28; 11] [11; 99] 0
             (Weights.balanced_weight [28; 11] <$> np_unique [28; 11])).
    + apply WeightsSpec.compute_class_weight_balanced_unique.
    + apply Exists_cons_tl, Exists_cons_hd.
      rewrite !not_elem_of_cons. split_and!; [lia|lia|apply not_elem_of_nil].
  - apply (prepare_dataset_raises Weights.compute_class_weight_balanced
             [28; 11] [11] 0
             (Weights.balanced_weight [28; 11] <$> np_unique [28; 11])).
    + apply WeightsSpec.compute_class_weight_balanced_unique.
    + repeat constructor; set_solver.
    + done.
Defined.

End AssemblerSpec.

(** ** Normalisation: the range of the output *)

Module NormaliseRange.
Import Normalise.

(** X5. Whenever min-max normalisation returns a vector, the vector has
    the length of the sample, none of its entries exceeds 1, one of them
    equals 1, and normalising it once more returns it unchanged (entry by
    entry, as rationals). *)
Theorem normalise_minmax_idempotent (sample out : list Q) (msgs : list string) :
  normalise_minmax sample = Ok (Some out, msgs) →
  msgs = []
  ∧ length out = length sample
  ∧ Forall (λ x, (x <= 1)%Q) out
  ∧ Exists (λ x, (x == 1)%Q) out
  ∧ ∃ out2, normalise_minmax out = Ok (Some out2, []) ∧ Forall2 Qeq out2 out.
Proof.
  unfold normalise_minmax. destruct (np_max sample) as [m|e] eqn:Hmax; [|done].
  simpl. destruct (Qltb 0 m) eqn:Hpos; [|done]. intros [= <- <-].
  apply Qltb_lt in Hpos.
  destruct (np_max_spec _ _ Hmax) as [Hin Hle].
  assert (Hone : (m / m == 1)%Q).
  { apply Qmult_inv_r. intros H0. rewrite H0 in Hpos.
    by apply Qlt_irrefl in Hpos. }
  split_and!.
  - done.
  - by rewrite length_fmap.
  - apply Forall_fmap, Forall_forall. intros x Hx. simpl.
    apply Qle_shift_div_r; [done|]. rewrite Qmult_1_l. by apply Hle.
  - apply Exists_fmap, Exists_exists. by exists m.
  - rewrite (np_max_fmap (λ x, x / m)%Q sample m); [|by intros; apply Qltb_div_pos|done].
    simpl.
    assert (Qltb 0 (m / m) = true) as ->.
    { apply Qltb_lt. by rewrite Hone. }
    eexists. split; [done|].
    apply Forall2_fmap_l, Forall_Forall2_diag, Forall_forall.
    intros x _. simpl. unfold Qdiv at 1. rewrite Hone.
    change (/ 1)%Q with 1%Q. apply Qmult_1_r.
Qed.

Lemma normalise_minmax_idempotent_witness :
  ([] : list string) = []
  ∧ length [1 / 4; 4 / 4; 2 / 4]%Q = length [1; 4; 2]%Q
  ∧ Forall (λ x, (x <= 1)%Q) [1 / 4; 4 / 4; 2 / 4]%Q
  ∧ Exists (λ x, (x == 1)%Q) [1 / 4; 4 / 4; 2 / 4]%Q
  ∧ ∃ out2, normalise_minmax [1 / 4; 4 / 4; 2 / 4]%Q = Ok (Some out2, [])
            ∧ Forall2 Qeq out2 [1 / 4; 4 / 4; 2 / 4]%Q.
Proof.
  by apply (normalise_minmax_idempotent [1; 4; 2]%Q).
Defined.

End NormaliseRange.

(** ** Baseline correction: how the function ends *)

Module BaselineOutcome.
Import Baseline BaselineSpec.

Lemma clip0_nonneg (x : Q) : (0 <= clip0 x)%Q.
Proof.
  unfold clip0. destruct (Qltb x 0) eqn:E; [apply Qle_refl|].
  by apply Qltb_ge in E.
Qed.

Section ALS.
Variable spsolve : matrix → list Q → list Q.

(** X6. On a sample of at least two rows, baseline correction with an
    iteration count of 0 or less raises [NameError] (the fit [z] was never
    assigned), and with a positive iteration count it returns a vector no
    longer than the sample, none of whose entries is negative. *)
Theorem baseline_als_optimized_outcome (y : list (Q * Q)) (lam p : Q)
    (niter : Z) :
  (2 ≤ length y)%nat →
  (niter ≤ 0 → baseline_als_optimized spsolve y lam p niter = Raise NameError)
  ∧ (0 < niter →
     ∃ out ws, baseline_als_optimized spsolve y lam p niter = Ok (out, ws)
               ∧ (length out ≤ length y)%nat
               ∧ Forall (λ x, (0 <= x)%Q) out).
Proof.
  intros Hlen.
  assert (Hmax : ∃ m, np_max (mjoin ((λ r, [r.1; r.2]) <$> y)) = Ok m).
  { destruct y as [|r y]; [simpl in Hlen; lia|]. simpl. eauto. }
  destruct Hmax as [m Hm]. split.
  - intros Hn. unfold baseline_als_optimized. rewrite Hm. simpl.
    rewrite decide_False by (rewrite !length_fmap; lia).
    replace (Z.to_nat niter) with 0%nat by lia. done.
  - intros Hn. unfold baseline_als_optimized. rewrite Hm. simpl.
    rewrite decide_False by (rewrite !length_fmap; lia).
    destruct (Z.to_nat niter) as [|k] eqn:Ek; [lia|].
    match goal with
    | |- context [als_loop spsolve ?D ?y ?p (S k) ?w ?z] =>
        destruct (als_loop_last spsolve D y p k w z) as (zz & Hz & _);
        destruct (als_loop spsolve D y p (S k) w z) as [w' z']
    end.
    simpl in Hz. subst z'. eexists _, _. split; [done|]. split.
    + rewrite length_fmap, length_zip_with, !length_fmap. lia.
    + apply Forall_fmap, Forall_forall. intros x _. apply clip0_nonneg.
Qed.
End ALS.

Lemma baseline_als_optimized_outcome_witness :
  baseline_als_optimized (λ _ b, b) [(180, 3); (181, -1)]%Q 102 (1 # 10) 0
  = Raise NameError
  ∧ ∃ out ws,
      baseline_als_optimized (λ _ b, b) [(180, 3); (181, -1)]%Q 102 (1 # 10) 1
      = Ok (out, ws)
      ∧ (length out ≤ 2)%nat
      ∧ Forall (λ x, (0 <= x)%Q) out.
Proof.
  split.
  - apply (baseline_als_optimized_outcome (λ _ b, b)
             [(180, 3); (181, -1)]%Q 102 (1 # 10) 0); simpl; lia.
  - apply (baseline_als_optimized_outcome (λ _ b, b)
             [(180, 3); (181, -1)]%Q 102 (1 # 10) 1); simpl; lia.
Defined.

End BaselineOutcome.

(** ** Grid reconstruction: cells and run indices *)

Module GridCells.
Import Grid GridSpec.

(** Along the list of run indices, the index never decreases and grows
    by at most one per position. *)
Lemma run_index_from_growth {K} `{EqDecision K} (keys : list K) (prev : K)
    (j : Z) (a b : nat) (x y : Z) :
  (j :: run_index_from prev j keys) !! a = Some x →
  (j :: run_index_from prev j keys) !! b = Some y →
  (a ≤ b)%nat →
  x ≤ y ≤ x + Z.of_nat (b - a).
Proof.
  revert prev j a b x y. induction keys as [|k ks IH]; intros prev j a b x y.
  - simpl. intros Ha Hb Hab.
    destruct b as [|b]; [|by destruct b].
    destruct a as [|a]; [|lia]. simpl in *. simplify_eq. lia.
  - simpl. set (j' := if decide (k = prev) then j else j + 1).
    assert (j ≤ j' ≤ j + 1) by (unfold j'; case_decide; lia).
    intros Ha Hb Hab. destruct b as [|b].
    + destruct a as [|a]; [|lia]. simpl in *. simplify_eq. lia.
    + simpl in Hb. destruct a as [|a].
      * simpl in Ha. injection Ha as <-.
        pose proof (IH k j' 0%nat b j' y eq_refl Hb ltac:(lia)). lia.
      * simpl in Ha.
        pose proof (IH k j' a b x y Ha Hb ltac:(lia)).
        replace (S b - S a)%nat with (b - a)%nat by lia. done.
Qed.

Lemma run_indices_growth {K} `{EqDecision K} (keys : list K) (a b : nat)
    (x y : Z) :
  run_indices keys !! a = Some x → run_indices keys !! b = Some y →
  (a ≤ b)%nat →
  0 ≤ x ∧ x ≤ y ≤ x + Z.of_nat (b - a).
Proof.
  destruct keys as [|k ks]; [done|]. simpl. intros Ha Hb Hab. split.
  - pose proof (run_index_from_growth ks k 0 0 a 0 x eq_refl Ha ltac:(lia)).
    lia.
  - by eapply run_index_from_growth.
Qed.

(** Every index below a run index occurs at an earlier position. *)
Lemma run_indices_gapless {K} `{EqDecision K} (keys : list K) (b : nat)
    (y j : Z) :
  run_indices keys !! b = Some y → 0 ≤ j ≤ y →
  ∃ a, (a ≤ b)%nat ∧ run_indices keys !! a = Some j.
Proof.
  revert y. induction b as [|b IH]; intros y Hb Hj.
  - exists 0%nat. split; [done|].
    pose proof (run_indices_first keys y Hb). subst. by replace j with 0 by lia.
  - destruct (decide (j = y)) as [->|Hne]; [by exists (S b)|].
    destruct (lookup_lt_is_Some_2 (run_indices keys) b) as [x Hx].
    { apply lookup_lt_Some in Hb. lia. }
    pose proof (run_indices_growth keys b (S b) x y Hx Hb ltac:(lia)).
    destruct (IH x Hx) as (a & Ha & Hja); [lia|].
    exists a. split; [lia|done].
Qed.

Section Files.
Variable sep : ascii.
Variable files : list string.
Hypothesis names_parse :
  ∀ f, f ∈ files → ∃ key s, mp_key sep f = Ok key ∧ shot_number f = Ok s.

Lemma transition_matrix_row (tm : list (list Z)) (k : nat) (f : string)
    (s : Z) :
  get_64shot_transition_matrix sep files = Some (Ok tm) →
  files !! k = Some f → shot_number f = Ok s →
  ∃ mp, run_indices (mp_key sep <$> files) !! k = Some mp
        ∧ tm !! k = Some [mp; (s - 1) `div` 8; (s - 1) `mod` 8].
Proof.
  rewrite (GridTheorem.transition_matrix_eq sep files names_parse).
  intros [= <-] Hf Hs.
  destruct (lookup_lt_is_Some_2 (run_indices (mp_key sep <$> files)) k)
    as [mp Hmp].
  { rewrite length_run_indices, length_fmap. by eapply lookup_lt_Some. }
  exists mp. split; [done|].
  rewrite lookup_zip_with, Hmp, Hf. simpl. unfold shot_index. by rewrite Hs.
Qed.

(** X7. In the matrix built from file names that parse, the row of a file
    with shot number [s] holds a row [r] and a column [c] of the grid
    with [8 r + c + 1 = s] and [0 ≤ c < 8]; the row index lies inside the
    8×8 grid exactly when [1 ≤ s ≤ 64]; and two files with equal matrix
    rows have the same shot number. *)
Theorem transition_matrix_cells :
  ∃ tm,
    get_64shot_transition_matrix sep files = Some (Ok tm)
    ∧ (∀ k f s, files !! k = Some f → shot_number f = Ok s →
         ∃ mp r c, tm !! k = Some [mp; r; c]
                   ∧ 8 * r + c + 1 = s ∧ 0 ≤ c < 8
                   ∧ (0 ≤ r < 8 ↔ 1 ≤ s ≤ 64))
    ∧ (∀ k k' f f' s s' row,
         files !! k = Some f → files !! k' = Some f' →
         shot_number f = Ok s → shot_number f' = Ok s' →
         tm !! k = Some row → tm !! k' = Some row → s = s').
Proof.
  pose proof (GridTheorem.transition_matrix_eq sep files names_parse) as Heq.
  eexists. split; [exact Heq|]. split.
  - intros k f s Hf Hs.
    destruct (transition_matrix_row _ k f s Heq Hf Hs) as (mp & _ & Hrow).
    exists mp, ((s - 1) `div` 8), ((s - 1) `mod` 8).
    split; [done|].
    pose proof (Z.div_mod (s - 1) 8 ltac:(lia)).
    pose proof (Z.mod_pos_bound (s - 1) 8 ltac:(lia)).
    split_and!; lia.
  - intros k k' f f' s s' row Hf Hf' Hs Hs' Hr Hr'.
    destruct (transition_matrix_row _ k f s Heq Hf Hs) as (mp & _ & Hrow).
    destruct (transition_matrix_row _ k' f' s' Heq Hf' Hs') as (mp' & _ & Hrow').
    rewrite Hrow in Hr. rewrite Hrow' in Hr'. simplify_eq.
    pose proof (Z.div_mod (s - 1) 8 ltac:(lia)).
    pose proof (Z.div_mod (s' - 1) 8 ltac:(lia)).
    lia.
Qed.

(** X8. The run indices in the first column of the matrix are counted
    without gaps: they are never negative, never decrease along the
    files, grow by at most one from a file to the next, and every index
    below the run index of a file is the run index of an earlier file. *)
Theorem transition_matrix_run_indices :
  ∃ tm,
    get_64shot_transition_matrix sep files = Some (Ok tm)
    ∧ (∀ a b rowa rowb, (a ≤ b)%nat →
         tm !! a = Some rowa → tm !! b = Some rowb →
         ∃ x y, rowa !! 0%nat = Some x ∧ rowb !! 0%nat = Some y
                ∧ 0 ≤ x ∧ x ≤ y ≤ x + Z.of_nat (b - a))
    ∧ (∀ b rowb y j, tm !! b = Some rowb → rowb !! 0%nat = Some y →
         0 ≤ j ≤ y →
         ∃ a rowa, (a ≤ b)%nat ∧ tm !! a = Some rowa
                   ∧ rowa !! 0%nat = Some j).
Proof.
  pose proof (GridTheorem.transition_matrix_eq sep files names_parse) as Heq.
  eexists. split; [exact Heq|].
  set (ids := run_indices (mp_key sep <$> files)).
  match goal with |- context [zip_with ?g ids files] => set (mk := g) end.
  assert (Hcol : ∀ k row, zip_with mk ids files !! k = Some row →
            ∃ x, ids !! k = Some x ∧ row !! 0%nat = Some x).
  { intros k row Hr.
    apply lookup_zip_with_Some in Hr as (mp & f & -> & Hmp & Hf).
    exists mp. split; [done|]. unfold mk. by destruct (shot_index f). }
  split.
  - intros a b rowa rowb Hab Ha Hb.
    destruct (Hcol a rowa Ha) as (x & Hx & Hx').
    destruct (Hcol b rowb Hb) as (y & Hy & Hy').
    exists x, y. split_and!; [done|done|..];
      pose proof (run_indices_growth _ a b x y Hx Hy Hab); lia.
  - intros b rowb y j Hb Hy Hj.
    destruct (Hcol b rowb Hb) as (y' & Hy1 & Hy2).
    assert (y' = y) as -> by congruence.
    destruct (run_indices_gapless _ b y j Hy1 Hj) as (a & Hab & Ha).
    destruct (lookup_lt_is_Some_2 files a) as [f Hf].
    { apply lookup_lt_Some in Ha. unfold ids in Ha.
      by rewrite length_run_indices, length_fmap in Ha. }
    exists a, (mk j f). split; [done|]. split.
    + fold ids in Ha. by rewrite lookup_zip_with, Ha, Hf.
    + unfold mk. by destruct (shot_index f).
Qed.
End Files.

Lemma demo_names_parse (f : string) :
  f ∈ ["t/0011_001_002_000_00064.npz"; "t/0011_001_002_001_00009.npz"] →
  ∃ key s, mp_key "/" f = Ok key ∧ shot_number f = Ok s.
Proof.
  intros Hf.
  apply elem_of_cons in Hf as [->|Hf]; [by eexists _, _|].
  apply elem_of_cons in Hf as [->|Hf]; [by eexists _, _|].
  by apply elem_of_nil in Hf.
Qed.

Lemma transition_matrix_cells_witness :
  ∃ tm,
    get_64shot_transition_matrix "/"
      ["t/0011_001_002_000_00064.npz"; "t/0011_001_002_001_00009.npz"]
    = Some (Ok tm)
    ∧ tm = [[0; 7; 7]; [1; 1; 0]].
Proof.
  destruct (transition_matrix_cells "/" _ demo_names_parse)
    as (tm & Htm & _).
  exists tm. split; [done|]. vm_compute in Htm. by injection Htm as <-.
Defined.

Lemma transition_matrix_run_indices_witness :
  ∃ tm,
    get_64shot_transition_matrix "/"
      ["t/0011_001_002_000_00064.npz"; "t/0011_001_002_001_00009.npz"]
    = Some (Ok tm)
    ∧ length tm = 2%nat.
Proof.
  destruct (transition_matrix_run_indices "/" _ demo_names_parse)
    as (tm & Htm & _).
  exists tm. split; [done|]. vm_compute in Htm. by injection Htm as <-.
Defined.

End GridCells.

(** ** Grid reconstruction: names that do not parse *)

Module GridErrors.
Import Grid GridSpec.

Lemma all_ok_or_fail {A B} (h : A → result B) (l : list A) :
  Forall (λ x, ∃ y, h x = Ok y) l ∨ Exists (λ x, ∀ y, h x ≠ Ok y) l.
Proof.
  induction l as [|x l [IH|IH]].
  - left. constructor.
  - destruct (h x) as [y|e] eqn:E.
    + left. constructor; eauto.
    + right. left. intros y. by rewrite E.
  - right. by right.
Qed.

Lemma split_ne (c : ascii) (s : string) : split c s ≠ [].
Proof.
  destruct s as [|a s]; [done|]. simpl.
  destruct (Ascii.eqb a c); [done|]. by destruct (split c s).
Qed.

Lemma item_last_split (c : ascii) (s : string) :
  ∃ t, item_last (split c s) = Ok t.
Proof.
  unfold item_last. destruct (last (split c s)) as [t|] eqn:E; [by exists t|].
  apply last_None in E. by apply split_ne in E.
Qed.

Lemma mp_key_raise (sep : ascii) (f : string) (e : pyerr) :
  mp_key sep f = Raise e → e = ValueError.
Proof.
  unfold mp_key. destruct (item_last_split sep f) as [name ->]. simpl.
  destruct (split "_" name) as [|a [|b [|c [|d [|e' [|? ?]]]]]];
    by intros [=].
Qed.

Lemma py_int_raise (s : string) (e : pyerr) :
  py_int s = Raise e → e = ValueError.
Proof.
  unfold py_int.
  match goal with
  | |- context [let '(_, _) := ?p in _] => destruct p as [sign body]
  end.
  destruct body; [by intros [=]|]. by destruct (digits _ _); intros [=].
Qed.

Lemma shot_index_raise (f : string) (e : pyerr) :
  shot_index f = Raise e → e = ValueError.
Proof.
  unfold shot_index, shot_number.
  destruct (item_last_split "/" f) as [name ->]. simpl.
  destruct (item_last_split "_" name) as [token ->]. simpl.
  destruct (py_int (drop_last4 token)) as [n|e'] eqn:E; [done|].
  simpl. intros [= <-]. by eapply py_int_raise.
Qed.

Section Sep.
Variable sep : ascii.

Lemma look_ahead_cases (key : string * string) (rest split : list string)
    (i : nat) :
  look_ahead sep key rest split i = Raise ValueError
  ∨ ∃ pre post,
      rest = pre ++ post
      ∧ look_ahead sep key rest split i
        = Ok (split ++ pre, (i + length pre)%nat)
      ∧ Forall (λ f, mp_key sep f = Ok key) pre
      ∧ (∀ f, head rest = Some f → mp_key sep f = Ok key → pre ≠ []).
Proof.
  revert split i. induction rest as [|fj rest IH]; intros split i.
  - right. exists [], []. simpl. rewrite app_nil_r, Nat.add_0_r.
    split_and!; [done|done|constructor|done].
  - simpl. destruct (mp_key sep fj) as [kj|e] eqn:Hkj.
    2:{ left. simpl. f_equal. by eapply mp_key_raise. }
    simpl. case_decide as Hd.
    + destruct (IH (split ++ [fj]) (S i))
        as [Hr|(pre & post & -> & Hla & Hpre & _)]; [by left|].
      right. exists (fj :: pre), post. split_and!; [done| | |done].
      * rewrite Hla. f_equal. f_equal; [by rewrite <- app_assoc|simpl; lia].
      * constructor; [|done]. rewrite Hkj. f_equal.
        destruct key, kj. simpl in Hd. destruct Hd. by subst.
    + right. exists [], (fj :: rest). simpl. rewrite app_nil_r, Nat.add_0_r.
      split_and!; [done|done|constructor|].
      intros f [= <-] Hf. rewrite Hkj in Hf. injection Hf as ->.
      by destruct Hd.
Qed.

(** A name without a key anywhere from position [i] on makes the while
    loop raise. *)
Lemma group_loop_raise (files : list string) (fuel i : nat)
    (mps : list (list string)) :
  Exists (λ f, ∀ key, mp_key sep f ≠ Ok key) (drop i files) →
  (length files - i ≤ fuel)%nat →
  group_loop sep fuel files i mps = Some (Raise ValueError).
Proof.
  revert i mps. induction fuel as [|fuel IH]; intros i mps Hex Hfuel.
  - rewrite drop_ge in Hex by lia. by inversion Hex.
  - simpl. case_decide as Hi.
    2:{ rewrite drop_ge in Hex by lia. by inversion Hex. }
    destruct (lookup_lt_is_Some_2 files i Hi) as [fi Hfi]. rewrite Hfi.
    destruct (mp_key sep fi) as [key|e] eqn:Hkey.
    2:{ simpl. do 2 f_equal. by eapply mp_key_raise. }
    simpl.
    destruct (look_ahead_cases key (drop i files) [] i)
      as [->|(pre & post & Hsplit & -> & Hpre & Hne)]; [done|].
    simpl.
    assert (pre ≠ []) as Hpre_ne.
    { apply (Hne fi); [|done].
      by rewrite head_lookup, lookup_drop, Nat.add_0_r. }
    assert (drop (i + length pre) files = post) as Hdrop.
    { rewrite <- drop_drop, Hsplit. by rewrite drop_app_length. }
    apply IH.
    + rewrite Hdrop. rewrite Hsplit in Hex.
      apply Exists_app in Hex as [Hex|Hex]; [|done].
      apply Exists_exists in Hex as (f & Hf & Hbad).
      rewrite Forall_forall in Hpre. by destruct (Hbad key (Hpre f Hf)).
    + destruct pre; [done|]. simpl. lia.
Qed.
End Sep.

(** A shot number that does not parse makes the filling of a group
    raise, whatever was written before. *)
Lemma fill_samples_raise (g : list string) (j : Z)
    (pre mid post : list (list Z)) :
  Exists (λ f, ∀ s, shot_index f ≠ Ok s) g →
  length mid = length g →
  Forall (λ row, length row = 3%nat) mid →
  fill_samples g j (length pre) (pre ++ mid ++ post) = Raise ValueError.
Proof.
  revert pre mid. induction g as [|f g IH]; intros pre mid Hex Hlen Hmid.
  - by inversion Hex.
  - destruct mid as [|row mid]; [done|].
    apply Forall_cons in Hmid as [Hrow Hmid].
    cbn [fill_samples].
    destruct (shot_index f) as [s|e] eqn:Hs.
    2:{ simpl. f_equal. by eapply shot_index_raise. }
    change (Ok s ≫= _) with
      (tm ← set_cell (pre ++ row :: mid ++ post) (length pre) 0 j ;
       tm ← set_cell tm (length pre) 1 (s `div` 8) ;
       tm ← set_cell tm (length pre) 2 (s `mod` 8) ;
       fill_samples g j (S (length pre)) tm).
    pose proof (set_cells_row pre (mid ++ post) row j (s `div` 8) (s `mod` 8) Hrow)
      as Hset.
    destruct (set_cell (pre ++ row :: mid ++ post) (length pre) 0 j)
      as [tm1|] eqn:E1; [|done]. simpl in *.
    destruct (set_cell tm1 (length pre) 1 (s `div` 8))
      as [tm2|] eqn:E2; [|done]. simpl in *.
    rewrite Hset.
    replace (S (length pre)) with (length (pre ++ [[j; s `div` 8; s `mod` 8]]))
      by (rewrite length_app; simpl; lia).
    replace (pre ++ [j; s `div` 8; s `mod` 8] :: mid ++ post)
      with ((pre ++ [[j; s `div` 8; s `mod` 8]]) ++ mid ++ post)
      by by rewrite <- app_assoc.
    unfold mbind, result_bind.
    apply IH; [|by simplify_eq/=|done].
    inversion Hex as [? ? Hbad|]; subst; [|done]. by destruct (Hbad s).
Qed.

Lemma fill_points_raise (gs : list (list string)) (j : Z)
    (pre mid post : list (list Z)) :
  Exists (λ f, ∀ s, shot_index f ≠ Ok s) (concat gs) →
  length mid = length (concat gs) →
  Forall (λ row, length row = 3%nat) mid →
  fill_points gs j (length pre) (pre ++ mid ++ post) = Raise ValueError.
Proof.
  revert j pre mid. induction gs as [|g gs IH]; intros j pre mid Hex Hlen Hmid.
  - by inversion Hex.
  - simpl in *. rewrite length_app in Hlen.
    rewrite <- (take_drop (length g) mid), <- app_assoc.
    rewrite <- (take_drop (length g) mid) in Hmid.
    apply Forall_app in Hmid as [Hmid1 Hmid2].
    destruct (all_ok_or_fail shot_index g) as [Hg|Hg].
    2:{ rewrite fill_samples_raise; [done|done| |done].
        rewrite length_take. lia. }
    apply Exists_app in Hex as [Hex|Hex].
    { apply Exists_exists in Hex as (f & Hf & Hbad).
      rewrite Forall_forall in Hg. destruct (Hg f Hf) as [s Hs].
      by destruct (Hbad s). }
    rewrite fill_samples_spec; [| |rewrite length_take; lia|done].
    2:{ intros f Hf. rewrite Forall_forall in Hg. by apply Hg. }
    simpl.
    replace (length pre + length g)%nat with (length (pre ++ group_rows j g))
      by (unfold group_rows; by rewrite length_app, length_fmap).
    rewrite (app_assoc pre). apply IH; [done| |done].
    rewrite length_drop. lia.
Qed.

(** X9. A single file name that does not parse, because it does not split
    into five tokens or because its shot number is no integer, makes the
    Grid Reconstructor raise [ValueError]: no partial matrix is
    returned. *)
Theorem transition_matrix_all_or_nothing (sep : ascii) (files : list string) :
  Exists (λ f, (∀ key, mp_key sep f ≠ Ok key)
               ∨ (∀ s, shot_number f ≠ Ok s)) files →
  get_64shot_transition_matrix sep files = Some (Raise ValueError).
Proof.
  intros Hex. unfold get_64shot_transition_matrix.
  destruct (all_ok_or_fail (mp_key sep) files) as [Hk|Hk].
  2:{ rewrite (group_loop_raise sep files (length files) 0 []);
        [done|done|lia]. }
  rewrite Forall_forall in Hk.
  destruct (group_loop_spec sep files (length files) 0 [])
    as (gs & Hgl & Hcat & Hruns); [done|lia|].
  rewrite Hgl. simpl in Hcat. simpl. f_equal.
  pose proof (fill_points_raise gs 0 [] (replicate (length files) [0; 0; 0]) [])
    as Hfill.
  rewrite app_nil_r in Hfill. simpl in Hfill. apply Hfill.
  - rewrite Hcat. apply Exists_exists in Hex as (f & Hf & [Hbad|Hbad]).
    + destruct (Hk f Hf) as [key Hkey]. by destruct (Hbad key).
    + apply Exists_exists. exists f. split; [done|].
      intros s. unfold shot_index.
      destruct (shot_number f) as [n|e] eqn:E; [by destruct (Hbad n)|done].
  - by rewrite length_replicate, Hcat.
  - by apply Forall_replicate.
Qed.

Lemma transition_matrix_all_or_nothing_witness :
  get_64shot_transition_matrix "/"
    ["t/0011_001_002_000_00001.npz"; "t/0011_001_002_000_0000x.npz"]
  = Some (Raise ValueError).
Proof.
  apply transition_matrix_all_or_nothing.
  apply Exists_cons_tl, Exists_cons_hd. right. by intros s.
Defined.

End GridErrors.

(** ** Batch generation: the step counts of the descriptor *)

Module GeneratorSteps.
Import Generator GeneratorFacts.

Section Gen.
Context {F Sample Label Rng : Type}.
Variable zero_sample : Sample.
Variable zero_label : Label.
Variable load_row : F → result (Label * Sample).
Variable shuffle : Rng → list F → list F * Rng.
Variable batch_size : nat.
Variable row : F → Label * Sample.
Variable fs : list F.
Hypothesis load_ok : ∀ f, f ∈ fs → load_row f = Ok (row f).

Local Abbreviation smp := (λ f, (row f).2).
Local Abbreviation lab := (λ f, (row f).1).

(** While at least [k] full batches are left, [k] calls yield them and
    leave the generator running. *)
Lemma next_n_full (k i : nat) (w : @world F Rng) :
  (0 < batch_size)%nat → (i + k * batch_size ≤ length fs)%nat →
  next_n zero_sample zero_label load_row shuffle batch_size false k
    (Suspended {| i := i; run := true; files := fs |}) w
  = ((λ l, Ok (batch_of row l))
       <$> ((λ t, take batch_size (drop (i + t * batch_size) fs)) <$> seq 0 k),
     Suspended {| i := i + k * batch_size; run := true; files := fs |},
     {| rng := rng w;
        trace := trace w ++ (EvLoad <$> take (k * batch_size) (drop i fs)) |}).
Proof.
  intros Hb. revert i w. induction k as [|k IH]; intros i [g t] Hle.
  - simpl. by rewrite Nat.add_0_r, app_nil_r.
  - rewrite next_n_S. cbn [next].
    rewrite (while_run_single zero_sample zero_label load_row shuffle
               batch_size row fs load_ok) by lia.
    rewrite length_take_le by (rewrite length_drop; simpl in Hle; lia).
    rewrite bool_decide_eq_true_2 by (simpl in Hle; lia).
    rewrite IH by (simpl in *; lia).
    cbn [rng trace]. f_equal; [f_equal|].
    + rewrite <- cons_seq, !fmap_cons.
      rewrite Nat.mul_0_l, Nat.add_0_r. do 2 f_equal.
      rewrite <- (fmap_S_seq 0), <- !list_fmap_compose.
      apply list_fmap_ext. intros _ j _. simpl. do 2 f_equal. lia.
    + do 2 f_equal. lia.
    + f_equal.
      rewrite <- app_assoc, <- fmap_app. do 2 f_equal.
      rewrite <- drop_drop.
      replace (S k * batch_size)%nat with (batch_size + k * batch_size)%nat
        by lia.
      by rewrite <- take_take_drop.
Qed.

Lemma ceil_quotient_nat (n b : nat) (s : Z) :
  (0 < b)%nat →
  Assembler.ceil_quotient n (Z.of_nat b) = Assembler.Return s →
  Z.to_nat s = (if decide (n `mod` b = 0) then n `div` b else S (n `div` b))%nat.
Proof.
  intros Hb Hs.
  apply AssemblerSpec.ceil_quotient_bounds in Hs; [|lia].
  pose proof (Nat.div_mod_eq n b) as Hdm.
  pose proof (Nat.mod_upper_bound n b ltac:(lia)) as Hub.
  case_decide; nia.
Qed.

(** X10. In single-pass mode, with files that all load and a batch size
    of at least 1, the first [ceil(n / batch_size)] requests (the step
    count that the descriptor hands to the consumers) all yield a batch;
    every one of these batches has at least one row and at most
    [batch_size], and together they hold the rows of all files, once and
    in the order of the file list. *)
Theorem steps_cover_all_files (steps : Z) (w : @world F Rng) :
  (0 < batch_size)%nat →
  Assembler.ceil_quotient (length fs) (Z.of_nat batch_size)
  = Assembler.Return steps →
  ∃ (batches : list batch) (st : gen_state),
    next_n zero_sample zero_label load_row shuffle batch_size false
      (Z.to_nat steps) (__data_generator fs) w
    = (Ok <$> batches, st,
       {| rng := rng w; trace := trace w ++ (EvLoad <$> fs) |})
    ∧ length batches = Z.to_nat steps
    ∧ Forall (λ b, (0 < rows b ≤ batch_size)%nat) batches
    ∧ concat (samples <$> batches) = smp <$> fs
    ∧ concat (labels <$> batches) = lab <$> fs.
Proof.
  intros Hb Hsteps. rewrite (ceil_quotient_nat _ _ _ Hb Hsteps).
  set (n := length fs). set (q := (n `div` batch_size)%nat).
  destruct (div_mod_bounds batch_size n Hb) as (Hle & Hmod & Hlt).
  fold q in Hle, Hmod.
  case_decide as Hr.
  - (* the batch size divides the number of files: [q] full batches *)
    set (cs := (λ t, take batch_size (drop (0 + t * batch_size) fs))
                 <$> seq 0 q).
    assert (chunks batch_size 0 q fs = cs ++ [[]]) as Hcs.
    { rewrite chunks_last. fold cs. do 2 f_equal.
      rewrite drop_ge by (simpl; fold n; lia). apply take_nil. }
    assert (concat cs = fs) as Hcat.
    { pose proof (concat_chunks batch_size fs q 0) as Hc.
      rewrite Hcs, concat_app in Hc.
      simpl in Hc. rewrite app_nil_r, drop_0 in Hc. apply Hc; fold n; lia. }
    exists (batch_of row <$> cs),
           (match q with
            | O => __data_generator fs
            | S _ => Suspended {| i := 0 + q * batch_size; run := true;
                                  files := fs |}
            end).
    split_and!.
    + destruct q as [|q'] eqn:Eq.
      * assert (fs = []) as Hnil by (apply length_zero_iff_nil; fold n; lia).
        destruct w as [g t]. simpl. rewrite Hnil. simpl.
        by rewrite app_nil_r.
      * assert (next_n zero_sample zero_label load_row shuffle batch_size
                  false (S q') (__data_generator fs) w
                = next_n zero_sample zero_label load_row shuffle batch_size
                    false (S q')
                    (Suspended {| i := 0; run := true; files := fs |}) w)
          as -> by done.
        rewrite next_n_full by (simpl; fold n; lia).
        rewrite drop_0, take_ge by (fold n; lia).
        fold cs. by rewrite <- list_fmap_compose.
    + unfold cs. by rewrite !length_fmap, length_seq.
    + apply Forall_fmap, Forall_fmap, Forall_forall. intros t Ht.
      apply elem_of_seq in Ht. unfold rows. simpl.
      rewrite !length_fmap, length_take, length_drop. fold n.
      assert (S t * batch_size ≤ q * batch_size)%nat
        by (apply Nat.mul_le_mono_r; lia).
      simpl in *. lia.
    + by rewrite samples_batch_of, Hcat.
    + by rewrite labels_batch_of, Hcat.
  - (* otherwise: [q] full batches and a short one *)
    exists (batch_of row <$> chunks batch_size 0 q fs). eexists. split_and!.
    + assert (next_n zero_sample zero_label load_row shuffle batch_size
                false (S q) (__data_generator fs) w
              = next_n zero_sample zero_label load_row shuffle batch_size
                  false (S q)
                  (Suspended {| i := 0; run := true; files := fs |}) w)
        as -> by done.
      rewrite (next_n_single zero_sample zero_label load_row shuffle
                 batch_size row fs load_ok) by (simpl; fold n; lia).
      by rewrite drop_0, <- list_fmap_compose.
    + unfold chunks. by rewrite !length_fmap, length_seq.
    + apply Forall_fmap.
      pose proof (length_chunks batch_size fs q 0 ltac:(simpl; fold n; lia))
        as Hlen.
      apply Forall_forall. intros c Hc. unfold rows. simpl.
      rewrite length_fmap.
      assert (length c ∈ length <$> chunks batch_size 0 q fs) as Hin
        by (apply list_elem_of_fmap; eauto).
      rewrite Hlen in Hin. apply elem_of_app in Hin as [Hin|Hin].
      * apply elem_of_replicate in Hin as [-> _]. lia.
      * apply list_elem_of_singleton in Hin. simpl in Hin. fold n in Hin. lia.
    + rewrite samples_batch_of, concat_chunks by (simpl; fold n; lia).
      by rewrite drop_0.
    + rewrite labels_batch_of, concat_chunks by (simpl; fold n; lia).
      by rewrite drop_0.
Qed.
End Gen.

Lemma steps_cover_all_files_witness :
  ∃ (batches : list batch) (st : gen_state),
    demo_next_n 4 false (Z.to_nat 2) (seq 0 8)
    = (Ok <$> batches, st,
       {| rng := rng demo_world;
          trace := trace demo_world ++ (EvLoad <$> seq 0 8) |})
    ∧ length batches = Z.to_nat 2
    ∧ Forall (λ b, (0 < rows b ≤ 4)%nat) batches
    ∧ concat (samples <$> batches) = (λ f, ((f, f).2 : nat)) <$> seq 0 8
    ∧ concat (labels <$> batches) = (λ f, ((f, f).1 : nat)) <$> seq 0 8.
Proof.
  apply (steps_cover_all_files 0%nat 0%nat demo_load demo_shuffle 4
           (λ f, (f, f)) (seq 0 8)); [done|lia|done].
Defined.

End GeneratorSteps.

(** ** Batch generation: a batch size of 0, a file that fails to load,
    and an empty file list *)

Module GeneratorEdges.
Import Generator GeneratorFacts GeneratorRepeat.

Section Gen.
Context {F Sample Label Rng : Type}.
Variable zero_sample : Sample.
Variable zero_label : Label.
Variable load_row : F → result (Label * Sample).
Variable shuffle : Rng → list F → list F * Rng.

(** X11. With a batch size of 0 the generator never terminates and never
    reads a file, in either mode: every request yields a batch without
    rows, the generator stays ready to run, and the only effect is the
    one shuffle that opens the repeating mode. *)
Theorem zero_batch_size_never_stops (sr : bool) (k : nat) (fs : list F)
    (w : @world F Rng) :
  ∃ fr,
    next_n zero_sample zero_label load_row shuffle 0 sr (S k)
      (__data_generator fs) w
    = (replicate (S k) (Ok {| samples := []; labels := [] |}),
       Suspended fr,
       {| rng := if sr then (shuffle (rng w) fs).2 else rng w;
          trace := trace w ++ (if sr then [EvShuffle] else []) |})
    ∧ run fr = true ∧ i fr = 0%nat.
Proof.
  assert (Hsusp : ∀ n fr w', run fr = true →
            next_n zero_sample zero_label load_row shuffle 0 sr n
              (Suspended fr) w'
            = (replicate n (Ok {| samples := []; labels := [] |}),
               Suspended fr, w')).
  { induction n as [|n IH]; intros fr w' Hrun; [done|].
    rewrite next_n_S. cbn [next]. unfold while_run. rewrite Hrun. simpl.
    by rewrite IH. }
  rewrite next_n_S. unfold __data_generator. cbn [next]. destruct sr.
  - unfold reshuffle. destruct (shuffle (rng w) fs) as [fs' g'] eqn:E.
    unfold while_run. simpl. rewrite Hsusp by done. by eexists.
  - unfold while_run. simpl. rewrite Hsusp by done.
    destruct w as [g t]. simpl. rewrite app_nil_r. by eexists.
Qed.

Variable batch_size : nat.
Variable row : F → Label * Sample.
Variable pre : list F.
Variable bad : F.
Variable post : list F.
Variable e : pyerr.
Hypothesis load_pre : ∀ f, f ∈ pre → load_row f = Ok (row f).
Hypothesis load_bad : load_row bad = Raise e.

Local Abbreviation smp := (λ f, (row f).2).
Local Abbreviation lab := (λ f, (row f).1).
Local Abbreviation cur := (pre ++ bad :: post).

(** A stretch of [m] rounds over files that load. *)
Lemma for_j_loads (sr : bool) (m j0 i : nat) (r : bool)
    (ss zs ts : list Sample) (ls zl tl : list Label) (w : @world F Rng) :
  length ss = j0 → length ls = j0 → length zs = m → length zl = m →
  (i + m ≤ length pre)%nat →
  for_j load_row shuffle sr (seq j0 m)
    {| i := i; run := r; files := cur |}
    {| samples := ss ++ zs ++ ts; labels := ls ++ zl ++ tl |} w
  = (Ok ({| i := i + m; run := r; files := cur |},
         {| samples := ss ++ (smp <$> take m (drop i pre)) ++ ts;
            labels := ls ++ (lab <$> take m (drop i pre)) ++ tl |}),
     {| rng := rng w;
        trace := trace w ++ (EvLoad <$> take m (drop i pre)) |}).
Proof.
  revert j0 i ss ls zs zl w.
  induction m as [|m IH]; intros j0 i ss ls zs zl [g t] Hss Hls Hzs Hzl Hi.
  - destruct zs, zl; try done. simpl. by rewrite Nat.add_0_r, app_nil_r.
  - destruct zs as [|z zs], zl as [|z' zl]; try done.
    destruct (lookup_lt_is_Some_2 pre i) as [f Hf]; [lia|].
    assert (f ∈ pre) as Hin by by eapply list_elem_of_lookup_2.
    assert (cur !! i = Some f) as Hcur by by apply lookup_app_l_Some.
    cbn [seq].
    rewrite (for_j_cons_load load_row shuffle row pre load_pre
               sr j0 _ i r cur f _ _ Hcur Hin).
    cbn [samples labels rng trace app].
    rewrite (insert_middle ss), (insert_middle ls) by done.
    rewrite IH by (rewrite ?length_app; simpl in *; lia).
    rewrite (drop_S pre f i Hf). cbn [take fmap list_fmap].
    rewrite <- !app_assoc. cbn [app rng trace].
    rewrite <- (app_assoc t). simpl.
    by replace (S (i + m)) with (i + S m)%nat by lia.
Qed.

(** A stretch of rounds that reaches the file that fails. *)
Lemma for_j_hits_failure (sr : bool) (m j0 i : nat) (r : bool) (b : batch)
    (w : @world F Rng) :
  (i ≤ length pre)%nat → (length pre < i + m)%nat →
  for_j load_row shuffle sr (seq j0 m)
    {| i := i; run := r; files := cur |} b w
  = (Raise e,
     {| rng := rng w;
        trace := trace w ++ (EvLoad <$> (drop i pre ++ [bad])) |}).
Proof.
  revert j0 i b w.
  induction m as [|m IH]; intros j0 i b [g t] Hi Hm; [lia|].
  destruct (decide (i = length pre)) as [->|Hne].
  - cbn [seq for_j files Generator.i].
    rewrite bool_decide_eq_false_2 by (rewrite length_app; simpl; lia).
    unfold load_into. cbn [files Generator.i].
    rewrite list_lookup_middle by done. rewrite load_bad.
    by rewrite drop_ge by lia.
  - destruct (lookup_lt_is_Some_2 pre i) as [f Hf]; [lia|].
    assert (f ∈ pre) as Hin by by eapply list_elem_of_lookup_2.
    assert (cur !! i = Some f) as Hcur by by apply lookup_app_l_Some.
    cbn [seq].
    rewrite (for_j_cons_load load_row shuffle row pre load_pre
               sr j0 _ i r cur f _ _ Hcur Hin).
    rewrite IH by lia. cbn [rng trace].
    rewrite (drop_S pre f i Hf). simpl. by rewrite <- app_assoc.
Qed.

Lemma next_n_before_failure (k i : nat) (w : @world F Rng) :
  (0 < batch_size)%nat → (i + k * batch_size ≤ length pre)%nat →
  next_n zero_sample zero_label load_row shuffle batch_size false k
    (Suspended {| i := i; run := true; files := cur |}) w
  = ((λ l, Ok (batch_of row l))
       <$> ((λ t, take batch_size (drop (i + t * batch_size) pre))
              <$> seq 0 k),
     Suspended {| i := i + k * batch_size; run := true; files := cur |},
     {| rng := rng w;
        trace := trace w ++ (EvLoad <$> take (k * batch_size) (drop i pre)) |}).
Proof.
  intros Hb. revert i w. induction k as [|k IH]; intros i [g t] Hle.
  - simpl. by rewrite Nat.add_0_r, app_nil_r.
  - rewrite next_n_S. cbn [next]. unfold while_run. cbn [run].
    pose proof (for_j_loads false batch_size 0 i true []
                  (replicate batch_size zero_sample) []
                  [] (replicate batch_size zero_label) []
                  {| rng := g; trace := t |}) as Hfor.
    rewrite !app_nil_r in Hfor. simpl in Hfor.
    rewrite Hfor by (rewrite ?length_replicate; simpl in Hle; lia).
    rewrite IH by (simpl in *; lia).
    cbn [rng trace]. f_equal; [f_equal|].
    + rewrite <- cons_seq, !fmap_cons.
      rewrite Nat.mul_0_l, Nat.add_0_r. do 2 f_equal.
      rewrite <- (fmap_S_seq 0), <- list_fmap_compose.
      apply list_fmap_ext. intros _ j _. simpl. do 2 f_equal. lia.
    + do 2 f_equal. lia.
    + f_equal.
      rewrite <- app_assoc, <- fmap_app. do 2 f_equal.
      rewrite <- drop_drop.
      replace (S k * batch_size)%nat with (batch_size + k * batch_size)%nat
        by lia.
      by rewrite <- take_take_drop.
Qed.

(** X12. In single-pass mode, when the files before position [p] load
    and the file at position [p] raises an exception, the first
    [p // batch_size] requests yield full batches with the rows of the
    files before them, the next request raises that exception after
    reading the files up to the failing one, and the generator is
    finished: the rows read for the failing batch are never yielded, no
    later file is read, and every further request raises
    [StopIteration]. *)
Theorem failing_file_ends_generator (k : nat) (w : @world F Rng) :
  (0 < batch_size)%nat →
  let q := (length pre `div` batch_size)%nat in
  ∃ batches : list batch,
    next_n zero_sample zero_label load_row shuffle batch_size false
      (q + S k) (__data_generator cur) w
    = ((Ok <$> batches) ++ Raise e :: replicate k (Raise StopIteration),
       Finished,
       {| rng := rng w; trace := trace w ++ (EvLoad <$> pre ++ [bad]) |})
    ∧ length batches = q
    ∧ Forall (λ b, rows b = batch_size) batches
    ∧ concat (samples <$> batches) = smp <$> take (q * batch_size) pre
    ∧ concat (labels <$> batches) = lab <$> take (q * batch_size) pre.
Proof.
  intros Hb q.
  destruct (div_mod_bounds batch_size (length pre) Hb) as (Hle & Hmod & Hlt).
  fold q in Hle, Hmod.
  set (cs := (λ t, take batch_size (drop (0 + t * batch_size) pre))
               <$> seq 0 q).
  assert (Hcat : ∀ m, concat ((λ t, take batch_size
                                      (drop (0 + t * batch_size) pre))
                               <$> seq 0 m)
                      = take (m * batch_size) pre).
  { induction m as [|m IHm]; [done|].
    rewrite seq_S, fmap_app, concat_app, IHm. simpl. rewrite app_nil_r.
    replace (batch_size + m * batch_size)%nat
      with (m * batch_size + batch_size)%nat by lia.
    by rewrite take_take_drop. }
  exists (batch_of row <$> cs). split_and!.
  - replace (q + S k)%nat with (S (q + k)) by lia.
    assert (next_n zero_sample zero_label load_row shuffle batch_size
              false (S (q + k)) (__data_generator cur) w
            = next_n zero_sample zero_label load_row shuffle batch_size
                false (S (q + k))
                (Suspended {| i := 0; run := true; files := cur |}) w)
      as -> by done.
    replace (S (q + k)) with (q + S k)%nat by lia.
    rewrite next_n_add, next_n_before_failure by (simpl; lia).
    rewrite next_n_S. cbn [next]. unfold while_run. cbn [run].
    rewrite for_j_hits_failure by (simpl; lia).
    rewrite next_n_finished. cbn [rng trace].
    fold cs. rewrite <- list_fmap_compose. f_equal. f_equal.
    rewrite <- app_assoc, <- fmap_app. do 2 f_equal.
    rewrite drop_0, app_assoc. f_equal. simpl. apply take_drop.
  - unfold cs. by rewrite !length_fmap, length_seq.
  - apply Forall_fmap, Forall_fmap, Forall_forall. intros t Ht.
    apply elem_of_seq in Ht. unfold rows. simpl.
    rewrite !length_fmap, length_take, length_drop.
    assert (S t * batch_size ≤ q * batch_size)%nat
      by (apply Nat.mul_le_mono_r; lia).
    simpl in *. lia.
  - unfold cs. by rewrite (samples_batch_of row), Hcat.
  - unfold cs. by rewrite (labels_batch_of row), Hcat.
Qed.

(** X13. In repeating mode an empty file list does not give an endless
    stream: provided that shuffling the empty list returns the empty
    list, the first request shuffles twice, raises [IndexError] on
    [files[0]], and finishes the generator. *)
Theorem repeating_empty_list_raises (k : nat) (w : @world F Rng) :
  (∀ g, (shuffle g []).1 = []) →
  (0 < batch_size)%nat →
  ∃ w',
    next_n zero_sample zero_label load_row shuffle batch_size true (S k)
      (__data_generator []) w
    = (Raise IndexError :: replicate k (Raise StopIteration), Finished, w')
    ∧ trace w' = trace w ++ [EvShuffle; EvShuffle].
Proof.
  intros Hsh Hb. rewrite next_n_S. unfold __data_generator. cbn [next].
  unfold reshuffle.
  pose proof (Hsh (rng w)) as H1.
  destruct (shuffle (rng w) []) as [fs1 g1]. simpl in H1. subst fs1.
  unfold while_run. cbn [run].
  destruct batch_size as [|b]; [lia|].
  cbn [seq for_j files Generator.i length]. simpl bool_decide.
  unfold reshuffle. cbn [rng trace].
  pose proof (Hsh g1) as H2.
  destruct (shuffle g1 []) as [fs2 g2]. simpl in H2. subst fs2.
  unfold load_into. cbn [files Generator.i]. simpl.
  rewrite next_n_finished. eexists. split; [done|].
  simpl. by rewrite <- app_assoc.
Qed.
End Gen.

Lemma failing_file_ends_generator_witness :
  ∃ batches : list batch,
    next_n 0%nat 0%nat
      (λ f, if decide (f = 5%nat) then Raise ValueError else Ok (f, f))
      demo_shuffle 2 false (2 + 1) (__data_generator ([0; 1; 2; 3; 4] ++ 5 :: [6]))%nat
      demo_world
    = ((Ok <$> batches) ++ Raise ValueError :: replicate 0 (Raise StopIteration),
       Finished,
       {| rng := rng demo_world;
          trace := trace demo_world
                   ++ (EvLoad <$> [0; 1; 2; 3; 4] ++ [5])%nat |})
    ∧ length batches = 2%nat.
Proof.
  destruct (failing_file_ends_generator 0%nat 0%nat
              (λ f, if decide (f = 5%nat) then Raise ValueError else Ok (f, f))
              demo_shuffle 2 (λ f, (f, f)) [0; 1; 2; 3; 4]%nat 5%nat [6]%nat
              ValueError) with (k := 0%nat) (w := demo_world)
    as (batches & Hrun & Hlen & _).
  - intros f Hf. rewrite decide_False; [done|].
    intros ->. by repeat (apply elem_of_cons in Hf as [Hf|Hf]; [done|]);
      apply elem_of_nil in Hf.
  - done.
  - lia.
  - exists batches. split; [exact Hrun|exact Hlen].
Defined.

Lemma repeating_empty_list_raises_witness :
  ∃ w',
    demo_next_n 3 true 2 []
    = (Raise IndexError :: replicate 1 (Raise StopIteration), Finished, w')
    ∧ trace w' = trace demo_world ++ [EvShuffle; EvShuffle].
Proof.
  apply (repeating_empty_list_raises 0%nat 0%nat demo_load demo_shuffle 3 1
           demo_world); [|lia].
  intros g. unfold demo_shuffle, rotate. simpl.
  by rewrite drop_nil, take_nil.
Defined.

End GeneratorEdges.

(** ** Copper content *)

Module CopperSpec.
Import Copper.

Lemma length_filter_mono {A} (P1 P2 : A → Prop)
    `{∀ x, Decision (P1 x)} `{∀ x, Decision (P2 x)} (l : list A) :
  (∀ x, P1 x → P2 x) →
  (length (filter P1 l) ≤ length (filter P2 l))%nat.
Proof.
  intros Himp. induction l as [|x l IH]; [done|].
  rewrite !filter_cons. destruct (decide (P1 x)) as [H1|H1].
  - rewrite decide_True by auto. simpl. lia.
  - destruct (decide (P2 x)); simpl; lia.
Qed.

Lemma exact_div_mono (a b n : nat) :
  (a ≤ b)%nat → (exact_div a n <= exact_div b n)%Q.
Proof.
  intros Hab. unfold exact_div, Qdiv. apply Qmult_le_compat_r.
  - rewrite <- Zle_Qle. lia.
  - apply Qinv_le_0_compat. change 0%Q with (inject_Z 0).
    rewrite <- Zle_Qle. lia.
Qed.

Section Lines.
Variable copper_lines_indices : list nat.
Variable true_div : nat → nat → Q.
Hypothesis true_div_mono :
  ∀ a b n, (a ≤ b)%nat → (true_div a n <= true_div b n)%Q.

Local Abbreviation N := (length copper_lines_indices).

Lemma lines_loop_spec (spectrum : list Q) (amount_t drop_t : Q)
    (clis : list nat) (low : nat) :
  (∀ cli, cli ∈ clis → (cli < length spectrum)%nat) →
  (clis = [] → Qltb amount_t (true_div low N) = false) →
  lines_loop copper_lines_indices true_div spectrum amount_t drop_t clis low
  = Ok (negb (Qltb amount_t
                (true_div (low + low_lines spectrum drop_t clis) N))).
Proof.
  revert low. induction clis as [|cli clis IH]; intros low Hin Hnil.
  - simpl. unfold low_lines. simpl. rewrite Nat.add_0_r.
    by rewrite Hnil.
  - simpl.
    destruct (lookup_lt_is_Some_2 spectrum cli) as [v Hv]; [apply Hin; left|].
    rewrite Hv.
    set (low' := if Qltb v drop_t then S low else low).
    assert (low + low_lines spectrum drop_t (cli :: clis)
            = low' + low_lines spectrum drop_t clis)%nat as ->.
    { assert (is_low spectrum drop_t cli = Qltb v drop_t) as Hlow
        by (unfold is_low; by rewrite Hv).
      unfold low_lines, low'. rewrite filter_cons.
      destruct (Qltb v drop_t).
      - rewrite decide_True by done. simpl. lia.
      - rewrite decide_False by (by rewrite Hlow). lia. }
    destruct (Qltb amount_t (true_div low' N)) eqn:E.
    + apply Qltb_lt in E. f_equal. symmetry. apply negb_false_iff.
      apply Qltb_lt. eapply Qlt_le_trans; [exact E|].
      apply true_div_mono. lia.
    + apply IH; [|done]. intros c Hc. apply Hin. by right.
Qed.

(** X14. For a spectrum that covers every copper line, the early exit of
    [has_sufficient_copper] does not change its answer: the function
    returns [False] exactly when the fraction of the copper lines whose
    intensity is below [drop_t], taken over all lines, exceeds
    [amount_t]. *)
Theorem copper_threshold (spectrum : list Q) (amount_t drop_t : Q) :
  copper_lines_indices ≠ [] →
  (∀ cli, cli ∈ copper_lines_indices → (cli < length spectrum)%nat) →
  has_sufficient_copper copper_lines_indices true_div spectrum amount_t drop_t
  = Ok (negb (Qltb amount_t
                (true_div (low_lines spectrum drop_t copper_lines_indices)
                          N))).
Proof.
  intros Hne Hin. unfold has_sufficient_copper.
  by rewrite lines_loop_spec.
Qed.

(** X15. The copper test is monotone in its thresholds: a spectrum that is
    accepted stays accepted when [amount_t] is raised or [drop_t] is
    lowered. *)
Theorem copper_monotone (spectrum : list Q) (amount_t drop_t : Q)
    (amount_t' drop_t' : Q) :
  copper_lines_indices ≠ [] →
  (∀ cli, cli ∈ copper_lines_indices → (cli < length spectrum)%nat) →
  (amount_t <= amount_t')%Q → (drop_t' <= drop_t)%Q →
  has_sufficient_copper copper_lines_indices true_div spectrum amount_t drop_t
  = Ok true →
  has_sufficient_copper copper_lines_indices true_div spectrum
    amount_t' drop_t'
  = Ok true.
Proof.
  intros Hne Hin Ha Hd. unfold has_sufficient_copper.
  rewrite !lines_loop_spec by done. simpl.
  intros [= Hacc]. f_equal.
  apply negb_true_iff in Hacc. apply negb_true_iff.
  apply Qltb_ge in Hacc. apply Qltb_ge.
  eapply Qle_trans; [|exact Ha]. eapply Qle_trans; [|exact Hacc].
  apply true_div_mono. unfold low_lines. apply length_filter_mono.
  intros cli. unfold is_low. destruct (spectrum !! cli) as [v|]; [|done].
  rewrite !Qltb_lt. intros Hv. by eapply Qlt_le_trans.
Qed.
End Lines.

Lemma copper_threshold_witness :
  has_sufficient_copper [0; 2; 3]%nat exact_div [1; 9; 2; 7]%Q (1 # 2) 3
  = Ok false.
Proof.
  by rewrite (copper_threshold [0; 2; 3]%nat exact_div exact_div_mono
                [1; 9; 2; 7]%Q (1 # 2) 3);
    [|done|intros cli Hcli; simpl;
           repeat (apply elem_of_cons in Hcli as [->|Hcli]; [lia|]);
           by apply elem_of_nil in Hcli].
Defined.

Lemma copper_monotone_witness :
  has_sufficient_copper [0; 2; 3]%nat exact_div [1; 9; 2; 7]%Q (3 # 4) 2
  = Ok true.
Proof.
  apply (copper_monotone [0; 2; 3]%nat exact_div exact_div_mono
           [1; 9; 2; 7]%Q (2 # 3) 3 (3 # 4) 2).
  - done.
  - intros cli Hcli. simpl.
    repeat (apply elem_of_cons in Hcli as [->|Hcli]; [lia|]).
    by apply elem_of_nil in Hcli.
  - done.
  - done.
  - done.
Defined.

End CopperSpec.

(** ** Accuracy heatmaps *)

Module HeatmapSpec.
Import Grid GridSpec Heatmap.

Local Abbreviation grid8 :=
  (λ g : list (list Q), length g = 8%nat ∧ Forall (λ r, length r = 8%nat) g).

Lemma np_index_nat (n a : nat) :
  (a < n)%nat → np_index n (Z.of_nat a) = Ok a.
Proof.
  intros Ha. unfold np_index. rewrite decide_True by lia.
  by rewrite Nat2Z.id.
Qed.

Lemma cell_zeros (n a b c : nat) :
  (a < n)%nat → (b < 8)%nat → (c < 8)%nat →
  cell (replicate n (replicate 8 (replicate 8 0%Q))) a b c = Some 0%Q.
Proof.
  intros Ha Hb Hc. unfold cell.
  rewrite lookup_replicate_2 by done. cbn [mbind option_bind].
  rewrite lookup_replicate_2 by done. cbn [mbind option_bind].
  by rewrite lookup_replicate_2.
Qed.

(** Writing one cell changes this cell and no other. *)
Lemma set_grid_cell_spec (h : grids) (a b c : nat) (v : Q) :
  Forall grid8 h → (a < length h)%nat → (b < 8)%nat → (c < 8)%nat →
  ∃ h1,
    set_grid_cell h (Z.of_nat a) (Z.of_nat b) (Z.of_nat c) v = Ok h1
    ∧ length h1 = length h
    ∧ Forall grid8 h1
    ∧ cell h1 a b c = Some v
    ∧ (∀ a' b' c', (a', b', c') ≠ (a, b, c) →
         cell h1 a' b' c' = cell h a' b' c').
Proof.
  intros Hdim Ha Hb Hc.
  exists (alter (alter (<[c := v]>) b) a h).
  destruct (lookup_lt_is_Some_2 h a Ha) as [g Hg].
  assert (grid8 g) as [Hg8 Hrows].
  { rewrite Forall_forall in Hdim. apply Hdim.
    by eapply list_elem_of_lookup_2. }
  destruct (lookup_lt_is_Some_2 g b) as [r Hr]; [lia|].
  assert (length r = 8%nat) as Hr8.
  { rewrite Forall_forall in Hrows. apply Hrows.
    by eapply list_elem_of_lookup_2. }
  split_and!.
  - unfold set_grid_cell. by rewrite !np_index_nat.
  - by rewrite length_alter.
  - apply Forall_alter; [done|]. intros g' _ [Hl Hf]. split.
    + by rewrite length_alter.
    + apply Forall_alter; [done|]. intros r' _ Hr'.
      by rewrite length_insert.
  - unfold cell. rewrite list_lookup_alter_eq, Hg. simpl.
    rewrite list_lookup_alter_eq, Hr. simpl.
    apply list_lookup_insert_eq. lia.
  - intros a' b' c' Hne. unfold cell.
    destruct (decide (a' = a)) as [->|Ha'].
    2:{ by rewrite list_lookup_alter_ne. }
    rewrite list_lookup_alter_eq, Hg. simpl.
    destruct (decide (b' = b)) as [->|Hb'].
    2:{ by rewrite list_lookup_alter_ne. }
    rewrite list_lookup_alter_eq, Hr. simpl.
    destruct (decide (c' = c)) as [->|Hc']; [done|].
    by rewrite list_lookup_insert_ne.
Qed.

(** The loop over the predictions: a cell that no row addresses keeps
    its value, and a cell holds the prediction of the last row that
    addresses it. *)
Lemma scatter_spec (tm : list (list Z)) (preds : list Q) (i : nat)
    (h : grids) :
  Forall grid8 h →
  (∀ k row, (i ≤ k < i + length preds)%nat → tm !! k = Some row →
     ∃ a b c : nat,
       row = [Z.of_nat a; Z.of_nat b; Z.of_nat c]
       ∧ (a < length h)%nat ∧ (b < 8)%nat ∧ (c < 8)%nat) →
  (i + length preds ≤ length tm)%nat →
  ∃ h',
    scatter tm i preds h = Ok h'
    ∧ length h' = length h
    ∧ Forall grid8 h'
    ∧ (∀ a b c : nat,
         (∀ k, (i ≤ k < i + length preds)%nat →
               tm !! k ≠ Some [Z.of_nat a; Z.of_nat b; Z.of_nat c]) →
         cell h' a b c = cell h a b c)
    ∧ (∀ (k : nat) p (a b c : nat),
         (i ≤ k)%nat → preds !! (k - i)%nat = Some p →
         tm !! k = Some [Z.of_nat a; Z.of_nat b; Z.of_nat c] →
         (∀ k', (k < k' < i + length preds)%nat →
                tm !! k' ≠ Some [Z.of_nat a; Z.of_nat b; Z.of_nat c]) →
         cell h' a b c = Some p).
Proof.
  revert i h. induction preds as [|p0 rest IH]; intros i h Hdim Hrows Hlen.
  - exists h. split_and!; done.
  - simpl in Hlen.
    destruct (lookup_lt_is_Some_2 tm i) as [row Hrow]; [lia|].
    destruct (Hrows i row) as (a0 & b0 & c0 & -> & Ha0 & Hb0 & Hc0);
      [simpl; lia|done|].
    destruct (set_grid_cell_spec h a0 b0 c0 p0 Hdim Ha0 Hb0 Hc0)
      as (h1 & Hset & Hlen1 & Hdim1 & Hcell1 & Hother1).
    destruct (IH (S i) h1) as (h' & Hsc & Hlen' & Hdim' & Hkeep & Hlast).
    { done. }
    { intros k row Hk Hr. rewrite Hlen1. apply (Hrows k row); [simpl; lia|done]. }
    { lia. }
    exists h'. split_and!.
    + cbn [scatter].
      assert (item tm i = Ok [Z.of_nat a0; Z.of_nat b0; Z.of_nat c0]) as ->
        by (unfold item; by rewrite Hrow).
      cbn [mbind result_bind]. unfold item. cbn [lookup list_lookup].
      cbn [mbind result_bind]. rewrite Hset. cbn [mbind result_bind].
      exact Hsc.
    + by rewrite Hlen', Hlen1.
    + done.
    + intros a b c Hno. rewrite Hkeep.
      * apply Hother1. intros [= -> -> ->].
        by apply (Hno i); [simpl; lia|].
      * intros k Hk. apply Hno. simpl. lia.
    + intros k p a b c Hk Hp Hr Hno.
      destruct (decide (k = i)) as [->|Hne].
      * rewrite Nat.sub_diag in Hp. injection Hp as <-.
        rewrite Hrow in Hr. injection Hr as Ha Hb Hc.
        apply Nat2Z.inj in Ha, Hb, Hc. subst a0 b0 c0.
        rewrite Hkeep; [done|]. intros k' Hk'. apply Hno. simpl. lia.
      * apply (Hlast k); [lia| |done|].
        -- replace (k - i)%nat with (S (k - S i)) in Hp by lia. done.
        -- intros k' Hk'. apply Hno. simpl. lia.
Qed.

(** X16. For a non-empty list of test files whose names parse and whose
    shot numbers lie in 1..64, and one prediction per file, the array of
    [compute_accuracy_heatmaps] is built without error on the matrix of
    the Grid Reconstructor: it has one 8×8 grid per run of files; a cell
    that is addressed by a file holds the prediction of the last such
    file, and every other cell is 0. *)
Theorem heatmap_holds_predictions (sep : ascii) (files : list string)
    (preds : list Q) :
  files ≠ [] → length preds = length files →
  (∀ f, f ∈ files → ∃ key s,
      mp_key sep f = Ok key ∧ shot_number f = Ok s ∧ 1 ≤ s ≤ 64) →
  ∃ tm h,
    get_64shot_transition_matrix sep files = Some (Ok tm)
    ∧ compute_accuracy_heatmaps tm preds = Ok h
    ∧ Forall (λ g, length g = 8%nat ∧ Forall (λ r, length r = 8%nat) g) h
    ∧ (∃ row, last tm = Some row
              ∧ row !! 0%nat = Some (Z.of_nat (length h) - 1))
    ∧ (∀ (k : nat) p (a b c : nat),
         preds !! k = Some p →
         tm !! k = Some [Z.of_nat a; Z.of_nat b; Z.of_nat c] →
         (∀ k', (k < k')%nat →
                tm !! k' ≠ Some [Z.of_nat a; Z.of_nat b; Z.of_nat c]) →
         cell h a b c = Some p)
    ∧ (∀ a b c : nat,
         (a < length h)%nat → (b < 8)%nat → (c < 8)%nat →
         (∀ k, tm !! k ≠ Some [Z.of_nat a; Z.of_nat b; Z.of_nat c]) →
         cell h a b c = Some 0%Q).
Proof.
  intros Hne Hlen Hok.
  assert (Hparse : ∀ f, f ∈ files → ∃ key s,
            mp_key sep f = Ok key ∧ shot_number f = Ok s).
  { intros f Hf. destruct (Hok f Hf) as (key & s & ? & ? & _). eauto. }
  pose proof (GridTheorem.transition_matrix_eq sep files Hparse) as Heq.
  set (ids := run_indices (mp_key sep <$> files)) in *.
  match type of Heq with
  | _ = Some (Ok ?t) => set (tm := t) in *
  end.
  assert (Hids : length ids = length files)
    by (unfold ids; by rewrite length_run_indices, length_fmap).
  assert (Htm : length tm = length files)
    by (unfold tm; rewrite length_zip_with; lia).
  (* the shape of the rows *)
  assert (Hrow : ∀ k row, tm !! k = Some row →
            ∃ mp r c, row = [mp; r; c] ∧ ids !! k = Some mp
                      ∧ 0 ≤ mp ∧ 0 ≤ r < 8 ∧ 0 ≤ c < 8).
  { intros k row Hr. unfold tm in Hr.
    apply lookup_zip_with_Some in Hr as (mp & f & -> & Hmp & Hf).
    destruct (Hok f) as (_ & s & _ & Hs & Hrange);
      [by eapply list_elem_of_lookup_2|].
    unfold shot_index. rewrite Hs. simpl.
    exists mp, ((s - 1) `div` 8), ((s - 1) `mod` 8).
    assert (0 ≤ mp).
    { destruct (lookup_lt_is_Some_2 ids 0) as [x Hx];
        [apply lookup_lt_Some in Hmp; lia|].
      pose proof (GridCells.run_indices_growth (mp_key sep <$> files) 0 k x mp Hx Hmp ltac:(lia)).
      lia. }
    pose proof (Z.div_mod (s - 1) 8 ltac:(lia)).
    pose proof (Z.mod_pos_bound (s - 1) 8 ltac:(lia)).
    split_and!; try done; lia. }
  (* the first column and its maximum *)
  set (col := (λ row : list Z, default 0 (row !! 0%nat)) <$> tm).
  assert (Hcol : traverse (λ row, item row 0) tm = Ok col).
  { apply traverse_ok. intros row Hin.
    apply list_elem_of_lookup in Hin as [k Hk].
    destruct (Hrow k row Hk) as (mp & r & c & -> & _). done. }
  assert (Hcolk : ∀ k mp, ids !! k = Some mp → col !! k = Some mp).
  { intros k mp Hmp.
    destruct (lookup_lt_is_Some_2 tm k) as [row Hr];
      [apply lookup_lt_Some in Hmp; lia|].
    destruct (Hrow k row Hr) as (mp' & r & c & -> & Hmp' & _).
    unfold col. rewrite list_lookup_fmap, Hr. simpl. congruence. }
  assert (col ≠ []) as Hcne.
  { intros Hnil. apply (f_equal length) in Hnil. unfold col in Hnil.
    rewrite length_fmap, Htm in Hnil. by destruct files. }
  destruct (RemapFacts.np_max_int_spec col Hcne) as (m & Hmax & Hmin & Hmle).
  assert (Hm : ∃ km, ids !! km = Some m).
  { apply list_elem_of_lookup in Hmin as [km Hkm]. exists km.
    destruct (lookup_lt_is_Some_2 ids km) as [x Hx].
    { apply lookup_lt_Some in Hkm. unfold col in Hkm.
      rewrite length_fmap in Hkm. lia. }
    rewrite (Hcolk km x Hx) in Hkm. congruence. }
  destruct Hm as [km Hkm].
  assert (0 ≤ m) as Hm0.
  { pose proof (GridCells.run_indices_growth (mp_key sep <$> files) km km m m Hkm Hkm ltac:(lia)).
    lia. }
  set (h0 := replicate (Z.to_nat (m + 1)) (replicate 8 (replicate 8 0%Q))).
  assert (Forall grid8 h0) as Hdim0.
  { apply Forall_replicate. split; [by rewrite length_replicate|].
    apply Forall_replicate. by rewrite length_replicate. }
  destruct (scatter_spec tm preds 0 h0 Hdim0)
    as (h & Hsc & Hlh & Hdim & Hkeep & Hlast).
  { intros k row _ Hr.
    destruct (Hrow k row Hr) as (mp & r & c & -> & Hmp & H0 & Hr8 & Hc8).
    exists (Z.to_nat mp), (Z.to_nat r), (Z.to_nat c).
    rewrite !Z2Nat.id by lia. split; [done|].
    unfold h0. rewrite length_replicate.
    pose proof (Hmle mp ltac:(eapply list_elem_of_lookup_2; by apply Hcolk)).
    lia. }
  { lia. }
  unfold h0 in Hlh. rewrite length_replicate in Hlh.
  exists tm, h. split_and!.
  - done.
  - unfold compute_accuracy_heatmaps, max_first_column.
    rewrite Hcol. simpl. rewrite Hmax. simpl. unfold zeros.
    by rewrite decide_False by lia.
  - done.
  - destruct (lookup_lt_is_Some_2 tm (pred (length tm))) as [row Hr].
    { rewrite Htm. destruct files; [done|simpl; lia]. }
    exists row. split; [by rewrite last_lookup|].
    destruct (Hrow _ row Hr) as (mp & r & c & -> & Hmp & _).
    simpl. f_equal.
    pose proof (Hmle mp ltac:(eapply list_elem_of_lookup_2; by apply Hcolk)).
    assert (km ≤ pred (length tm))%nat
      by (apply lookup_lt_Some in Hkm; lia).
    pose proof (GridCells.run_indices_growth (mp_key sep <$> files) km _ m mp Hkm Hmp ltac:(lia)).
    lia.
  - intros k p a b c Hp Hr Hno.
    apply (Hlast k); [lia|by rewrite Nat.sub_0_r|done|].
    intros k' Hk'. apply Hno. lia.
  - intros a b c Ha Hb Hc Hno. rewrite Hkeep by (intros k _; apply Hno).
    apply cell_zeros; [lia|done|done].
Qed.

Lemma heatmap_holds_predictions_witness :
  ∃ tm h,
    get_64shot_transition_matrix "/"
      ["t/0011_001_002_000_00064.npz"; "t/0011_001_002_001_00009.npz"]
    = Some (Ok tm)
    ∧ compute_accuracy_heatmaps tm [1 # 2; 3 # 4]%Q = Ok h
    ∧ length h = 2%nat
    ∧ cell h 0 7 7 = Some (1 # 2)%Q
    ∧ cell h 1 1 0 = Some (3 # 4)%Q
    ∧ cell h 1 0 0 = Some 0%Q.
Proof.
  destruct (heatmap_holds_predictions "/"
              ["t/0011_001_002_000_00064.npz"; "t/0011_001_002_001_00009.npz"]
              [1 # 2; 3 # 4]%Q)
    as (tm & h & Htm & Hh & _).
  - done.
  - done.
  - intros f Hf.
    apply elem_of_cons in Hf as [->|Hf]; [by eexists _, 64|].
    apply elem_of_cons in Hf as [->|Hf]; [by eexists _, 9|].
    by apply elem_of_nil in Hf.
  - exists tm, h. split; [done|]. split; [done|].
    vm_compute in Htm. injection Htm as <-.
    vm_compute in Hh. injection Hh as <-. done.
Defined.

End HeatmapSpec.

(** ** The split of the synthetic spectra *)

Module SyntheticSpec.
Import Synthetic.

Lemma concat_perm {A} (l k : list (list A)) : l ≡ₚ k → concat l ≡ₚ concat k.
Proof.
  induction 1 as [|x l k _ IH|x y l|l k m _ IH1 _ IH2]; simpl.
  - done.
  - by rewrite IH.
  - rewrite !app_assoc. f_equiv. apply Permutation_app_comm.
  - by rewrite IH1.
Qed.

Lemma concat_fmap_app {A B} (f g : A → list B) (l : list A) :
  concat (f <$> l) ++ concat (g <$> l) ≡ₚ concat ((λ x, f x ++ g x) <$> l).
Proof.
  induction l as [|x l IH]; [done|]. csimpl. rewrite <- IH.
  rewrite <- !app_assoc. f_equiv. rewrite !app_assoc. f_equiv.
  apply Permutation_app_comm.
Qed.

Lemma concat_fmap_submseteq {A B} (f g : A → list B) (l : list A) :
  (∀ x, f x ⊆+ g x) → concat (f <$> l) ⊆+ concat (g <$> l).
Proof.
  intros Hfg. induction l as [|x l IH]; [done|]. csimpl.
  by apply submseteq_app.
Qed.

Lemma slices_take {A} (a b c : Z) (v : list A) :
  0 ≤ a ≤ b → b ≤ c →
  slice 0 a v ++ slice a b v ++ slice b c v = take (Z.to_nat c) v.
Proof.
  intros Hab Hbc. unfold slice. rewrite drop_0, Z.sub_0_r.
  rewrite app_assoc, take_take_drop.
  replace (Z.to_nat a + Z.to_nat (b - a))%nat with (Z.to_nat b) by lia.
  rewrite take_take_drop. f_equal. lia.
Qed.

Lemma submseteq_NoDup {A} (l k : list A) : l ⊆+ k → NoDup k → NoDup l.
Proof.
  intros Hsub Hk. apply submseteq_Permutation in Hsub as [k' Hk'].
  rewrite Hk' in Hk. by apply NoDup_app in Hk as (? & _).
Qed.

Section Split.
Context {F : Type}.
Variable sorted_values : list (list F) → list (list F).
Hypothesis sorted_values_perm : ∀ vs, sorted_values vs ≡ₚ vs.

Lemma collected_submseteq (data : list (list (list F))) (a b c : Z) :
  0 ≤ a ≤ b → b ≤ c →
  collect sorted_values data 0 a ++ collect sorted_values data a b
    ++ collect sorted_values data b c
  ⊆+ found data.
Proof.
  intros Hab Hbc. unfold collect, found.
  rewrite (concat_fmap_app (λ vs, concat (slice a b <$> sorted_values vs))).
  rewrite concat_fmap_app.
  apply concat_fmap_submseteq. intros vs.
  rewrite (concat_fmap_app (slice a b)), concat_fmap_app.
  rewrite <- (concat_perm _ _ (sorted_values_perm vs)).
  rewrite <- (list_fmap_id (sorted_values vs)) at 2.
  apply concat_fmap_submseteq. intros v.
  rewrite slices_take by done. apply submseteq_take.
Qed.

(** X17. When the files found are pairwise distinct, the test, evaluation
    and training sets of the synthetic spectra share no file: each of the
    three lists is free of duplicates, no file of one list is in
    another, and every file of a list is one of the files found. *)
Theorem splits_are_disjoint (data : list (list (list F))) :
  NoDup (found data) →
  NoDup (test sorted_values data)
  ∧ NoDup (eva sorted_values data)
  ∧ NoDup (train sorted_values data)
  ∧ (∀ f, f ∈ test sorted_values data →
          (f ∉ eva sorted_values data) ∧ (f ∉ train sorted_values data))
  ∧ (∀ f, f ∈ eva sorted_values data → f ∉ train sorted_values data)
  ∧ (∀ f, f ∈ (test sorted_values data ++ eva sorted_values data
                 ++ train sorted_values data) →
          f ∈ found data).
Proof.
  intros Hnd.
  pose proof (collected_submseteq data 870 1740 5800 ltac:(lia) ltac:(lia))
    as Hsub.
  fold (test sorted_values data) (eva sorted_values data)
       (train sorted_values data) in Hsub.
  pose proof (submseteq_NoDup _ _ Hsub Hnd) as Hall.
  apply NoDup_app in Hall as (Ht & Hte & Her).
  apply NoDup_app in Her as (He & Her & Hr).
  split_and!; try done.
  - intros f Hf. specialize (Hte f Hf).
    rewrite elem_of_app in Hte. split; intros ?; apply Hte; auto.
  - intros f Hf. eapply elem_of_submseteq; [exact Hf|exact Hsub].
Qed.
End Split.

Lemma splits_are_disjoint_witness :
  NoDup (test id [[[1; 2]; [3]]; [[4]]]%nat)
  ∧ test id [[[1; 2]; [3]]; [[4]]]%nat = [1; 2; 3; 4]%nat
  ∧ eva id [[[1; 2]; [3]]; [[4]]]%nat = [].
Proof.
  split; [|done].
  apply (splits_are_disjoint id); [done|].
  apply (bool_decide_unpack _). by vm_compute.
Defined.

End SyntheticSpec.

(** ** Mixing synthetic data into the handheld training set *)

Module MixtureSpec.
Import Remap RemapFacts Weights Mixture.

Lemma np_unique_ext (l k : list Z) :
  (∀ x, x ∈ l ↔ x ∈ k) → np_unique l = np_unique k.
Proof.
  intros Hlk. apply (Sorted_unique Z.le).
  - apply StronglySorted_Sorted, WeightsSpec.StronglySorted_lt_le,
      np_unique_sorted.
  - apply StronglySorted_Sorted, WeightsSpec.StronglySorted_lt_le,
      np_unique_sorted.
  - apply NoDup_Permutation; [apply np_unique_NoDup..|].
    intros x. by rewrite !elem_of_np_unique.
Qed.

Lemma count_occ_Z_app (c : Z) (l k : list Z) :
  count_occ_Z c (l ++ k) = (count_occ_Z c l + count_occ_Z c k)%nat.
Proof. unfold count_occ_Z. by rewrite filter_app, length_app. Qed.

Lemma count_occ_Z_replicate (c x : Z) (n : nat) :
  count_occ_Z c (replicate n x) = if decide (x = c) then n else 0%nat.
Proof.
  unfold count_occ_Z. induction n as [|n IH]; simpl.
  - by case_decide.
  - rewrite filter_cons. case_decide; simpl; [by rewrite IH|done].
Qed.

(** Fancy indexing with the positions of a label picks the entries that
    stand beside this label. *)
Lemma take_indices_where {A} (pre a : list A) (labels : list Z) (hhl : Z) :
  length a = length labels →
  take_indices (pre ++ a) (where_from (length pre) labels hhl)
  = Ok ((filter (λ p, p.2 = hhl) (zip a labels)).*1).
Proof.
  revert pre a. induction labels as [|l labels IH]; intros pre a Hlen.
  - by destruct a.
  - destruct a as [|y a]; [done|]. simpl in Hlen.
    specialize (IH (pre ++ [y]) a ltac:(lia)).
    rewrite <- app_assoc, length_app, Nat.add_1_r in IH. simpl in IH.
    simpl. rewrite filter_cons. simpl. case_decide as Hl.
    + unfold take_indices in *. simpl.
      rewrite list_lookup_middle by done. simpl. by rewrite IH.
    + done.
Qed.

Lemma filter_zip_same (labels : list Z) (hhl : Z) :
  (filter (λ p : Z * Z, p.2 = hhl) (zip labels labels)).*1
  = replicate (count_occ_Z hhl labels) hhl.
Proof.
  unfold count_occ_Z. induction labels as [|l labels IH]; [done|].
  simpl. rewrite !filter_cons. simpl. case_decide as Hl; simpl.
  - subst l. f_equal. exact IH.
  - exact IH.
Qed.

Lemma py_take_Forall2 {A B} (P : A → B → Prop) (n : Z) (l : list A)
    (k : list B) :
  Forall2 P l k → Forall2 P (py_take n l) (py_take n k).
Proof.
  intros H. unfold py_take. rewrite (Forall2_length _ _ _ H).
  case_decide; by apply Forall2_take.
Qed.

Section Mix.
Context {F : Type}.
Variable amount : nat → Z.
Variable train_data_syn : list F.
Variable train_labels_syn : list Z.
Hypothesis syn_aligned : length train_data_syn = length train_labels_syn.

(** The synthetic files with label [hhl], beside their labels. *)
Local Abbreviation selected hhl :=
  (filter (λ p : F * Z, p.2 = hhl) (zip train_data_syn train_labels_syn)).

Local Abbreviation block_data :=
  (λ it : (Z * nat) * (Z * nat),
     py_take (amount it.1.2) (selected it.1.1).*1).

Local Abbreviation block_labels :=
  (λ it : (Z * nat) * (Z * nat),
     py_take (amount it.1.2)
       (replicate (count_occ_Z it.1.1 train_labels_syn) it.1.1)).

(** The loop appends one block of files and one block of labels per
    item. *)
Lemma mix_loop_spec (items : list ((Z * nat) * (Z * nat)))
    (data_hh : list F) (labels_hh : list Z) (printed : list (Z * Z * nat)) :
  ∃ printed',
    mix_loop amount train_data_syn train_labels_syn items data_hh labels_hh
      printed
    = Ok (data_hh ++ concat (block_data <$> items),
          labels_hh ++ concat (block_labels <$> items), printed').
Proof.
  revert data_hh labels_hh printed.
  induction items as [|[[hhl hhc] [synl sync]] items IH];
    intros data_hh labels_hh printed.
  - exists printed. simpl. by rewrite !app_nil_r.
  - cbn [mix_loop]. unfold where_eq.
    pose proof (take_indices_where [] train_data_syn train_labels_syn hhl
                  syn_aligned) as Hd.
    pose proof (take_indices_where [] train_labels_syn train_labels_syn hhl
                  eq_refl) as Hl.
    simpl in Hd, Hl. rewrite Hd, Hl, filter_zip_same.
    cbn [mbind result_bind].
    match goal with
    | |- context [mix_loop _ _ _ items ?d ?l ?p] =>
        destruct (IH d l p) as [printed' ->]
    end.
    exists printed'. csimpl. by rewrite <- !app_assoc.
Qed.

Lemma selected_Forall2 (hhl : Z) :
  Forall2 (λ f l, (f, l) ∈ zip train_data_syn train_labels_syn ∧ l = hhl)
    (selected hhl).*1
    (replicate (count_occ_Z hhl train_labels_syn) hhl).
Proof.
  rewrite <- filter_zip_same. unfold count_occ_Z.
  revert syn_aligned. generalize train_data_syn as a.
  induction train_labels_syn as [|l labels IH]; intros a Hlen.
  - destruct a; [constructor|done].
  - destruct a as [|y a]; [done|]. simpl in Hlen. simpl.
    rewrite !filter_cons. simpl. case_decide as Hl; simpl.
    + constructor; [split; [left|done]|].
      eapply Forall2_impl; [apply IH; lia|].
      intros f l' [Hin ->]. split; [by right|done].
    + eapply Forall2_impl; [apply IH; lia|].
      intros f l' [Hin ->]. split; [by right|done].
Qed.

Lemma blocks_Forall2 (items : list ((Z * nat) * (Z * nat)))
    (labels_hh : list Z) :
  (∀ it, it ∈ items → it.1.1 ∈ labels_hh) →
  Forall2 (λ f l, (f, l) ∈ zip train_data_syn train_labels_syn
                  ∧ l ∈ labels_hh)
    (concat (block_data <$> items)) (concat (block_labels <$> items)).
Proof.
  intros Hkeys. induction items as [|it items IH]; [constructor|]. csimpl.
  apply Forall2_app.
  - apply py_take_Forall2.
    eapply Forall2_impl; [apply selected_Forall2|].
    intros f l [Hin ->]. split; [done|]. apply Hkeys. left.
  - apply IH. intros it' Hit'. apply Hkeys. by right.
Qed.

Lemma items_keys (labels_hh : list Z) (it : (Z * nat) * (Z * nat)) :
  it ∈ zip (unique_counts labels_hh) (unique_counts train_labels_syn) →
  it.1.1 ∈ labels_hh.
Proof.
  destruct it as [[hhl hhc] s]. intros Hit. apply elem_of_zip_l in Hit.
  unfold unique_counts in Hit.
  apply list_elem_of_fmap in Hit as (l & [= -> _] & Hl).
  simpl. by apply elem_of_np_unique.
Qed.

(** X18. Mixing keeps the handheld training set as a prefix and appends
    files and labels side by side: every appended file stands with its
    own label of the synthetic set, and every appended label already
    occurs in the handheld set, so that the distinct labels (and with
    them the classes of the model) stay those of the handheld set. *)
Theorem mixture_keeps_classes (data_hh : list F) (labels_hh : list Z) :
  ∃ extra_data extra_labels printed,
    prepare_mixture_dataset amount train_data_syn train_labels_syn
      data_hh labels_hh
    = Ok (data_hh ++ extra_data, labels_hh ++ extra_labels, printed)
    ∧ Forall2 (λ f l, (f, l) ∈ zip train_data_syn train_labels_syn
                      ∧ l ∈ labels_hh) extra_data extra_labels
    ∧ np_unique (labels_hh ++ extra_labels) = np_unique labels_hh.
Proof.
  unfold prepare_mixture_dataset.
  set (items := zip (unique_counts labels_hh)
                    (unique_counts train_labels_syn)).
  destruct (mix_loop_spec items data_hh labels_hh []) as [printed ->].
  exists (concat (block_data <$> items)), (concat (block_labels <$> items)),
         printed.
  pose proof (blocks_Forall2 items labels_hh (items_keys labels_hh)) as Hall.
  split_and!; [done|done|].
  apply np_unique_ext. intros x. rewrite elem_of_app. split; [|auto].
  intros [Hx|Hx]; [done|].
  apply list_elem_of_lookup in Hx as [k Hk].
  destruct (Forall2_lookup_r _ _ _ _ _ Hall Hk) as (f & _ & _ & Hin).
  done.
Qed.

Hypothesis amount_nonneg : ∀ c, 0 ≤ amount c.

Lemma block_labels_replicate (it : (Z * nat) * (Z * nat)) :
  block_labels it
  = replicate (Z.to_nat (amount it.1.2)
               `min` count_occ_Z it.1.1 train_labels_syn) it.1.1.
Proof.
  unfold py_take. rewrite decide_True by apply amount_nonneg.
  apply take_replicate.
Qed.

Lemma count_blocks_absent (items : list ((Z * nat) * (Z * nat))) (l : Z) :
  l ∉ items.*1.*1 →
  count_occ_Z l (concat (block_labels <$> items)) = 0%nat.
Proof.
  induction items as [|it items IH]; [done|]. csimpl. intros Hl.
  apply not_elem_of_cons in Hl as [Hne Hl].
  rewrite count_occ_Z_app, block_labels_replicate, count_occ_Z_replicate.
  rewrite decide_False by done. by rewrite IH.
Qed.

Lemma count_blocks_present (items : list ((Z * nat) * (Z * nat))) (j : nat)
    (it : (Z * nat) * (Z * nat)) :
  NoDup items.*1.*1 → items !! j = Some it →
  count_occ_Z it.1.1 (concat (block_labels <$> items))
  = (Z.to_nat (amount it.1.2)
     `min` count_occ_Z it.1.1 train_labels_syn)%nat.
Proof.
  revert j. induction items as [|it0 items IH]; intros j Hnd Hj; [done|].
  csimpl in *. apply NoDup_cons in Hnd as [Hnotin Hnd].
  rewrite count_occ_Z_app, block_labels_replicate, count_occ_Z_replicate.
  destruct j as [|j]; simpl in Hj.
  - injection Hj as ->. rewrite decide_True by done.
    rewrite count_blocks_absent by done. lia.
  - rewrite decide_False.
    + by rewrite (IH j).
    + intros Heq. apply Hnotin. rewrite Heq.
      apply list_elem_of_fmap. exists it.1. split; [done|].
      apply list_elem_of_fmap. exists it. split; [done|].
      by eapply list_elem_of_lookup_2.
Qed.

(** X19. With amounts that are not negative, the labels are paired by
    position and not by value: for the handheld label at position [j] of
    the ascending list of distinct handheld labels, mixing appends
    [min(n, available)] synthetic samples of this label, [n] being the
    amount computed from the label's handheld count, if the synthetic
    set has more than [j] distinct labels, and none at all otherwise,
    however many synthetic samples carry the label. *)
Theorem mixture_amounts (data_hh : list F) (labels_hh : list Z) (j : nat)
    (hhl : Z) :
  np_unique labels_hh !! j = Some hhl →
  ∃ extra_data extra_labels printed,
    prepare_mixture_dataset amount train_data_syn train_labels_syn
      data_hh labels_hh
    = Ok (data_hh ++ extra_data, labels_hh ++ extra_labels, printed)
    ∧ length extra_data = length extra_labels
    ∧ count_occ_Z hhl extra_labels
      = if decide (j < length (np_unique train_labels_syn))%nat
        then (Z.to_nat (amount (count_occ_Z hhl labels_hh))
              `min` count_occ_Z hhl train_labels_syn)%nat
        else 0%nat.
Proof.
  intros Hj. unfold prepare_mixture_dataset.
  set (items := zip (unique_counts labels_hh)
                    (unique_counts train_labels_syn)).
  destruct (mix_loop_spec items data_hh labels_hh []) as [printed ->].
  exists (concat (block_data <$> items)), (concat (block_labels <$> items)),
         printed.
  split_and!; [done| |].
  { eapply Forall2_length, (blocks_Forall2 items labels_hh).
    apply items_keys. }
  assert (Hfst : items.*1.*1
                 = take (length (np_unique train_labels_syn))
                        (np_unique labels_hh)).
  { unfold items, unique_counts.
    generalize (np_unique train_labels_syn) as k.
    generalize (np_unique labels_hh) as l.
    induction l as [|x l IH]; intros k; [by destruct k|].
    destruct k as [|y k]; [done|]. csimpl. by rewrite IH. }
  case_decide as Hlt.
  - destruct (lookup_lt_is_Some_2 (np_unique train_labels_syn) j Hlt)
      as [synl Hsyn].
    pose proof (count_blocks_present items j
                  ((hhl, count_occ_Z hhl labels_hh),
                   (synl, count_occ_Z synl train_labels_syn))) as Hcnt.
    simpl in Hcnt. apply Hcnt.
    + rewrite Hfst. eapply SyntheticSpec.submseteq_NoDup;
        [apply submseteq_take|apply np_unique_NoDup].
    + unfold items, unique_counts. rewrite lookup_zip_with.
      rewrite !list_lookup_fmap, Hj, Hsyn. done.
  - apply count_blocks_absent. rewrite Hfst. intros Hin.
    apply elem_of_take in Hin as (j' & Hj' & Hlt').
    pose proof (NoDup_lookup _ _ _ _ (np_unique_NoDup labels_hh) Hj Hj').
    lia.
Qed.
End Mix.

Lemma mixture_keeps_classes_witness :
  ∃ extra_data extra_labels printed,
    prepare_mixture_dataset (λ c, Z.of_nat c) [10; 11; 12; 13]%nat [5; 9; 5; 5]
      [1; 2; 3; 4]%nat [5; 5; 7; 9]
    = Ok ([1; 2; 3; 4]%nat ++ extra_data, [5; 5; 7; 9] ++ extra_labels,
          printed)
    ∧ Forall2 (λ f l, (f, l) ∈ zip [10; 11; 12; 13]%nat [5; 9; 5; 5]
                      ∧ l ∈ [5; 5; 7; 9]) extra_data extra_labels
    ∧ np_unique ([5; 5; 7; 9] ++ extra_labels) = np_unique [5; 5; 7; 9].
Proof.
  by apply (mixture_keeps_classes (λ c, Z.of_nat c)
              [10; 11; 12; 13]%nat [5; 9; 5; 5]).
Defined.

Lemma mixture_amounts_witness :
  ∃ extra_data extra_labels printed,
    prepare_mixture_dataset (λ c, Z.of_nat c) [10; 11; 12; 13]%nat [5; 9; 5; 5]
      [1; 2; 3; 4]%nat [5; 5; 7; 9]
    = Ok ([1; 2; 3; 4]%nat ++ extra_data, [5; 5; 7; 9] ++ extra_labels,
          printed)
    ∧ count_occ_Z 9 extra_labels = 0%nat.
Proof.
  destruct (mixture_amounts (λ c, Z.of_nat c)
              [10; 11; 12; 13]%nat [5; 9; 5; 5] eq_refl
              (λ c, Nat2Z.is_nonneg c) [1; 2; 3; 4]%nat [5; 5; 7; 9]
              2%nat 9 eq_refl)
    as (ed & el & pr & Hrun & _ & Hcnt).
  exists ed, el, pr. split; [exact Hrun|].
  rewrite decide_False in Hcnt
    by (change (length (np_unique [5; 9; 5; 5])) with 2%nat; lia).
  exact Hcnt.
Defined.

End MixtureSpec.

(** ** Labels read off a file name and labels stored with the data *)

Module LabelsSpec.
Import Grid Labels.

Lemma split_field (c : ascii) (t rest : string) :
  has_char c t = false →
  split c (t +:+ String c EmptyString +:+ rest) = t :: split c rest.
Proof.
  change (String c EmptyString +:+ rest) with (String c rest).
  induction t as [|a t IH]; intros Ht.
  - simpl. by rewrite Ascii.eqb_refl.
  - simpl in Ht. apply orb_false_iff in Ht as [Ha Ht].
    change (String a t +:+ String c rest) with (String a (t +:+ String c rest)).
    cbn [split]. by rewrite Ha, (IH Ht).
Qed.

Lemma substring_skip (d s : string) (k m : nat) :
  String.substring (String.length d + k) m (d +:+ s) = String.substring k m s.
Proof. induction d as [|a d IH]; [done|]. simpl. exact IH. Qed.

Lemma length_append (d s : string) :
  String.length (d +:+ s) = (String.length d + String.length s)%nat.
Proof. induction d as [|a d IH]; [done|]. simpl. by rewrite IH. Qed.

Lemma list_item_nonneg {A} (l : list A) (i : Z) (x : A) :
  0 ≤ i → l !! Z.to_nat i = Some x → list_item l i = Ok x.
Proof.
  intros Hi Hx. unfold list_item. rewrite (decide_True _ _ Hi).
  rewrite decide_True, Hx; [done|].
  apply lookup_lt_Some in Hx. lia.
Qed.

Lemma append_assoc (a b c : string) : (a +:+ b) +:+ c = a +:+ (b +:+ c).
Proof.
  induction a as [|x a IH]; [done|].
  change (String x ((a +:+ b) +:+ c) = String x (a +:+ (b +:+ c))).
  by rewrite IH.
Qed.

Section Basename.
Variable basename : string → string.

(** X20. For a measurement named [IIII_CCC_SSS_PPP_NNNNN] (fields of 4, 3,
    3, 3 and 5 characters, no underscore inside the first three), the
    label that [__get_labels] reads off the name of the data file for a
    classification target accepted by [set_classification_targets] is
    the entry, at the position of the target, of the label array that
    [convert_to_numpy] stored from the csv file of the same name. *)
Theorem name_label_is_stored_label (dir dir' id cls sub mp shot ext : string)
    (cls_choice target : Z) (cls_str : string) (stored : list Z) :
  let stem := id +:+ "_" +:+ cls +:+ "_" +:+ sub +:+ "_" +:+ mp
              +:+ "_" +:+ shot in
  String.length id = 4%nat → String.length cls = 3%nat →
  String.length sub = 3%nat → String.length mp = 3%nat →
  String.length shot = 5%nat →
  has_char "_" id = false → has_char "_" cls = false →
  has_char "_" sub = false →
  basename (dir' +:+ stem +:+ ext) = stem +:+ ext →
  set_classification_targets cls_choice = Ok (target, cls_str) →
  convert_to_numpy_labels (dir +:+ stem +:+ ".csv") = Ok stored →
  ∃ l, stored !! Z.to_nat target = Some l
       ∧ __get_labels basename [dir' +:+ stem +:+ ext] target = Ok [l].
Proof.
  intros stem Hid Hcls Hsub Hmp Hshot Uid Ucls Usub Hbase Htarget Hstored.
  (* the tokens of the name *)
  assert (Htok : ∃ rest, split "_" (stem +:+ ext) = id :: cls :: sub :: rest).
  { unfold stem. rewrite !append_assoc.
    rewrite (split_field "_" id) by done.
    rewrite (split_field "_" cls) by done.
    rewrite (split_field "_" sub) by done. eauto. }
  destruct Htok as [rest Htok].
  (* the slices of the path *)
  assert (Hslices : convert_to_numpy_labels (dir +:+ stem +:+ ".csv")
                    = traverse py_int [cls; sub; id]).
  { unfold convert_to_numpy_labels, slice_from_end.
    assert (String.length (dir +:+ stem +:+ ".csv")
            = (String.length dir + 26)%nat) as Hlen.
    { unfold stem. rewrite !length_append. simpl. lia. }
    rewrite Hlen.
    replace (String.length dir + 26 - 21)%nat
      with (String.length dir + 5)%nat by lia.
    replace (String.length dir + 26 - 17)%nat
      with (String.length dir + 9)%nat by lia.
    replace (String.length dir + 26 - 26)%nat
      with (String.length dir + 0)%nat by lia.
    replace (String.length dir + 26 - 18 - (String.length dir + 5))%nat
      with 3%nat by lia.
    replace (String.length dir + 26 - 14 - (String.length dir + 9))%nat
      with 3%nat by lia.
    replace (String.length dir + 26 - 22 - (String.length dir + 0))%nat
      with 4%nat by lia.
    rewrite !substring_skip. unfold stem. rewrite !append_assoc.
    clear -Hid Hcls Hsub.
    destruct id as [|a1 [|a2 [|a3 [|a4 [|? ?]]]]]; try done.
    destruct cls as [|b1 [|b2 [|b3 [|? ?]]]]; try done.
    destruct sub as [|c1 [|c2 [|c3 [|? ?]]]]; try done. }
  rewrite Hslices in Hstored. simpl in Hstored.
  destruct (py_int cls) as [lc|] eqn:Ec; [|done].
  destruct (py_int sub) as [ls|] eqn:Es; [|done].
  destruct (py_int id) as [li|] eqn:Ei; [|done].
  simpl in Hstored. injection Hstored as <-.
  unfold __get_labels. simpl. rewrite Hbase, Htok.
  unfold set_classification_targets in Htarget.
  repeat case_decide; simplify_eq; simpl.
  - exists lc. rewrite (list_item_nonneg _ 1 cls) by done.
    simpl. by rewrite Ec.
  - exists ls. rewrite (list_item_nonneg _ 2 sub) by done.
    simpl. by rewrite Es.
  - exists li. by rewrite Ei.
Qed.
End Basename.

Lemma name_label_is_stored_label_witness :
  ∃ l, [1; 2; 11] !! Z.to_nat 2 = Some l
       ∧ __get_labels (λ f, String.substring 6 26 f)
           ["train/0011_001_002_000_00005.npz"] 2
         = Ok [l].
Proof.
  apply (name_label_is_stored_label (λ f, String.substring 6 26 f)
           "data/" "train/" "0011" "001" "002" "000" "00005" ".npz"
           2 2 "minerals" [1; 2; 11]); done.
Defined.

End LabelsSpec.
